(** * swampymud command-grammar parser: a shallow embedding of
      [swampymud/util/parser.py] and the properties of its tokenizer,
      grammar reader, NFA builders and NFA executor.

    Python values are modelled as follows.
    - [str] is [string]; a list of characters under construction is
      [list ascii].  A character is a code point below 256, the value
      of [ord]: [ascii_of_nat n] stands for [chr(n)], so the length of a
      string is its number of code points and a letter such as e with
      an acute accent is the one character of code 233.  Text that
      holds a code point of 256 or more has no counterpart.
      [islower] and [isupper] follow Unicode on this range.
    - A raised exception is a value of [exn]; a function that may raise
      returns [result].
    - A generator is the list of the values it yields together with the
      exception, if any, that ends it ([gen]).
    - The interpreter's recursion limit is the [fuel] argument of the
      recursive generators: a call with no frame left raises
      [RecursionError].
    - A [set] that is only tested for membership is a duplicate-free
      list in insertion order.  Where the code turns a set into a tuple,
      the order of the tuple is the iteration order of the set, which
      Python leaves unspecified and which follows the hashes of the
      elements: that order is a parameter of the model ([SetOrder]).
    - A [dict] is read in insertion order; a state of the automaton
      records the order of its keys as far as the code can observe it.
    - An index of a state is a natural number: no builder produces a
      negative one.  [deepcopy] and [copy] are the identity on values. *)

From Stdlib Require Import List String Ascii Bool Arith Lia.
Import ListNotations.

Local Open Scope string_scope.
Local Open Scope nat_scope.
Local Open Scope list_scope.

(** ** Tokens, failure records and exceptions *)

(** [class Token(Enum)] *)
Inductive Token : Type := EPSILON | ANY | END | NOTHING | EMIT.

(** A dictionary key of an automaton state, an element of a token
    stream, or an expected category of a failure record: a [str] or a
    member of [Token]. *)
Inductive Key : Type :=
| Word (s : string)
| Tok (t : Token).

(** [Fail = namedtuple("Fail", ["expected", "received"])]; [expected]
    is a tuple. *)
Record Fail : Type := mkFail { expected : list Key; received : Key }.

(** The messages of the [ValueError]s the module raises. *)
Inductive ValueErrorMsg : Type :=
| AlreadyQuantified                       (* "Predicate already has quantifier" *)
| ExpectedPredicate                       (* "Expected predicate before quantifier" *)
| EmptyAlternative                        (* "empty alternative" *)
| EmptyAlternate                          (* "empty alternate" *)
| EmptyGroup                              (* "empty group" *)
| UnmatchedClose (index : nat)            (* "Unmatched ')' at index [{index}]" *)
| UnrecognizedToken (token : string) (index : nat)
                                          (* "Unrecognized token {token!r} starting at index [{index}]" *)
| ExpectedClose (count index : nat)       (* "Expected {count} ')', but input ended at [{index}]" *)
| EpsilonOnMatch                          (* "Cannot add epsilon transition to state with matches" *)
| TooManyValues.                          (* [rule, = emits] with more than one value *)

Inductive exn : Type :=
| ValueError (msg : ValueErrorMsg)
| IndexError
| RecursionError
| ParseError (args : list Fail).

Inductive result (A : Type) : Type :=
| Ret (a : A)
| Raise (e : exn).
Arguments Ret {A} a.
Arguments Raise {A} e.

Definition bind {A B : Type} (m : result A) (f : A -> result B) : result B :=
  match m with
  | Ret a => f a
  | Raise e => Raise e
  end.

Notation "x <- m ;; k" := (bind m (fun x => k))
  (at level 61, m at next level, right associativity).

Section MapM.
Context {A B : Type} (f : A -> result B).

(** [list(map(f, l))] where [f] may raise. *)
Fixpoint mapM (l : list A) : result (list B) :=
  match l with
  | [] => Ret []
  | x :: l' => y <- f x ;; ys <- mapM l' ;; Ret (y :: ys)
  end.
End MapM.

(** ** The tokenizer: [split_args] *)

Definition dquote : ascii := "034"%char.
Definition squote : ascii := "039"%char.

(** The test of [char] against the two quote characters. *)
Definition is_quote (c : ascii) : bool :=
  (c =? dquote)%char || (c =? squote)%char.

(** The test of [char] against space, tab, newline and carriage return. *)
Definition is_space (c : ascii) : bool :=
  (c =? " ")%char || (c =? "009")%char || (c =? "010")%char || (c =? "013")%char.

(** [tokens[-1].append(char)]; an empty [tokens] raises [IndexError]. *)
Fixpoint append_last (tokens : list (list ascii)) (char : ascii)
  : result (list (list ascii)) :=
  match tokens with
  | [] => Raise IndexError
  | [t] => Ret [t ++ [char]]
  | t :: rest => r <- append_last rest char ;; Ret (t :: r)
  end.

(** The local variables of [split_args]; [in_quote] is [False] ([None])
    or the quote character that opened the span. *)
Record scanner : Type := mkScanner {
  in_quote : option ascii;
  in_token : bool;
  tokens : list (list ascii)
}.

(** One iteration of [for char in string]. *)
Definition split_step (st : scanner) (char : ascii) : result scanner :=
  match in_quote st with
  | Some q =>
      if (char =? q)%char then
        Ret (mkScanner None (in_token st) (tokens st))
      else
        toks <- append_last (tokens st) char ;;
        Ret (mkScanner (Some q) (in_token st) toks)
  | None =>
      if is_quote char then
        if in_token st then
          toks <- append_last (tokens st) char ;;
          Ret (mkScanner None true toks)
        else
          Ret (mkScanner (Some char) false (tokens st ++ [[]]))
      else if is_space char then
        Ret (mkScanner None false (tokens st))
      else if in_token st then
        toks <- append_last (tokens st) char ;;
        Ret (mkScanner None true toks)
      else
        Ret (mkScanner None true (tokens st ++ [[char]]))
  end.

Fixpoint split_loop (st : scanner) (s : string) : result scanner :=
  match s with
  | EmptyString => Ret st
  | String char s' => st' <- split_step st char ;; split_loop st' s'
  end.

Definition split_args (s : string) : result (list string) :=
  st <- split_loop (mkScanner None false []) s ;;
  Ret (map string_of_list_ascii (tokens st)).

(** A string none of whose characters satisfies [p]. *)
Fixpoint string_forallb (p : ascii -> bool) (s : string) : bool :=
  match s with
  | EmptyString => true
  | String c s' => p c && string_forallb p s'
  end.

(** Characters that neither end nor quote a token. *)
Definition is_plain (c : ascii) : bool := negb (is_space c) && negb (is_quote c).

(** ** The grammar AST *)

(** The subclasses of [Grammar].  [Variable(token)] stores the tuple of
    its type names; a [Group] stores [args] (the current sequence) and
    [alts] (the closed alternatives). *)
Local Unset Elimination Schemes.
Inductive Grammar : Type :=
| Keyword (inner : string)
| Variable_ (inner : list string)   (* [Variable]; the name is reserved in Rocq *)
| Star (inner : Grammar)
| Plus (inner : Grammar)
| Optional (inner : Grammar)
| Group (args : list Grammar) (alts : list (list Grammar)).
Local Set Elimination Schemes.

(** [isinstance(g, (Star, Plus, Optional))] *)
Definition is_quantified (g : Grammar) : bool :=
  match g with
  | Star _ | Plus _ | Optional _ => true
  | _ => false
  end.

(** The methods of [Group], on the pair of its two fields. *)
Module GroupObj.

Record t : Type := mk { args : list Grammar; alts : list (list Grammar) }.

(** [Group()] *)
Definition empty : t := mk [] [].

Definition add (self : t) (arg : Grammar) : t :=
  mk (args self ++ [arg]) (alts self).

Definition quantify_last (self : t) (Quantifier : Grammar -> Grammar) : result t :=
  match rev (args self) with
  | [] => Raise (ValueError ExpectedPredicate)
  | last :: front =>
      if is_quantified last then Raise (ValueError AlreadyQuantified)
      else Ret (mk (rev front ++ [Quantifier last]) (alts self))
  end.

Definition add_alternative (self : t) : result t :=
  match args self with
  | [] => Raise (ValueError EmptyAlternative)
  | _ :: _ => Ret (mk [] (alts self ++ [args self]))
  end.

Definition cleanup (self : t) : result t :=
  match args self with
  | [] =>
      match alts self with
      | _ :: _ => Raise (ValueError EmptyAlternate)
      | [] => Raise (ValueError EmptyGroup)
      end
  | _ :: _ =>
      match alts self with
      | _ :: _ => Ret (mk [] (alts self ++ [args self]))
      | [] => Ret self
      end
  end.

Definition to_grammar (self : t) : Grammar := Group (args self) (alts self).

End GroupObj.

(** ** The grammar reader: [_parse_grammar] *)

(** The characters of the capture group of [_grammar_token_re]. *)
Definition is_special (c : ascii) : bool :=
  (c =? "(")%char || (c =? ")")%char || (c =? "|")%char
  || (c =? "*")%char || (c =? "?")%char || (c =? "+")%char.

(** [_grammar_token_re.split(grammar)].  Every match of the pattern is one
    character, so the result alternates the text between two matches and
    the value of the capture group: the character itself for one of the
    six special characters, [None] for a whitespace character. *)
Fixpoint re_split (piece : list ascii) (grammar : string) : list (option string) :=
  match grammar with
  | EmptyString => [Some (string_of_list_ascii piece)]
  | String c rest =>
      if is_special c then
        Some (string_of_list_ascii piece) :: Some (String c EmptyString) :: re_split [] rest
      else if is_space c then
        Some (string_of_list_ascii piece) :: None :: re_split [] rest
      else re_split (piece ++ [c]) rest
  end.

(** [lo <= ord(c) <= hi] *)
Definition in_codes (lo hi : nat) (c : ascii) : bool :=
  (lo <=? nat_of_ascii c)%nat && (nat_of_ascii c <=? hi)%nat.

(** The lowercase characters below 256: the letters a to z, the two
    ordinal indicators (170, 186), the micro sign (181) and the letters
    from 223 to 255 but the division sign (247). *)
Definition is_lower_char (c : ascii) : bool :=
  in_codes 97 122 c || in_codes 170 170 c || in_codes 181 181 c
  || in_codes 186 186 c || in_codes 223 246 c || in_codes 248 255 c.

(** The uppercase characters below 256: the letters A to Z and the
    letters from 192 to 222 but the multiplication sign (215).  No
    character below 256 is titlecase. *)
Definition is_upper_char (c : ascii) : bool :=
  in_codes 65 90 c || in_codes 192 214 c || in_codes 216 222 c.

Fixpoint string_existsb (p : ascii -> bool) (s : string) : bool :=
  match s with
  | EmptyString => false
  | String c s' => p c || string_existsb p s'
  end.

(** [str.islower]: at least one lowercase character and no uppercase
    (or titlecase) one. *)
Definition islower (s : string) : bool :=
  string_existsb is_lower_char s && negb (string_existsb is_upper_char s).
(** [str.isupper]: at least one uppercase character and no lowercase
    (or titlecase) one. *)
Definition isupper (s : string) : bool :=
  string_existsb is_upper_char s && negb (string_existsb is_lower_char s).

(** [len(s) if s else 0] *)
Definition token_length (s : option string) : nat :=
  match s with
  | Some x => String.length x
  | None => 0
  end.

(** The loop of [_string_index]: [prev] is the length of the previous
    token, not the running sum. *)
Fixpoint cumsum_loop (prev : nat) (cumsum : list nat) (toks : list (option string))
  : list nat :=
  match toks with
  | [] => cumsum
  | s :: toks' =>
      let length := token_length s in
      cumsum_loop length (cumsum ++ [length + prev]) toks'
  end.

Definition _string_index (tok_index : nat) (tokens : list (option string)) : nat :=
  last (cumsum_loop 0 [] (firstn tok_index tokens)) 0.

(** The body of the loop of [_parse_grammar] for one non-empty token.
    The stack of groups has its top first. *)
Definition parse_token (tokens : list (option string)) (tok_index : nat)
    (token : string) (stack : list GroupObj.t) : result (list GroupObj.t) :=
  let on_top (f : GroupObj.t -> result GroupObj.t) :=
    match stack with
    | [] => Raise IndexError
    | top :: below => top' <- f top ;; Ret (top' :: below)
    end in
  if islower token then
    on_top (fun top => Ret (GroupObj.add top (Keyword token)))
  else if isupper token then
    on_top (fun top => Ret (GroupObj.add top (Variable_ [token])))
  else if (token =? "(")%string then
    Ret (GroupObj.empty :: stack)
  else if (token =? ")")%string then
    match stack with
    | [] => Raise IndexError
    | finished_group :: below =>
        finished <- GroupObj.cleanup finished_group ;;
        match below with
        | top :: below' =>
            Ret (GroupObj.add top (GroupObj.to_grammar finished) :: below')
        | [] =>
            Raise (ValueError (UnmatchedClose (_string_index tok_index tokens)))
        end
    end
  else if (token =? "|")%string then
    on_top GroupObj.add_alternative
  else if (token =? "*")%string then
    on_top (fun top => GroupObj.quantify_last top Star)
  else if (token =? "+")%string then
    on_top (fun top => GroupObj.quantify_last top Plus)
  else if (token =? "?")%string then
    on_top (fun top => GroupObj.quantify_last top Optional)
  else
    Raise (ValueError (UnrecognizedToken token (_string_index tok_index tokens))).

(** [for tok_index, token in enumerate(tokens)], from position
    [tok_index] on; [todo] is the rest of [tokens]. *)
Fixpoint parse_loop (tokens : list (option string)) (tok_index : nat)
    (todo : list (option string)) (stack : list GroupObj.t)
  : result (list GroupObj.t) :=
  match todo with
  | [] => Ret stack
  | token :: todo' =>
      match token with
      | None | Some EmptyString => parse_loop tokens (S tok_index) todo' stack
      | Some tok =>
          stack' <- parse_token tokens tok_index tok stack ;;
          parse_loop tokens (S tok_index) todo' stack'
      end
  end.

Definition _parse_grammar (grammar : string) : result Grammar :=
  let tokens := re_split [] grammar in
  stack <- parse_loop tokens 0 tokens [GroupObj.empty] ;;
  match stack with
  | [] => Raise IndexError
  | [root] => root' <- GroupObj.cleanup root ;; Ret (GroupObj.to_grammar root')
  | _ :: _ :: _ =>
      Raise (ValueError (ExpectedClose (List.length stack - 1) (_string_index 0 tokens)))
  end.

(** [Grammar.from_string] *)
Definition from_string (s : string) : result Grammar := _parse_grammar s.

(** The offset a [ValueError] of the reader carries, if any. *)
Definition error_offset (m : ValueErrorMsg) : option nat :=
  match m with
  | UnmatchedClose i | UnrecognizedToken _ i | ExpectedClose _ i => Some i
  | _ => None
  end.

(** ** Automaton states and tables *)

Definition Token_eqb (a b : Token) : bool :=
  match a, b with
  | EPSILON, EPSILON | ANY, ANY | END, END | NOTHING, NOTHING | EMIT, EMIT => true
  | _, _ => false
  end.

Definition Key_eqb (a b : Key) : bool :=
  match a, b with
  | Word x, Word y => (x =? y)%string
  | Tok x, Tok y => Token_eqb x y
  | _, _ => false
  end.

(** [token is Token.END] *)
Definition is_END (token : Key) : bool := Key_eqb token (Tok END).

(** One state of the table, a [dict]: the value under [Token.EMIT] (a
    rule), the value under [Token.EPSILON] (a list of indices), the
    remaining items, from a word or [Token.ANY] to one index, in
    insertion order, and the place of the key [Token.EMIT] in that
    order: the number of remaining items inserted before it.  The place
    of the key [Token.EPSILON] is not kept: the keys of a state that
    has it are only read by [_add_epsilon], which raises or not
    whatever their order. *)
Record State : Type := mkStateAt {
  emit : option Grammar;
  eps : option (list nat);
  edges : list (Key * nat);
  emit_at : nat
}.

(** A state whose key [Token.EMIT], if any, comes first, as in every
    [dict] the builders make. *)
Abbreviation mkState e p g := (mkStateAt e p g 0).

(** [{}] *)
Definition empty_state : State := mkState None None [].

(** [state[key]] for a key other than [EMIT] and [EPSILON]. *)
Fixpoint lookup (key : Key) (items : list (Key * nat)) : option nat :=
  match items with
  | [] => None
  | (k, v) :: items' => if Key_eqb key k then Some v else lookup key items'
  end.

(** [tuple(state)]: the keys of a state without epsilon list, in
    insertion order. *)
Definition state_keys (state : State) : list Key :=
  let keys := map fst (edges state) in
  match emit state with
  | Some _ => firstn (emit_at state) keys ++ Tok EMIT :: skipn (emit_at state) keys
  | None => keys
  end.

(** The entries of [state[Token.EPSILON]], none when the key is absent. *)
Definition eps_list (state : State) : list nat :=
  match eps state with
  | Some l => l
  | None => []
  end.

(** The table of an [NFA] object; the object is identified with it. *)
Definition Table : Type := list State.

(** Every key of [edges] is a match, so the loop of [_add_epsilon]
    raises exactly when [edges] is not empty.  The state it updates has
    no such key, so its key [Token.EMIT] comes before all of them. *)
Definition _add_epsilon (from_state : State) (to_index : nat) : result State :=
  match edges from_state with
  | _ :: _ => Raise (ValueError EpsilonOnMatch)
  | [] =>
      Ret (mkState (emit from_state) (Some (eps_list from_state ++ [to_index])) [])
  end.

(** [l[i] = x] for [i] in range. *)
Fixpoint set_nth {A : Type} (i : nat) (x : A) (l : list A) : list A :=
  match l, i with
  | [], _ => []
  | _ :: l', 0 => x :: l'
  | y :: l', S i' => y :: set_nth i' x l'
  end.

(** [_add_epsilon(table[index], to_index)], the state updated in place. *)
Definition add_epsilon_at (table : Table) (index to_index : nat) : result Table :=
  match nth_error table index with
  | None => Raise IndexError
  | Some state =>
      state' <- _add_epsilon state to_index ;;
      Ret (set_nth index state' table)
  end.

(** [_add_epsilon(table[-1], to_index)] *)
Definition add_epsilon_last (table : Table) (to_index : nat) : result Table :=
  match table with
  | [] => Raise IndexError
  | _ :: _ => add_epsilon_at table (List.length table - 1) to_index
  end.

Section FoldM.
Context {A B : Type} (f : A -> B -> result A).

(** A [for] loop whose body may raise. *)
Fixpoint foldM (l : list B) (a : A) : result A :=
  match l with
  | [] => Ret a
  | x :: l' => a' <- f a x ;; foldM l' a'
  end.
End FoldM.

(** A generator: what it yields, and the exception that ends it. *)
Definition gen (A : Type) : Type := (list A * option exn)%type.

Section YieldFrom.
Context {A : Type} (f : nat -> gen A).

(** [for next_state in l: yield from f(next_state)] *)
Fixpoint yield_from_all (l : list nat) : gen A :=
  match l with
  | [] => ([], None)
  | n :: l' =>
      match f n with
      | (ys, Some e) => (ys, Some e)
      | (ys, None) => let (zs, r) := yield_from_all l' in (ys ++ zs, r)
      end
  end.
End YieldFrom.

(** An entry of a parse stack: a token of the stream, or
    [Parsed(rule, tokens)]. *)
Inductive Entry : Type :=
| Plain (token : Key)
| Parsed (rule : Grammar) (tokens : list string).

(** The [while] loop of [annotate] on the stack read from its end:
    pop entries while they are of type [str]. *)
Fixpoint pop_claimed (rev_stack : list Entry) (claimed : list string)
  : list Entry * list string :=
  match rev_stack with
  | Plain (Word s) :: below => pop_claimed below (claimed ++ [s])
  | _ => (rev_stack, claimed)
  end.

(** The new stack of [annotate] when [emits] holds the single [rule]. *)
Definition reduce_stack (stack : list Entry) (rule : Grammar) (token : Key)
  : list Entry :=
  let (below, claimed) := pop_claimed (rev stack) [] in
  rev below ++ [Parsed rule (rev claimed); Plain token].

Fixpoint list_eqb {A : Type} (eqb : A -> A -> bool) (l1 l2 : list A) : bool :=
  match l1, l2 with
  | [], [] => true
  | x :: l1', y :: l2' => eqb x y && list_eqb eqb l1' l2'
  | _, _ => false
  end.

Definition Fail_eqb (a b : Fail) : bool :=
  list_eqb Key_eqb (expected a) (expected b) && Key_eqb (received a) (received b).

(** [set(l)], for a set that is tested for membership or iterated to
    fill another set: the first occurrence of every element. *)
Fixpoint dedup {A : Type} (eqb : A -> A -> bool) (seen l : list A) : list A :=
  match l with
  | [] => seen
  | x :: l' => dedup eqb (if existsb (eqb x) seen then seen else seen ++ [x]) l'
  end.

(** [tuple(set(keys))], [keys] being what a generator yields: the tuple
    holds every distinct key once, in the iteration order of the set.
    That order depends on the hashes of the keys, which for strings
    change from one run of the interpreter to the next, so it is a
    parameter: any function from the yielded sequence to a tuple. *)
Class SetOrder : Type := tuple_of_set : list Key -> list Key.

(** What Python guarantees of [tuple(set(keys))]: no key twice, and the
    keys of the tuple are those of [keys]. *)
Definition set_order_ok (order : SetOrder) : Prop :=
  forall keys,
    NoDup (@tuple_of_set order keys)
    /\ forall k, In k (@tuple_of_set order keys) <-> In k keys.

(** One such order: that of the first insertions. *)
Definition insertion_order : SetOrder := dedup Key_eqb [].

(** The value of a member of [Token]. *)
Definition Token_index (t : Token) : nat :=
  match t with EPSILON => 0 | ANY => 1 | END => 2 | NOTHING => 3 | EMIT => 4 end.

Definition Key_leb (a b : Key) : bool :=
  match a, b with
  | Tok x, Tok y => Token_index x <=? Token_index y
  | Tok _, Word _ => true
  | Word _, Tok _ => false
  | Word x, Word y => String.leb x y
  end.

Fixpoint insert_key (k : Key) (l : list Key) : list Key :=
  match l with
  | [] => [k]
  | x :: l' => if Key_leb k x then k :: l else x :: insert_key k l'
  end.

(** Another order, which depends on the keys alone: the members of
    [Token] first, then the words in alphabetical order. *)
Definition sorted_order : SetOrder :=
  fun keys => fold_right insert_key [] (dedup Key_eqb [] keys).

(** [ParseError(failures)]: the constructor keeps the last entry of each
    stack, the [Fail] record [annotate] has put there, in a set; a
    failed path is the pair of its stack and that record.  Two records
    are the same when they hold the same tuple, in the same order, and
    the same token. *)
Definition ParseError_init (failures : list (list Entry * Fail)) : exn :=
  ParseError (dedup Fail_eqb [] (map snd failures)).

Module NFA.

(** [NFA()] *)
Definition new : Table := [empty_state].

(** The body of the loop of [_shift_table]: a new [dict], in which the
    key [Token.EMIT] is inserted first. *)
Definition shift_state (shift_by : nat) (state : State) : State :=
  match eps state with
  | Some l => mkState (emit state) (Some (map (fun index => index + shift_by) l)) []
  | None =>
      mkState (emit state) None
        (map (fun item => (fst item, snd item + shift_by)) (edges state))
  end.

Definition _shift_table (self : Table) (shift_by : nat) : Table :=
  map (shift_state shift_by) self.

Definition match_on (value : Key) : Table :=
  [mkState None None [(value, 1)]; empty_state].

Definition star (nfa : Table) : result Table :=
  let shifted := _shift_table nfa 1 in
  shifted <- add_epsilon_last shifted 0 ;;
  shifted <- add_epsilon_last shifted (List.length shifted + 1) ;;
  let new_start := mkState None (Some [1; List.length shifted + 1]) [] in
  let new_end := empty_state in
  Ret (([new_start] ++ shifted) ++ [new_end]).

Definition plus (nfa : Table) : result Table :=
  let table := nfa in
  table <- add_epsilon_last table 0 ;;
  table <- add_epsilon_last table (List.length table) ;;
  Ret (table ++ [empty_state]).

Definition optional (nfa : Table) : result Table :=
  let shifted := _shift_table nfa 1 in
  shifted <- add_epsilon_last shifted (List.length shifted + 1) ;;
  let new_start := mkState None (Some [1; List.length shifted + 1]) [] in
  let new_end := empty_state in
  Ret (([new_start] ++ shifted) ++ [new_end]).

(** [start[Token.EPSILON].append(index)], [start] being [table[0]]. *)
Definition append_start (table : Table) (index : nat) : Table :=
  match table with
  | [] => []
  | start :: rest =>
      mkStateAt (emit start) (Some (eps_list start ++ [index])) (edges start)
                (emit_at start) :: rest
  end.

(** The first loop of [union]; the state is [(table, old_ends)]. *)
Definition union_step (acc : Table * list nat) (nfa : Table) : Table * list nat :=
  let (table, old_ends) := acc in
  let table1 := append_start table (List.length table) in
  let table2 := table1 ++ _shift_table nfa (List.length table1) in
  (table2, old_ends ++ [List.length table2 - 1]).

Definition union (nfas : list Table) : result Table :=
  match nfas with
  | [] => Ret new
  | [nfa] => Ret nfa
  | _ :: _ :: _ =>
      let start := mkState None (Some []) [] in
      let (table, old_ends) := fold_left union_step nfas ([start], []) in
      let new_end := List.length table in
      let table := table ++ [empty_state] in
      foldM (fun table end_ => add_epsilon_at table end_ new_end) old_ends table
  end.

Definition concat (nfas : list Table) : result Table :=
  match nfas with
  | [] => Ret new
  | first :: rest =>
      foldM (fun table nxt_nfa =>
               let nxt_table := _shift_table nxt_nfa (List.length table) in
               table' <- add_epsilon_last table (List.length table) ;;
               Ret (table' ++ nxt_table))
            rest first
  end.

Definition emitter (nfa : Table) (rule : Grammar) : result Table :=
  let table := nfa in
  let emit_state := mkState (Some rule) None [] in
  table <- add_epsilon_last table (List.length table) ;;
  Ret (table ++ [emit_state]).

(** [state_index == len(self._table) - 1] *)
Definition is_last (self : Table) (state_index : nat) : bool :=
  S state_index =? List.length self.

(** The branch of [transition] for a state without epsilon list. *)
Definition consume (self : Table) (state_index : nat) (state : State) (token : Key)
  : list nat :=
  if is_last self state_index then
    if is_END token then [state_index] else []
  else
    match lookup (Tok ANY) (edges state) with
    | Some target =>
        if negb (is_END token) then [target]
        else match lookup token (edges state) with
             | Some target' => [target']
             | None => []
             end
    | None =>
        match lookup token (edges state) with
        | Some target' => [target']
        | None => []
        end
    end.

Fixpoint transition (fuel : nat) (self : Table) (state_index : nat) (token : Key)
  : gen nat :=
  match fuel with
  | 0 => ([], Some RecursionError)
  | S fuel' =>
      match nth_error self state_index with
      | None => ([], Some IndexError)
      | Some state =>
          match eps state with
          | Some nexts =>
              yield_from_all (fun next_state => transition fuel' self next_state token)
                             nexts
          | None => (consume self state_index state token, None)
          end
      end
  end.

Fixpoint trans_emit (fuel : nat) (self : Table) (state_index : nat) (token : Key)
    (emits : list Grammar) : gen (list Grammar * nat) :=
  match fuel with
  | 0 => ([], Some RecursionError)
  | S fuel' =>
      match nth_error self state_index with
      | None => ([], Some IndexError)
      | Some state =>
          let emits :=
            match emit state with
            | Some rule => emits ++ [rule]
            | None => emits
            end in
          match eps state with
          | Some nexts =>
              yield_from_all
                (fun next_state => trans_emit fuel' self next_state token emits) nexts
          | None =>
              (map (fun target => (emits, target))
                   (consume self state_index state token), None)
          end
      end
  end.

(** The branch of [trans_expected] for a state without epsilon list. *)
Definition expect (self : Table) (state_index : nat) (state : State) (token : Key)
  : list Key :=
  if is_last self state_index then
    if negb (is_END token) then [Tok NOTHING] else []
  else if is_END token then state_keys state
  else
    match lookup token (edges state), lookup (Tok ANY) (edges state) with
    | None, None => state_keys state
    | _, _ => []
    end.

Fixpoint trans_expected (fuel : nat) (self : Table) (state_index : nat) (token : Key)
  : gen Key :=
  match fuel with
  | 0 => ([], Some RecursionError)
  | S fuel' =>
      match nth_error self state_index with
      | None => ([], Some IndexError)
      | Some state =>
          match eps state with
          | Some nexts =>
              yield_from_all
                (fun next_state => trans_expected fuel' self next_state token) nexts
          | None => (expect self state_index state token, None)
          end
      end
  end.

(** [tokens + [Token.END]] for a list of words. *)
Definition stream (tokens : list string) : list Key := map Word tokens ++ [Tok END].

(** [next_states.update(gen)] *)
Definition set_update (s : list nat) (items : list nat) : list nat :=
  dedup Nat.eqb s items.

(** The inner loop of [matches]: [for state in states]. *)
Fixpoint matches_states (fuel : nat) (self : Table) (token : Key)
    (states next_states : list nat) : result (list nat) :=
  match states with
  | [] => Ret next_states
  | state :: states' =>
      match transition fuel self state token with
      | (_, Some e) => Raise e
      | (ys, None) => matches_states fuel self token states' (set_update next_states ys)
      end
  end.

(** The outer loop of [matches]: [for token in tokens]. *)
Definition matches_loop (fuel : nat) (self : Table) (tokens : list Key)
    (states : list nat) : result (list nat) :=
  foldM (fun states token => matches_states fuel self token states []) tokens states.

Definition matches (fuel : nat) (self : Table) (tokens : list string) : result bool :=
  states <- matches_loop fuel self (stream tokens) [0] ;;
  Ret (existsb (is_last self) states).

(** A live path of [annotate]: a state and its stack, the two lists
    [states] and [stacks] zipped. *)
Definition path : Type := (nat * list Entry)%type.

(** The body of [for (emits, next_state) in self.trans_emit(...)]. *)
Fixpoint annotate_items (stack : list Entry) (token : Key)
    (items : list (list Grammar * nat)) (next : list path) : result (list path) :=
  match items with
  | [] => Ret next
  | (emits, next_state) :: items' =>
      match emits with
      | [] => annotate_items stack token items'
                             (next ++ [(next_state, stack ++ [Plain token])])
      | [rule] => annotate_items stack token items'
                                 (next ++ [(next_state, reduce_stack stack rule token)])
      | _ :: _ :: _ => Raise (ValueError TooManyValues)
      end
  end.

(** [for (state, stack) in zip(states, stacks)] *)
Fixpoint annotate_paths (fuel : nat) (self : Table) (token : Key)
    (paths next : list path) : result (list path) :=
  match paths with
  | [] => Ret next
  | (state, stack) :: paths' =>
      let (items, ending) := trans_emit fuel self state token [] in
      next' <- annotate_items stack token items next ;;
      match ending with
      | Some e => Raise e
      | None => annotate_paths fuel self token paths' next'
      end
  end.

(** The [failures] of [annotate] when no path survives [token]. *)
Fixpoint collect_failures {order : SetOrder} (fuel : nat) (self : Table) (token : Key)
    (paths : list path) : result (list (list Entry * Fail)) :=
  match paths with
  | [] => Ret []
  | (state, stack) :: paths' =>
      match trans_expected fuel self state token with
      | (_, Some e) => Raise e
      | (ys, None) =>
          let expected := tuple_of_set ys in
          rest <- collect_failures fuel self token paths' ;;
          Ret ((stack, mkFail expected token) :: rest)
      end
  end.

(** One iteration of [for token in tokens] in [annotate]. *)
Definition annotate_step {order : SetOrder}
    (fuel : nat) (self : Table) (paths : list path) (token : Key)
  : result (list path) :=
  next <- annotate_paths fuel self token paths [] ;;
  match next with
  | [] =>
      failures <- collect_failures fuel self token paths ;;
      Raise (ParseError_init failures)
  | _ :: _ => Ret next
  end.

Definition annotate_loop {order : SetOrder}
    (fuel : nat) (self : Table) (tokens : list Key)
    (paths : list path) : result (list path) :=
  foldM (annotate_step fuel self) tokens paths.

Definition annotate {order : SetOrder}
    (fuel : nat) (self : Table) (tokens : list string)
  : result (list (list Entry)) :=
  paths <- annotate_loop fuel self (stream tokens) [(0, [])] ;;
  Ret (map snd paths).

End NFA.

(** ** Compiling a grammar: [to_nfa] *)

Fixpoint to_nfa (self : Grammar) : result Table :=
  match self with
  | Keyword inner => NFA.emitter (NFA.match_on (Word inner)) self
  | Variable_ _ =>
      nfa <- NFA.plus (NFA.match_on (Tok ANY)) ;;
      NFA.emitter nfa self
  | Star inner => nfa <- to_nfa inner ;; NFA.star nfa
  | Plus inner => nfa <- to_nfa inner ;; NFA.plus nfa
  | Optional inner => nfa <- to_nfa inner ;; NFA.optional nfa
  | Group args alts =>
      match args with
      | _ :: _ => nfas <- mapM to_nfa args ;; NFA.concat nfas
      | [] =>
          nfas <- mapM (fun alt => ns <- mapM to_nfa alt ;; NFA.concat ns) alts ;;
          NFA.union nfas
      end
  end.

(** [Grammar.matches] and [Grammar.annotate]: build the automaton, run it. *)
Definition Grammar_matches (fuel : nat) (self : Grammar) (tokens : list string)
  : result bool :=
  nfa <- to_nfa self ;; NFA.matches fuel nfa tokens.

Definition Grammar_annotate {order : SetOrder}
    (fuel : nat) (self : Grammar) (tokens : list string)
  : result (list (list Entry)) :=
  nfa <- to_nfa self ;; NFA.annotate fuel nfa tokens.

(** ** Predicates used in the statements *)

(** The number of tokens of the grammar equal to [tok]. *)
Definition count_token (tok : string) (tokens : list (option string)) : nat :=
  List.length
    (filter (fun t => match t with
                      | Some s => (s =? tok)%string
                      | None => false
                      end) tokens).

(** The reader stops on the token at position [k]: that token is [tok],
    it is not skipped, the tokens before it are read without error, and
    on it the body of the loop raises [e]. *)
Definition stops_at (tokens : list (option string)) (k : nat) (tok : string)
    (e : exn) : Prop :=
  nth_error tokens k = Some (Some tok)
  /\ tok <> EmptyString
  /\ exists stack,
       parse_loop tokens 0 (firstn k tokens) [GroupObj.empty] = Ret stack
       /\ parse_token tokens k tok stack = Raise e.

(** The errors of the methods of an open group carry no index. *)
Definition no_index (m : ValueErrorMsg) : Prop :=
  match m with
  | AlreadyQuantified | ExpectedPredicate | EmptyAlternative | EmptyAlternate
  | EmptyGroup => True
  | _ => False
  end.

(** What the body of the loop raises on one token: the two errors with
    an index, each on its own kind of token, or an error of a method of
    the open group. *)
Definition token_error (tokens : list (option string)) (k : nat) (tok : string)
    (stack : list GroupObj.t) (m : ValueErrorMsg) : Prop :=
  match m with
  | UnmatchedClose index =>
      tok = ")" /\ List.length stack = 1 /\ index = _string_index k tokens
  | UnrecognizedToken token index =>
      token = tok /\ islower tok = false /\ isupper tok = false
      /\ index = _string_index k tokens
  | _ => no_index m
  end.

(** What a [ValueError] of the reader says about the token list
    [tokens] of the grammar.
    - An unmatched [")"]: the reader stops on a [")"] with that error,
      every group opened before it is closed before it, and the index
      is [_string_index] at the position of that token.
    - An unrecognized token: the reader stops on that token with that
      error, the token is neither lowercase nor uppercase, and the
      index is [_string_index] at its position.
    - Unclosed groups: the count is the number of ["("] that no [")"]
      closes, at least one, and the index is [_string_index] at
      position 0, that is 0.
    - The other reader errors have no index; the two remaining messages
      belong to the automaton and never come from the reader. *)
Definition offset_spec (tokens : list (option string)) (m : ValueErrorMsg) : Prop :=
  match m with
  | UnmatchedClose index =>
      exists k, stops_at tokens k ")" (ValueError m)
                /\ count_token "(" (firstn k tokens) = count_token ")" (firstn k tokens)
                /\ index = _string_index k tokens
  | UnrecognizedToken token index =>
      exists k, stops_at tokens k token (ValueError m)
                /\ islower token = false /\ isupper token = false
                /\ index = _string_index k tokens
  | ExpectedClose count index =>
      1 <= count
      /\ count_token "(" tokens = count_token ")" tokens + count
      /\ index = _string_index 0 tokens /\ index = 0
  | AlreadyQuantified | ExpectedPredicate | EmptyAlternative | EmptyAlternate
  | EmptyGroup => error_offset m = None
  | EpsilonOnMatch | TooManyValues => False
  end.

(** Every syntax error of the reader on [grammar] carries an offset. *)
Definition carries_offset (grammar : string) : Prop :=
  forall m, _parse_grammar grammar = Raise (ValueError m) ->
            exists index, error_offset m = Some index.

(** One of the three quantifier tokens. *)
Definition is_quantifier_char (c : ascii) : bool :=
  (c =? "?")%char || (c =? "*")%char || (c =? "+")%char.


(** A stack whose last entry is the end marker. *)
Definition ends_with_END (stack : list Entry) : Prop :=
  exists front, stack = front ++ [Plain (Tok END)].

(** The table of a [Variable]: [match_on(Token.ANY)] under [plus] and
    [emitter]. *)
Definition variable_table (rule : Grammar) : Table :=
  [ mkState None None [(Tok ANY, 1)];
    mkState None (Some [0; 2]) [];
    mkState None (Some [3]) [];
    mkState (Some rule) None [] ].

(** The grammar read from ["take (ITEM)"]. *)
Definition take_item : Grammar :=
  Group [Keyword "take"; Group [Variable_ ["ITEM"]] []] [].


(** The endings of the three recursive generators: they end normally, or
    by an index out of the table, or by exhausting the recursion limit. *)
Definition walk_exn (e : option exn) : Prop :=
  e = None \/ e = Some IndexError \/ e = Some RecursionError.



(** ** Invariants of the tables *)

(** The state [_add_epsilon] leaves behind when it does not raise. *)
Definition add_eps (state : State) (to_index : nat) : State :=
  mkState (emit state) (Some (eps_list state ++ [to_index])) [].

(** [P (off + k) s] holds of the [k]-th state [s] of [t], for every [k]. *)
Definition all_states (P : nat -> State -> Prop) (off : nat) (t : Table) : Prop :=
  forall k s, nth_error t k = Some s -> P (off + k) s.

(** The last state exists and has no outgoing transition of any kind. *)
Definition plain_last (t : Table) : Prop :=
  exists lst, nth_error t (List.length t - 1) = Some lst
              /\ eps lst = None /\ edges lst = [].

(** A state does not carry both a consuming edge and an epsilon list. *)
Definition exclusive (s : State) : Prop := eps s = None \/ edges s = [].

(** The shape every builder leaves: a per-state property [P], which may
    depend on the length of the table, on a marking [d] of its indices
    and on the index of the state, holds of every state for a marking
    that leaves state 0 unmarked; and the last state is plain. *)
Definition frag_ok (P : nat -> (nat -> bool) -> nat -> State -> Prop) (t : Table)
  : Prop :=
  plain_last t
  /\ exists d, d 0 = false /\ all_states (P (List.length t) d) 0 t.

(** The discipline of emitting states in a compiled table.  The marked
    indices are those from which an emitting state may be reached along
    epsilon edges.  Every epsilon successor is in range; the successors
    of an emitting state and of an unmarked state are unmarked; an
    emitting state is marked; no edge is labelled with the end marker. *)
Definition state_ok (n : nat) (d : nat -> bool) (i : nat) (s : State) : Prop :=
  (forall j, In j (eps_list s) ->
             j < n /\ (emit s <> None \/ d i = false -> d j = false))
  /\ (emit s <> None -> d i = true)
  /\ (forall q, ~ In (Tok END, q) (edges s)).

(** The tables the build operations produce, from any arguments for
    which they return.  The value [match_on] is given is a word or a
    token that labels an edge; [EPSILON] and [EMIT] are the keys of the
    two other fields of a state. *)
Inductive Built : Table -> Prop :=
| Built_match_on (value : Key) :
    value <> Tok EPSILON -> value <> Tok EMIT -> Built (NFA.match_on value)
| Built_star (nfa t : Table) :
    Built nfa -> NFA.star nfa = Ret t -> Built t
| Built_plus (nfa t : Table) :
    Built nfa -> NFA.plus nfa = Ret t -> Built t
| Built_optional (nfa t : Table) :
    Built nfa -> NFA.optional nfa = Ret t -> Built t
| Built_union (nfas : list Table) (t : Table) :
    (forall nfa, In nfa nfas -> Built nfa) -> NFA.union nfas = Ret t -> Built t
| Built_concat (nfas : list Table) (t : Table) :
    (forall nfa, In nfa nfas -> Built nfa) -> NFA.concat nfas = Ret t -> Built t
| Built_emitter (nfa t : Table) (rule : Grammar) :
    Built nfa -> NFA.emitter nfa rule = Ret t -> Built t.


(** The invariant of the first loop of [union] on [(table, old_ends)]:
    the table is a start state with unmarked epsilon successors in range,
    followed by states that satisfy [P]; every recorded end is a state
    of the table, other than the start, without consuming edge. *)
Definition union_inv (P : nat -> (nat -> bool) -> nat -> State -> Prop)
    (acc : Table * list nat) : Prop :=
  exists l body d,
    fst acc = mkState None (Some l) [] :: body
    /\ d 0 = false
    /\ (forall j, In j l -> j < List.length (fst acc) /\ d j = false)
    /\ all_states (P (List.length (fst acc)) d) 1 body
    /\ (forall e, In e (snd acc) ->
                  e < List.length (fst acc)
                  /\ exists s, nth_error (fst acc) e = Some s /\ edges s = []).

(** ** Structural induction on grammars *)

Section GrammarInduction.
Variable Q : Grammar -> Prop.
Hypothesis Q_keyword : forall inner, Q (Keyword inner).
Hypothesis Q_variable : forall inner, Q (Variable_ inner).
Hypothesis Q_star : forall inner, Q inner -> Q (Star inner).
Hypothesis Q_plus : forall inner, Q inner -> Q (Plus inner).
Hypothesis Q_optional : forall inner, Q inner -> Q (Optional inner).
Hypothesis Q_group : forall args alts,
  Forall Q args -> Forall (Forall Q) alts -> Q (Group args alts).

(** Structural induction on a grammar, through the lists of a group. *)
Fixpoint Grammar_rect_nested (g : Grammar) : Q g :=
  match g with
  | Keyword inner => Q_keyword inner
  | Variable_ inner => Q_variable inner
  | Star inner => Q_star inner (Grammar_rect_nested inner)
  | Plus inner => Q_plus inner (Grammar_rect_nested inner)
  | Optional inner => Q_optional inner (Grammar_rect_nested inner)
  | Group args alts =>
      Q_group args alts
        ((fix on_list (l : list Grammar) : Forall Q l :=
            match l with
            | [] => Forall_nil Q
            | x :: l' => Forall_cons x (Grammar_rect_nested x) (on_list l')
            end) args)
        ((fix on_alts (ll : list (list Grammar)) : Forall (Forall Q) ll :=
            match ll with
            | [] => Forall_nil (Forall Q)
            | l :: ll' =>
                Forall_cons l
                  ((fix on_list (l : list Grammar) : Forall Q l :=
                      match l with
                      | [] => Forall_nil Q
                      | x :: l' => Forall_cons x (Grammar_rect_nested x) (on_list l')
                      end) l)
                  (on_alts ll')
            end) alts)
  end.
End GrammarInduction.

(** ** The two executors side by side *)

(** The set of states of [matches] and the live paths of [annotate] hold
    the same states. *)
Definition same_states (states : list nat) (paths : list NFA.path) : Prop :=
  forall x, In x states <-> In x (map fst paths).

(** The outcomes of the loop of [matches] and of the loop of [annotate]
    on the same tokens: both go on with the same states; or [annotate]
    has raised [ParseError] and [matches] is left with no state; or both
    raise, [annotate] something other than [ParseError]. *)
Definition agree (rm : result (list nat)) (ra : result (list NFA.path)) : Prop :=
  match rm, ra with
  | Ret states, Ret paths => same_states states paths
  | Ret states, Raise (ParseError _) => states = []
  | Raise _, Raise e => forall fs, e <> ParseError fs
  | _, _ => False
  end.

(** No path of the walk collects more than one rule. *)
Definition emits_ok (self : Table) : Prop :=
  forall fuel state_index token,
    Forall (fun item => List.length (fst item) <= 1)
           (fst (NFA.trans_emit fuel self state_index token [])).

(** On the end marker the walk yields the last index only. *)
Definition END_yields_last (self : Table) : Prop :=
  forall fuel state_index,
    Forall (fun q => NFA.is_last self q = true)
           (fst (NFA.transition fuel self state_index (Tok END))).


(** ** Further notions used in the statements *)

(** The invariant of the loop of [split_args]: inside a quoted span or
    inside a token, [tokens] has a last element to append to. *)
Definition scanner_ok (st : scanner) : Prop :=
  in_quote st <> None \/ in_token st = true -> tokens st <> [].

(** [sep.join(words)] for a one-character separator. *)
Fixpoint join_words (sep : ascii) (words : list string) : string :=
  match words with
  | [] => EmptyString
  | [w] => w
  | w :: words' => (w ++ String sep (join_words sep words'))%string
  end.

(** A token of an unquoted line: not empty, no whitespace, no quote. *)
Definition plain_word (w : string) : Prop :=
  w <> EmptyString /\ string_forallb is_plain w = true.


(** The shape [cleanup] leaves in a group: a plain sequence, or at least
    two alternatives, none of them empty, and no current sequence. *)
Definition group_shape (args : list Grammar) (alts : list (list Grammar)) : Prop :=
  (args <> [] /\ alts = [])
  \/ (args = [] /\ 2 <= List.length alts /\ Forall (fun alt => alt <> []) alts).

(** A grammar as the reader builds it: keywords are lowercase words,
    variables hold one uppercase type name, a quantifier never wraps
    another quantifier, and every group has the shape above. *)
Local Unset Elimination Schemes.
Inductive wf_grammar : Grammar -> Prop :=
| wf_keyword (w : string) : islower w = true -> wf_grammar (Keyword w)
| wf_variable (w : string) : isupper w = true -> wf_grammar (Variable_ [w])
| wf_star (g : Grammar) :
    is_quantified g = false -> wf_grammar g -> wf_grammar (Star g)
| wf_plus (g : Grammar) :
    is_quantified g = false -> wf_grammar g -> wf_grammar (Plus g)
| wf_optional (g : Grammar) :
    is_quantified g = false -> wf_grammar g -> wf_grammar (Optional g)
| wf_group (args : list Grammar) (alts : list (list Grammar)) :
    group_shape args alts ->
    Forall wf_grammar args -> Forall (Forall wf_grammar) alts ->
    wf_grammar (Group args alts).
Local Set Elimination Schemes.

(** A group under construction on the stack of the reader. *)
Definition open_group_ok (g : GroupObj.t) : Prop :=
  Forall wf_grammar (GroupObj.args g)
  /\ Forall (Forall wf_grammar) (GroupObj.alts g)
  /\ Forall (fun alt => alt <> []) (GroupObj.alts g).

(** A character of a word of the grammar: neither special nor whitespace. *)
Definition is_word_char (c : ascii) : bool := negb (is_special c) && negb (is_space c).

(** [ord(c) < 128] *)
Definition is_ascii (c : ascii) : bool := nat_of_ascii c <? 128.

(** The string holds one of the letters a to z, one of the letters A to Z. *)
Definition has_small_letter (s : string) : bool := string_existsb (in_codes 97 122) s.
Definition has_capital_letter (s : string) : bool := string_existsb (in_codes 65 90) s.


(** [NFA._concat_with] *)
Definition _concat_with (self nxt : Table) : result Table :=
  let table := self in
  let nxt_table := NFA._shift_table nxt (List.length table) in
  table <- add_epsilon_last table (List.length table) ;;
  Ret (table ++ nxt_table).

(** The number of states of the table of a grammar. *)
Fixpoint states (g : Grammar) : nat :=
  match g with
  | Keyword _ => 3
  | Variable_ _ => 4
  | Star inner => states inner + 2
  | Plus inner => states inner + 1
  | Optional inner => states inner + 2
  | Group args alts =>
      let sequence := fun (l : list Grammar) =>
        match l with
        | [] => 1
        | _ :: _ => list_sum (map states l)
        end in
      match args with
      | _ :: _ => list_sum (map states args)
      | [] =>
          match alts with
          | [] => 1
          | [alt] => sequence alt
          | _ :: _ :: _ => 2 + list_sum (map sequence alts)
          end
      end
  end.

(** The tokens of a stack in order: a plain token is itself, a [Parsed]
    record stands for the tokens it has claimed. *)
Fixpoint flatten (stack : list Entry) : list Key :=
  match stack with
  | [] => []
  | Plain token :: stack' => token :: flatten stack'
  | Parsed _ claimed :: stack' => map Word claimed ++ flatten stack'
  end.

(** Every index a state refers to is an index of the table. *)
Definition in_range (n : nat) (d : nat -> bool) (i : nat) (s : State) : Prop :=
  (forall j, In j (eps_list s) -> j < n)
  /\ (forall key q, In (key, q) (edges s) -> q < n).


(** The tables of a keyword and of the three quantifiers on a keyword. *)
Definition keyword_table (k : string) : Table :=
  [ mkState None None [(Word k, 1)];
    mkState None (Some [2]) [];
    mkState (Some (Keyword k)) None [] ].

Definition star_keyword_table (k : string) : Table :=
  [ mkState None (Some [1; 4]) [];
    mkState None None [(Word k, 2)];
    mkState None (Some [3]) [];
    mkState (Some (Keyword k)) (Some [0; 4]) [];
    empty_state ].

Definition plus_keyword_table (k : string) : Table :=
  [ mkState None None [(Word k, 1)];
    mkState None (Some [2]) [];
    mkState (Some (Keyword k)) (Some [0; 3]) [];
    empty_state ].

Definition optional_keyword_table (k : string) : Table :=
  [ mkState None (Some [1; 4]) [];
    mkState None None [(Word k, 2)];
    mkState None (Some [3]) [];
    mkState (Some (Keyword k)) (Some [4]) [];
    empty_state ].

(** Every token is the keyword. *)
Definition all_equal (k : string) (tokens : list string) : bool :=
  forallb (fun w => (w =? k)%string) tokens.

(** * Properties *)

(** ** The tokenizer *)

Lemma append_last_snoc (toks : list (list ascii)) (w : list ascii) (c : ascii) :
  append_last (toks ++ [w]) c = Ret (toks ++ [w ++ [c]]).
Proof.
  induction toks as [|t toks IH]; simpl; [reflexivity|].
  rewrite IH. destruct toks; reflexivity.
Qed.

Lemma split_loop_app (s1 s2 : string) : forall st,
  split_loop st (s1 ++ s2)%string = (st' <- split_loop st s1 ;; split_loop st' s2).
Proof.
  induction s1 as [|c s1 IH]; intros st; simpl; [reflexivity|].
  destruct (split_step st c) as [st'|e]; simpl; [apply IH | reflexivity].
Qed.

(** Inside a quoted span every character but the opening quote is kept. *)
Lemma split_loop_quoted (q : ascii) (it : bool) (p : string) :
  forall toks w,
  string_forallb (fun c => negb (c =? q)%char) p = true ->
  split_loop (mkScanner (Some q) it (toks ++ [w])) p
  = Ret (mkScanner (Some q) it (toks ++ [w ++ list_ascii_of_string p])).
Proof.
  induction p as [|c p IH]; intros toks w H; simpl in *.
  - now rewrite app_nil_r.
  - apply andb_prop in H as [Hc Hp].
    unfold split_step; simpl.
    apply negb_true_iff in Hc. rewrite Hc, append_last_snoc. simpl.
    rewrite IH by assumption. now rewrite <- app_assoc.
Qed.

(** Inside an unquoted token every plain character extends the token. *)
Lemma split_loop_word (s : string) :
  forall toks w,
  string_forallb is_plain s = true ->
  split_loop (mkScanner None true (toks ++ [w])) s
  = Ret (mkScanner None true (toks ++ [w ++ list_ascii_of_string s])).
Proof.
  induction s as [|c s IH]; intros toks w H; simpl in *.
  - now rewrite app_nil_r.
  - apply andb_prop in H as [Hc Hs].
    unfold is_plain in Hc. apply andb_prop in Hc as [Hsp Hqu].
    apply negb_true_iff in Hsp, Hqu.
    unfold split_step; simpl. rewrite Hqu, Hsp, append_last_snoc. simpl.
    rewrite IH by assumption. now rewrite <- app_assoc.
Qed.

(** A plain string read from outside any token becomes one new token. *)
Lemma split_loop_new_word (c : ascii) (s : string) (toks : list (list ascii)) :
  string_forallb is_plain (String c s) = true ->
  split_loop (mkScanner None false toks) (String c s)
  = Ret (mkScanner None true (toks ++ [list_ascii_of_string (String c s)])).
Proof.
  intros H. simpl in H. apply andb_prop in H as [Hc Hs].
  pose proof Hc as Hc'. unfold is_plain in Hc'. apply andb_prop in Hc' as [Hsp Hqu].
  apply negb_true_iff in Hsp, Hqu.
  cbn [split_loop]. unfold split_step; simpl. rewrite Hqu, Hsp. simpl.
  now rewrite split_loop_word.
Qed.

(** A quoted span read from outside any token becomes one new token,
    closed or not. *)
Lemma split_loop_open_quote (q : ascii) (p : string) (toks : list (list ascii)) :
  is_quote q = true ->
  string_forallb (fun c => negb (c =? q)%char) p = true ->
  split_loop (mkScanner None false toks) (String q p)
  = Ret (mkScanner (Some q) false (toks ++ [list_ascii_of_string p])).
Proof.
  intros Hq Hp. cbn [split_loop]. unfold split_step; simpl. rewrite Hq. simpl.
  now rewrite split_loop_quoted.
Qed.

Lemma split_step_close (q : ascii) (it : bool) (toks : list (list ascii)) :
  split_step (mkScanner (Some q) it toks) q = Ret (mkScanner None it toks).
Proof. unfold split_step; simpl. now rewrite Ascii.eqb_refl. Qed.

Lemma split_loop_cons (st : scanner) (c : ascii) (s : string) :
  split_loop st (String c s) = (st' <- split_step st c ;; split_loop st' s).
Proof. reflexivity. Qed.

Lemma split_step_space (c : ascii) (it : bool) (toks : list (list ascii)) :
  is_space c = true ->
  split_step (mkScanner None it toks) c = Ret (mkScanner None false toks).
Proof.
  intros Hc. unfold split_step; simpl.
  assert (Hcq : is_quote c = false).
  { unfold is_space, is_quote in *.
    repeat (apply orb_prop in Hc as [Hc|Hc]);
      apply Ascii.eqb_eq in Hc; subst c; reflexivity. }
  now rewrite Hcq, Hc.
Qed.

(** C7.  The tokenizer on the two documented examples, and in general: a
    quoted span without its own quote character, closed or left open at
    the end of the string, is one token equal to the span, whitespace
    included and quotes removed; outside quotes a whitespace character
    separates two tokens. *)
Theorem split_args_respects_quotes (q c : ascii) (p w1 w2 : string)
    (Hq : is_quote q = true)
    (Hp : string_forallb (fun x => negb (x =? q)%char) p = true)
    (Hc : is_space c = true)
    (Hw1 : w1 <> EmptyString) (Hw2 : w2 <> EmptyString)
    (Hp1 : string_forallb is_plain w1 = true)
    (Hp2 : string_forallb is_plain w2 = true) :
  split_args ("equip " ++ String dquote ("epic sword" ++ String dquote EmptyString))
    = Ret ["equip"; "epic sword"]
  /\ split_args ("say " ++ String dquote "oh no...    don't go!")
    = Ret ["say"; "oh no...    don't go!"]
  /\ split_args (String q (p ++ String q EmptyString)) = Ret [p]
  /\ split_args (String q p) = Ret [p]
  /\ split_args (w1 ++ String c w2) = Ret [w1; w2].
Proof.
  split; [reflexivity|]. split; [reflexivity|].
  unfold split_args. repeat split.
  - change (String q (p ++ String q EmptyString))%string
      with (String q p ++ String q EmptyString)%string.
    rewrite split_loop_app, split_loop_open_quote by assumption.
    cbn [bind split_loop]. rewrite split_step_close. simpl.
    now rewrite string_of_list_ascii_of_string.
  - rewrite split_loop_open_quote by assumption. simpl.
    now rewrite string_of_list_ascii_of_string.
  - destruct w1 as [|c1 w1]; [contradiction|].
    destruct w2 as [|c2 w2]; [contradiction|].
    rewrite split_loop_app, split_loop_new_word by assumption.
    cbn [bind]. rewrite split_loop_cons, split_step_space by assumption.
    cbn [bind].
    rewrite split_loop_new_word by assumption. cbn [bind tokens map app].
    now rewrite !string_of_list_ascii_of_string.
Qed.

Lemma split_args_respects_quotes_witness :
  split_args ("equip " ++ String dquote ("epic sword" ++ String dquote EmptyString))
    = Ret ["equip"; "epic sword"]
  /\ split_args ("say " ++ String dquote "oh no...    don't go!")
    = Ret ["say"; "oh no...    don't go!"]
  /\ split_args (String squote ("a  b" ++ String squote EmptyString)) = Ret ["a  b"]
  /\ split_args (String squote "a  b") = Ret ["a  b"]
  /\ split_args ("go" ++ String "009"%char "north") = Ret ["go"; "north"].
Proof.
  apply (split_args_respects_quotes squote "009"%char "a  b" "go" "north");
    try reflexivity; discriminate.
Defined.

(** C10.  Closing a quoted span leaves the scanner outside any token: the
    characters [s] that follow the closing quote, none of them whitespace
    or a quote, form a token of their own after the token [p] of the
    span. *)
Theorem split_args_after_closing_quote (q : ascii) (p s : string)
    (Hq : is_quote q = true)
    (Hp : string_forallb (fun x => negb (x =? q)%char) p = true)
    (Hs : s <> EmptyString)
    (Hplain : string_forallb is_plain s = true) :
  split_args (String q (p ++ String q s)) = Ret [p; s].
Proof.
  unfold split_args.
  change (String q (p ++ String q s))%string with (String q p ++ String q s)%string.
  rewrite split_loop_app, split_loop_open_quote by assumption.
  cbn [bind split_loop]. rewrite split_step_close. cbn [bind].
  destruct s as [|c s]; [contradiction|].
  rewrite split_loop_new_word by assumption. cbn [bind tokens map app].
  now rewrite !string_of_list_ascii_of_string.
Qed.

Lemma split_args_after_closing_quote_witness :
  split_args (String dquote ("ab" ++ String dquote "cd")) = Ret ["ab"; "cd"].
Proof.
  apply (split_args_after_closing_quote dquote "ab" "cd"); try reflexivity; discriminate.
Defined.

(** ** The grammar reader *)

Lemma quantifier_char_cases (c : ascii) :
  is_quantifier_char c = true -> c = "?"%char \/ c = "*"%char \/ c = "+"%char.
Proof.
  unfold is_quantifier_char. intros H.
  repeat (apply orb_prop in H as [H|H]); apply Ascii.eqb_eq in H; auto.
Qed.

Lemma quantify_last_empty (self : GroupObj.t) (Q : Grammar -> Grammar) :
  GroupObj.args self = [] ->
  GroupObj.quantify_last self Q = Raise (ValueError ExpectedPredicate).
Proof. intros H. unfold GroupObj.quantify_last. now rewrite H. Qed.

Lemma quantify_last_twice (self : GroupObj.t) (Q : Grammar -> Grammar)
    (front : list Grammar) (lastg : Grammar) :
  GroupObj.args self = front ++ [lastg] -> is_quantified lastg = true ->
  GroupObj.quantify_last self Q = Raise (ValueError AlreadyQuantified).
Proof.
  intros H Hq. unfold GroupObj.quantify_last.
  rewrite H, rev_unit. now rewrite Hq.
Qed.

(** C6. The reader rejects the malformed grammars: the unclosed group of
    the documented example is reported as one expected closing
    parenthesis, an empty pair of parentheses as an empty group; a
    quantifier token read while the top group has no sibling, or while
    its last sibling is already quantified, raises, and so does an
    alternation token read while the current sequence is empty.  The
    same holds for whole grammar strings that begin that way. *)
Theorem malformed_grammar_rejected
    (tokens : list (option string)) (tok_index : nat)
    (top : GroupObj.t) (below : list GroupObj.t)
    (front : list Grammar) (lastg : Grammar)
    (q q' : ascii) (rest : string)
    (Hq : is_quantifier_char q = true) (Hq' : is_quantifier_char q' = true) :
  _parse_grammar "take (ITEM" = Raise (ValueError (ExpectedClose 1 0))
  /\ _parse_grammar "()" = Raise (ValueError EmptyGroup)
  /\ (GroupObj.args top = [] ->
      parse_token tokens tok_index (String q EmptyString) (top :: below)
      = Raise (ValueError ExpectedPredicate))
  /\ (GroupObj.args top = front ++ [lastg] -> is_quantified lastg = true ->
      parse_token tokens tok_index (String q EmptyString) (top :: below)
      = Raise (ValueError AlreadyQuantified))
  /\ (GroupObj.args top = [] ->
      parse_token tokens tok_index "|" (top :: below)
      = Raise (ValueError EmptyAlternative))
  /\ _parse_grammar (String q rest) = Raise (ValueError ExpectedPredicate)
  /\ _parse_grammar ("a" ++ String q (String q' rest))
     = Raise (ValueError AlreadyQuantified)
  /\ _parse_grammar ("|" ++ rest) = Raise (ValueError EmptyAlternative)
  /\ _parse_grammar ("(" ++ String q rest) = Raise (ValueError ExpectedPredicate)
  /\ _parse_grammar ("(|" ++ rest) = Raise (ValueError EmptyAlternative).
Proof.
  apply quantifier_char_cases in Hq, Hq'.
  split; [reflexivity|]. split; [reflexivity|].
  split; [|split; [|split]].
  - intros Ha. destruct Hq as [-> | [-> | ->]]; unfold parse_token; simpl;
      now rewrite quantify_last_empty.
  - intros Ha Hl. destruct Hq as [-> | [-> | ->]]; unfold parse_token; simpl;
      now rewrite (quantify_last_twice _ _ front lastg).
  - intros Ha. unfold parse_token; simpl. unfold GroupObj.add_alternative.
    now rewrite Ha.
  - destruct Hq as [-> | [-> | ->]]; destruct Hq' as [-> | [-> | ->]];
      repeat (split; [reflexivity|]); reflexivity.
Qed.

Lemma malformed_grammar_rejected_witness :
  _parse_grammar "take (ITEM" = Raise (ValueError (ExpectedClose 1 0))
  /\ _parse_grammar "()" = Raise (ValueError EmptyGroup)
  /\ _parse_grammar "?" = Raise (ValueError ExpectedPredicate)
  /\ _parse_grammar "a*+" = Raise (ValueError AlreadyQuantified).
Proof.
  pose proof (malformed_grammar_rejected [] 0 GroupObj.empty [] [] (Keyword "a")
                "?"%char "?"%char EmptyString eq_refl eq_refl) as H.
  pose proof (malformed_grammar_rejected [] 0 GroupObj.empty [] [] (Keyword "a")
                "*"%char "+"%char EmptyString eq_refl eq_refl) as H'.
  destruct H as (H1 & H2 & _ & _ & _ & H6 & _).
  destruct H' as (_ & _ & _ & _ & _ & _ & H7 & _).
  exact (conj H1 (conj H2 (conj H6 H7))).
Defined.

Ltac raise_cases H :=
  repeat (cbn [bind] in H;
          match type of H with
          | bind ?x _ = _ => let E := fresh "E" in destruct x eqn:E
          | (match ?x with _ => _ end) = _ => let E := fresh "E" in destruct x eqn:E
          | (if ?x then _ else _) = _ => let E := fresh "E" in destruct x eqn:E
          | Ret _ = Raise _ => discriminate H
          | Raise IndexError = Raise (ValueError _) => discriminate H
          end).

Lemma cleanup_offset (tokens : list (option string)) (g : GroupObj.t) (m : ValueErrorMsg) :
  GroupObj.cleanup g = Raise (ValueError m) -> offset_spec tokens m.
Proof.
  unfold GroupObj.cleanup. intros H. raise_cases H;
    inversion H; subst; simpl; reflexivity.
Qed.

Lemma no_index_offset (tokens : list (option string)) (m : ValueErrorMsg) :
  no_index m -> offset_spec tokens m.
Proof. destruct m; simpl; intros H; try contradiction; reflexivity. Qed.

Lemma cleanup_no_index (g : GroupObj.t) (m : ValueErrorMsg) :
  GroupObj.cleanup g = Raise (ValueError m) -> no_index m.
Proof.
  unfold GroupObj.cleanup. intros H. raise_cases H; inversion H; subst; exact I.
Qed.

Lemma quantify_last_no_index (g : GroupObj.t) (Q : Grammar -> Grammar)
    (m : ValueErrorMsg) :
  GroupObj.quantify_last g Q = Raise (ValueError m) -> no_index m.
Proof.
  unfold GroupObj.quantify_last. intros H. raise_cases H; inversion H; subst; exact I.
Qed.

Lemma add_alternative_no_index (g : GroupObj.t) (m : ValueErrorMsg) :
  GroupObj.add_alternative g = Raise (ValueError m) -> no_index m.
Proof.
  unfold GroupObj.add_alternative. intros H. raise_cases H; inversion H; subst; exact I.
Qed.

Lemma no_index_token_error (tokens : list (option string)) (k : nat) (tok : string)
    (stack : list GroupObj.t) (m : ValueErrorMsg) :
  no_index m -> token_error tokens k tok stack m.
Proof. destruct m; simpl; intros H; try contradiction; exact I. Qed.

Lemma parse_token_raise (tokens : list (option string)) (k : nat) (tok : string)
    (stack : list GroupObj.t) (m : ValueErrorMsg) :
  parse_token tokens k tok stack = Raise (ValueError m) ->
  token_error tokens k tok stack m.
Proof.
  intros H. unfold parse_token in H.
  destruct (islower tok) eqn:El; [raise_cases H|].
  destruct (isupper tok) eqn:Eu; [raise_cases H|].
  destruct (tok =? "(")%string; [discriminate|].
  destruct (tok =? ")")%string eqn:Eclose.
  { apply String.eqb_eq in Eclose. subst tok.
    destruct stack as [|fin below]; [discriminate|].
    destruct (GroupObj.cleanup fin) eqn:Ec; cbn [bind] in H.
    - destruct below; [|discriminate]. inversion H; subst. simpl. auto.
    - injection H as H; subst. apply no_index_token_error.
      now apply cleanup_no_index with (g := fin). }
  destruct (tok =? "|")%string.
  { destruct stack as [|top below]; [discriminate|].
    destruct (GroupObj.add_alternative top) eqn:Ea; [discriminate|].
    injection H as H; subst. apply no_index_token_error.
    now apply add_alternative_no_index with (g := top). }
  destruct (tok =? "*")%string.
  { destruct stack as [|top below]; [discriminate|].
    destruct (GroupObj.quantify_last top Star) eqn:Eq; [discriminate|].
    injection H as H; subst. apply no_index_token_error.
    now apply quantify_last_no_index with (g := top) (Q := Star). }
  destruct (tok =? "+")%string.
  { destruct stack as [|top below]; [discriminate|].
    destruct (GroupObj.quantify_last top Plus) eqn:Eq; [discriminate|].
    injection H as H; subst. apply no_index_token_error.
    now apply quantify_last_no_index with (g := top) (Q := Plus). }
  destruct (tok =? "?")%string.
  { destruct stack as [|top below]; [discriminate|].
    destruct (GroupObj.quantify_last top Optional) eqn:Eq; [discriminate|].
    injection H as H; subst. apply no_index_token_error.
    now apply quantify_last_no_index with (g := top) (Q := Optional). }
  inversion H; subst. simpl. auto.
Qed.

Lemma count_token_cons (tok : string) (t : option string)
    (tokens : list (option string)) :
  count_token tok (t :: tokens)
  = match t with
    | Some s => if (s =? tok)%string then 1 else 0
    | None => 0
    end + count_token tok tokens.
Proof.
  unfold count_token. simpl. destruct t as [s|]; [|reflexivity].
  now destruct (s =? tok)%string.
Qed.

(** Reading one token opens a group on ["("], closes one on [")"] and
    keeps the number of open groups otherwise. *)
Lemma parse_token_length (tokens : list (option string)) (k : nat) (tok : string)
    (stack stack' : list GroupObj.t) :
  parse_token tokens k tok stack = Ret stack' ->
  List.length stack' + (if (tok =? ")")%string then 1 else 0)
  = List.length stack + (if (tok =? "(")%string then 1 else 0).
Proof.
  intros H.
  destruct (tok =? "(")%string eqn:Eopen.
  { apply String.eqb_eq in Eopen. subst tok. cbv in H. injection H as <-.
    simpl. lia. }
  destruct (tok =? ")")%string eqn:Eclose.
  { apply String.eqb_eq in Eclose. subst tok.
    change (parse_token tokens k ")" stack)
      with (match stack with
            | [] => Raise IndexError
            | finished_group :: below =>
                finished <- GroupObj.cleanup finished_group ;;
                match below with
                | top :: below' =>
                    Ret (GroupObj.add top (GroupObj.to_grammar finished) :: below')
                | [] =>
                    Raise (ValueError (UnmatchedClose (_string_index k tokens)))
                end
            end) in H.
    destruct stack as [|fin [|top below]]; [discriminate| |];
      destruct (GroupObj.cleanup fin); cbn [bind] in H; try discriminate.
    injection H as <-. simpl. lia. }
  unfold parse_token in H. rewrite Eopen, Eclose in H.
  assert (Htop : forall f : GroupObj.t -> result GroupObj.t,
            match stack with
            | [] => Raise IndexError
            | top :: below => top' <- f top ;; Ret (top' :: below)
            end = Ret stack' -> List.length stack' = List.length stack).
  { intros f Hf. destruct stack as [|top below]; [discriminate|].
    destruct (f top); cbn [bind] in Hf; [|discriminate]. now injection Hf as <-. }
  destruct (islower tok); [apply Htop in H; lia|].
  destruct (isupper tok); [apply Htop in H; lia|].
  destruct (tok =? "|")%string; [apply Htop in H; lia|].
  destruct (tok =? "*")%string; [apply Htop in H; lia|].
  destruct (tok =? "+")%string; [apply Htop in H; lia|].
  destruct (tok =? "?")%string; [apply Htop in H; lia|].
  discriminate.
Qed.

Lemma parse_loop_length (tokens : list (option string)) :
  forall todo i stack stack',
  parse_loop tokens i todo stack = Ret stack' ->
  List.length stack' + count_token ")" todo
  = List.length stack + count_token "(" todo.
Proof.
  induction todo as [|token todo IH]; intros i stack stack' H.
  - injection H as <-. reflexivity.
  - rewrite !count_token_cons. cbn [parse_loop] in H.
    destruct token as [[|c tok]|]; try (apply IH in H; simpl; lia).
    destruct (parse_token tokens i (String c tok) stack) as [stack1|e] eqn:Et;
      cbn [bind] in H; [|discriminate].
    apply IH in H. apply parse_token_length in Et. lia.
Qed.

(** A run of the loop that raises has read some tokens without error and
    raises on the next one it does not skip. *)
Lemma parse_loop_raise (tokens : list (option string)) (e : exn) :
  forall todo i stack,
  parse_loop tokens i todo stack = Raise e ->
  exists pre tok post stack',
    todo = pre ++ Some tok :: post
    /\ tok <> EmptyString
    /\ parse_loop tokens i pre stack = Ret stack'
    /\ parse_token tokens (i + List.length pre) tok stack' = Raise e.
Proof.
  induction todo as [|token todo IH]; intros i stack H; [discriminate|].
  cbn [parse_loop] in H.
  assert (Hskip : forall t, parse_loop tokens (S i) todo stack = Raise e ->
            (forall st, parse_loop tokens i [t] st = Ret st) ->
            exists pre tok post stack',
              t :: todo = pre ++ Some tok :: post
              /\ tok <> EmptyString
              /\ parse_loop tokens i pre stack = Ret stack'
              /\ parse_token tokens (i + List.length pre) tok stack' = Raise e).
  { intros t Ht Hone. apply IH in Ht as (pre & tok & post & stack' & -> & Hne & Hp & Hr).
    exists (t :: pre), tok, post, stack'. split; [reflexivity|]. split; [assumption|].
    split.
    - cbn [parse_loop]. specialize (Hone stack). cbn [parse_loop] in Hone.
      destruct t as [[|c t]|]; try assumption.
      destruct (parse_token tokens i (String c t) stack); cbn [bind] in *;
        [|discriminate]. now injection Hone as ->.
    - cbn [List.length].
      now replace (i + S (List.length pre)) with (S i + List.length pre) by lia. }
  destruct token as [[|c tok]|].
  - apply Hskip; [assumption | reflexivity].
  - destruct (parse_token tokens i (String c tok) stack) as [stack1|e1] eqn:Et;
      cbn [bind] in H.
    + apply IH in H as (pre & tok' & post & stack' & -> & Hne & Hp & Hr).
      exists (Some (String c tok) :: pre), tok', post, stack'.
      split; [reflexivity|]. split; [assumption|]. split.
      * cbn [parse_loop]. rewrite Et. cbn [bind]. assumption.
      * cbn [List.length].
        now replace (i + S (List.length pre)) with (S i + List.length pre) by lia.
    + injection H as <-. exists [], (String c tok), todo, stack.
      split; [reflexivity|]. split; [discriminate|]. split; [reflexivity|].
      cbn [List.length]. now rewrite Nat.add_0_r.
  - apply Hskip; [assumption | reflexivity].
Qed.

Lemma parse_loop_app (tokens : list (option string)) (l1 l2 : list (option string)) :
  forall i stack,
  parse_loop tokens i (l1 ++ l2) stack
  = (stack' <- parse_loop tokens i l1 stack ;;
     parse_loop tokens (i + List.length l1) l2 stack').
Proof.
  induction l1 as [|t l1 IH]; intros i stack.
  - cbn [app parse_loop bind List.length]. now rewrite Nat.add_0_r.
  - cbn [app parse_loop List.length].
    replace (i + S (List.length l1)) with (S i + List.length l1) by lia.
    destruct t as [[|c t]|]; try apply IH.
    destruct (parse_token tokens i (String c t) stack); cbn [bind];
      [apply IH | reflexivity].
Qed.

Lemma firstn_nth_error_split {A : Type} (l : list A) (k : nat) (x : A) :
  nth_error l k = Some x ->
  l = firstn k l ++ x :: skipn (S k) l /\ List.length (firstn k l) = k.
Proof.
  revert k. induction l as [|y l IH]; intros [|k] H; simpl in H; try discriminate.
  - injection H as ->. split; reflexivity.
  - destruct (IH k H) as [H1 H2]. split; simpl; [f_equal; exact H1 | now rewrite H2].
Qed.

(** The position at which the reader stops is determined. *)
Lemma stops_at_unique (tokens : list (option string)) (k k' : nat)
    (tok tok' : string) (e e' : exn) :
  stops_at tokens k tok e -> stops_at tokens k' tok' e' -> k = k'.
Proof.
  assert (Hlt : forall k k' tok tok' e e',
            stops_at tokens k tok e -> stops_at tokens k' tok' e' -> ~ k < k').
  { clear. intros k k' tok tok' e e' (Hn & Hne & stack & Hp & Hr)
             (Hn' & _ & stack' & Hp' & _) Hlt.
    destruct (firstn_nth_error_split tokens k (Some tok) Hn) as [Hsplit Hlen].
    assert (Hf : firstn k' tokens
                 = firstn k tokens ++ Some tok :: firstn (k' - S k) (skipn (S k) tokens)).
    { rewrite Hsplit at 1. rewrite firstn_app, Hlen.
      rewrite firstn_firstn. replace (Nat.min k' k) with k by lia.
      replace (k' - k) with (S (k' - S k)) by lia. reflexivity. }
    rewrite Hf, parse_loop_app, Hp in Hp'. cbn [bind] in Hp'.
    rewrite Hlen in Hp'. cbn [parse_loop Nat.add] in Hp'.
    destruct tok as [|c tok]; [now contradiction Hne|].
    rewrite Hr in Hp'. discriminate Hp'. }
  intros H H'. pose proof (Hlt _ _ _ _ _ _ H H'). pose proof (Hlt _ _ _ _ _ _ H' H).
  lia.
Qed.

(** C3 (as amended).  A syntax error of the reader carries an index only
    when it reports an unmatched closing parenthesis, an unrecognized
    token or unclosed groups.  For the first two the reader has read the
    tokens before the offending one without error and stops on it: an
    unmatched [")"] comes when every group opened before is closed, an
    unrecognized token is neither lowercase nor uppercase, and the index
    is [_string_index] at the position of that token.  For unclosed
    groups the count is the number of ["("] left without a [")"] and
    the index is [_string_index] at position 0, that is 0.  The
    empty-group, empty-alternative and quantifier errors carry a message
    and no offset. *)
Theorem reader_error_offset (grammar : string) (m : ValueErrorMsg)
    (H : _parse_grammar grammar = Raise (ValueError m)) :
  offset_spec (re_split [] grammar) m.
Proof.
  unfold _parse_grammar in H.
  set (tokens := re_split [] grammar) in *.
  destruct (parse_loop tokens 0 tokens [GroupObj.empty]) as [stack|e] eqn:El;
    cbn [bind] in H.
  - destruct stack as [|root [|g stack]]; [discriminate| |].
    + destruct (GroupObj.cleanup root) eqn:Ec; [discriminate|].
      injection H as H; subst. now apply cleanup_offset with (g := root).
    + inversion H; subst. apply parse_loop_length in El.
      cbn [List.length] in *. simpl. repeat split; lia.
  - injection H as H; subst.
    apply parse_loop_raise in El as (pre & tok & post & stack & Htok & Hne & Hp & Hr).
    cbn [Nat.add] in Hr.
    assert (Hn : nth_error tokens (List.length pre) = Some (Some tok)).
    { rewrite Htok, nth_error_app2, Nat.sub_diag by lia. reflexivity. }
    assert (Hf : firstn (List.length pre) tokens = pre).
    { rewrite Htok, firstn_app, Nat.sub_diag, firstn_all. cbn [firstn].
      apply app_nil_r. }
    assert (Hstop : stops_at tokens (List.length pre) tok (ValueError m)).
    { split; [assumption|]. split; [assumption|]. exists stack.
      rewrite Hf. split; assumption. }
    pose proof (parse_token_raise _ _ _ _ _ Hr) as Hk.
    destruct m; simpl in Hk; try contradiction;
      try (apply no_index_offset; exact I).
    + destruct Hk as (-> & Hlen & ->). exists (List.length pre).
      split; [assumption|]. split; [|reflexivity].
      rewrite Hf. apply parse_loop_length in Hp. cbn [List.length] in Hp. lia.
    + destruct Hk as (-> & Hl & Hu & ->). exists (List.length pre).
      repeat (split; [assumption|]). reflexivity.
Qed.

Lemma reader_error_offset_witness :
  offset_spec (re_split [] "ab cd Ef") (UnrecognizedToken "Ef" 2).
Proof. apply (reader_error_offset "ab cd Ef"). reflexivity. Defined.

(** C3, as stated, fails: the empty-group error raised for a pair of
    parentheses with nothing inside has no offset. *)
Lemma empty_group_error_without_offset : ~ carries_offset "()".
Proof.
  intros H. destruct (H EmptyGroup eq_refl) as [index Hi]. discriminate Hi.
Qed.

(** The reader stops on the second closing parenthesis of the grammar
    below, the one that closes nothing, and reports the index 1: the
    length of the empty text before it plus that of the first closing
    parenthesis.  No other index fits the statement. *)
Example unmatched_close_index :
  _parse_grammar "(a))" = Raise (ValueError (UnmatchedClose 1))
  /\ ~ offset_spec (re_split [] "(a))") (UnmatchedClose 2).
Proof.
  split; [reflexivity|]. intros (k & Hstop & _ & Hindex).
  assert (Hfive : stops_at (re_split [] "(a))") 5 ")" (ValueError (UnmatchedClose 1))).
  { split; [reflexivity|]. split; [discriminate|]. eexists. split; reflexivity. }
  rewrite (stops_at_unique _ _ _ _ _ _ _ Hstop Hfive) in Hindex. discriminate Hindex.
Qed.

(** A letter with a diacritic is cased: the word made of the character
    of code 233 is read as a keyword. *)
Example accented_letter_is_lowercase :
  from_string (String "233" EmptyString)
  = Ret (Group [Keyword (String "233" EmptyString)] []).
Proof. reflexivity. Qed.

(** [_string_index] adds only the lengths of the last two tokens before
    the position, and a whitespace separator counts for nothing: the
    token ["Ef"] starts at offset 6 and is reported at 2; the end of an
    unclosed grammar is always reported at 0. *)
Example string_index_not_cumulative :
  _parse_grammar "ab cd Ef" = Raise (ValueError (UnrecognizedToken "Ef" 2))
  /\ _string_index 4 (re_split [] "ab cd Ef") = 2
  /\ _parse_grammar "take (ITEM" = Raise (ValueError (ExpectedClose 1 0)).
Proof. repeat split. Qed.

(** ** The executor on the documented grammar and on a variable *)

Lemma foldM_app {A B : Type} (f : A -> B -> result A) (l1 l2 : list B) : forall a,
  foldM f (l1 ++ l2) a = (a' <- foldM f l1 a ;; foldM f l2 a').
Proof.
  induction l1 as [|x l1 IH]; intros a; simpl; [reflexivity|].
  destruct (f a x); simpl; [apply IH | reflexivity].
Qed.

(** C8.  The grammar read from the documented string accepts the verb
    followed by one word, rejects the verb alone, and annotates the verb
    followed by one word with exactly one interpretation, in which the
    variable claims that word. *)
Theorem take_item_example {order : SetOrder} (fuel : nat) (Hfuel : 3 <= fuel) :
  from_string "take (ITEM)" = Ret take_item
  /\ Grammar_matches fuel take_item ["take"; "sword"] = Ret true
  /\ Grammar_matches fuel take_item ["take"] = Ret false
  /\ Grammar_annotate fuel take_item ["take"; "sword"]
     = Ret [[Parsed (Keyword "take") ["take"];
             Parsed (Variable_ ["ITEM"]) ["sword"];
             Plain (Tok END)]].
Proof.
  destruct fuel as [|[|[|fuel]]]; try lia.
  split; [reflexivity|]. split; [reflexivity|]. split; reflexivity.
Qed.

Lemma take_item_example_witness :
  from_string "take (ITEM)" = Ret take_item
  /\ Grammar_matches 1000 take_item ["take"; "sword"] = Ret true
  /\ Grammar_matches 1000 take_item ["take"] = Ret false
  /\ Grammar_annotate (order := insertion_order) 1000 take_item ["take"; "sword"]
     = Ret [[Parsed (Keyword "take") ["take"];
             Parsed (Variable_ ["ITEM"]) ["sword"];
             Plain (Tok END)]].
Proof. apply (take_item_example (order := insertion_order) 1000). lia. Defined.

Lemma variable_table_loop (rule : Grammar) (fuel : nat) (ws : list string) :
  NFA.matches_loop (S (S (S fuel))) (variable_table rule) (NFA.stream ws) [1]
  = Ret [3].
Proof.
  unfold NFA.stream, NFA.matches_loop.
  induction ws as [|w ws IH]; [reflexivity|].
  cbn [map app foldM].
  change (NFA.matches_states (S (S (S fuel))) (variable_table rule) (Word w) [1] [])
    with (Ret (A := list nat) [1]).
  cbn [bind]. exact IH.
Qed.

Lemma take_item_loop (fuel : nat) (t : Table) (ws : list string) :
  to_nfa take_item = Ret t ->
  NFA.matches_loop (S (S (S fuel))) t (NFA.stream ws) [4] = Ret [6].
Proof.
  intros Ht. injection Ht as <-.
  unfold NFA.stream, NFA.matches_loop.
  induction ws as [|w ws IH]; [reflexivity|].
  cbn [map app foldM].
  match goal with
  | |- bind ?step _ = _ => change step with (Ret (A := list nat) [4])
  end.
  cbn [bind]. exact IH.
Qed.

(** C2 (as amended).  A variable compiles to the four-state fragment of
    [match_on(Token.ANY)] under [plus] and [emitter]; it accepts every
    sequence of one or more tokens and rejects the empty one, and the
    documented grammar accepts its verb followed by any number of words,
    one at least. *)
Theorem variable_claims_one_or_more (types : list string) (fuel : nat)
    (tokens : list string) (w : string) (Hfuel : 3 <= fuel) :
  to_nfa (Variable_ types) = Ret (variable_table (Variable_ types))
  /\ Grammar_matches fuel (Variable_ types) tokens
     = Ret (match tokens with [] => false | _ :: _ => true end)
  /\ Grammar_matches fuel take_item ("take" :: w :: tokens) = Ret true.
Proof.
  destruct fuel as [|[|[|fuel]]]; try lia.
  split; [reflexivity|]. split.
  - unfold Grammar_matches.
    change (to_nfa (Variable_ types)) with (Ret (variable_table (Variable_ types))).
    cbn [bind]. unfold NFA.matches.
    destruct tokens as [|w0 ws]; [reflexivity|].
    change (NFA.stream (w0 :: ws)) with (Word w0 :: NFA.stream ws).
    unfold NFA.matches_loop. cbn [foldM].
    change (NFA.matches_states (S (S (S fuel))) (variable_table (Variable_ types))
              (Word w0) [0] [])
      with (Ret (A := list nat) [1]).
    cbn [bind]. fold (NFA.matches_loop (S (S (S fuel)))
                        (variable_table (Variable_ types)) (NFA.stream ws) [1]).
    now rewrite variable_table_loop.
  - unfold Grammar_matches.
    destruct (to_nfa take_item) as [t|e] eqn:Et; [|discriminate Et].
    cbn [bind]. unfold NFA.matches.
    change (NFA.stream ("take" :: w :: tokens))
      with (Word "take" :: Word w :: NFA.stream tokens).
    unfold NFA.matches_loop. cbn [foldM].
    fold (NFA.matches_loop (S (S (S fuel))) t).
    pose proof (take_item_loop fuel t tokens Et) as Hloop.
    injection Et as <-.
    match goal with
    | |- context [bind ?step _] =>
        change step with (Ret (A := list nat) [1])
    end.
    cbn [bind].
    match goal with
    | |- context [bind ?step _] =>
        change step with (Ret (A := list nat) [4])
    end.
    cbn [bind]. unfold NFA.matches_loop in Hloop. rewrite Hloop. reflexivity.
Qed.

Lemma variable_claims_one_or_more_witness :
  Grammar_matches 1000 take_item ["take"; "epic"; "sword"] = Ret true.
Proof. apply (variable_claims_one_or_more ["ITEM"] 1000 ["sword"] "epic"). lia. Defined.

(** C2, as stated, fails: the fragment of a variable has four states, not
    two, and the documented grammar accepts two words in the position of
    its variable. *)
Lemma variable_claims_two_tokens :
  (exists t, to_nfa (Variable_ ["ITEM"]) = Ret t /\ List.length t = 4)
  /\ Grammar_matches 1000 take_item ["take"; "epic"; "sword"] = Ret true
  /\ Grammar_matches 1000 (Variable_ ["ITEM"]) ["epic"; "sword"] = Ret true.
Proof.
  split; [eexists; split; reflexivity|].
  split; [vm_compute; reflexivity | vm_compute; reflexivity].
Qed.

(** ** Equality tests and sets *)

Lemma Token_eqb_eq (a b : Token) : Token_eqb a b = true <-> a = b.
Proof. destruct a, b; simpl; split; congruence. Qed.

Lemma Key_eqb_eq (a b : Key) : Key_eqb a b = true <-> a = b.
Proof.
  destruct a as [x|x], b as [y|y]; simpl.
  - rewrite String.eqb_eq. split; congruence.
  - split; congruence.
  - split; congruence.
  - rewrite Token_eqb_eq. split; congruence.
Qed.



Section Dedup.
Context {A : Type} (eqb : A -> A -> bool).
Hypothesis Heqb : forall x y, eqb x y = true <-> x = y.

Lemma existsb_eqb_In (x : A) (l : list A) : existsb (eqb x) l = true <-> In x l.
Proof.
  rewrite existsb_exists. split.
  - intros (y & Hy & E). apply Heqb in E. now subst.
  - intros H. exists x. split; [assumption | now apply Heqb].
Qed.

Lemma dedup_In (x : A) (l : list A) : forall seen,
  In x (dedup eqb seen l) <-> In x seen \/ In x l.
Proof.
  induction l as [|y l IH]; intros seen; simpl; [tauto|].
  rewrite IH. destruct (existsb (eqb y) seen) eqn:E.
  - apply existsb_eqb_In in E. split; [tauto|]. intros [H|[<-|H]]; auto.
  - rewrite in_app_iff. simpl. tauto.
Qed.

Lemma dedup_NoDup (l : list A) : forall seen, NoDup seen -> NoDup (dedup eqb seen l).
Proof.
  induction l as [|y l IH]; intros seen H; simpl; [assumption|].
  apply IH. destruct (existsb (eqb y) seen) eqn:E; [assumption|].
  apply NoDup_app; [assumption | repeat constructor; intros [] |].
  intros z Hz [<-|[]].
  apply existsb_eqb_In in Hz. congruence.
Qed.
End Dedup.

(** ** The three generators walk the same epsilon paths *)

Section YieldFromFacts.
Context {A B : Type}.

Lemma yield_from_all_map (h : A -> B) (f : nat -> gen A) (g : nat -> gen B)
    (l : list nat) :
  (forall n, In n l -> g n = (map h (fst (f n)), snd (f n))) ->
  yield_from_all g l
  = (map h (fst (yield_from_all f l)), snd (yield_from_all f l)).
Proof.
  induction l as [|n l IH]; intros H; simpl; [reflexivity|].
  rewrite (H n) by now left.
  destruct (f n) as [ys [e|]]; simpl; [reflexivity|].
  rewrite IH by (intros; apply H; now right).
  destruct (yield_from_all f l) as [zs r]; simpl. now rewrite map_app.
Qed.

Lemma yield_from_all_ending (f : nat -> gen A) (g : nat -> gen B) (l : list nat) :
  (forall n, In n l -> snd (g n) = snd (f n)) ->
  snd (yield_from_all g l) = snd (yield_from_all f l).
Proof.
  induction l as [|n l IH]; intros H; simpl; [reflexivity|].
  pose proof (H n (or_introl eq_refl)) as Hn.
  destruct (g n) as [ys e], (f n) as [ys' e']; simpl in Hn; subst e'.
  destruct e; simpl; [reflexivity|].
  specialize (IH (fun m Hm => H m (or_intror Hm))).
  destruct (yield_from_all g l), (yield_from_all f l); simpl in *. assumption.
Qed.

Lemma yield_from_all_kind (f : nat -> gen A) (l : list nat) :
  (forall n, In n l -> walk_exn (snd (f n))) ->
  walk_exn (snd (yield_from_all f l)).
Proof.
  induction l as [|n l IH]; intros H; simpl; [now left|].
  pose proof (H n (or_introl eq_refl)) as Hn.
  destruct (f n) as [ys [e|]]; simpl in *; [assumption|].
  specialize (IH (fun m Hm => H m (or_intror Hm))).
  destruct (yield_from_all f l); simpl in *. assumption.
Qed.

Lemma yield_from_all_Forall (P : A -> Prop) (f : nat -> gen A) (l : list nat) :
  (forall n, In n l -> Forall P (fst (f n))) ->
  Forall P (fst (yield_from_all f l)).
Proof.
  induction l as [|n l IH]; intros H; simpl; [constructor|].
  pose proof (H n (or_introl eq_refl)) as Hn.
  destruct (f n) as [ys [e|]]; simpl in *; [assumption|].
  specialize (IH (fun m Hm => H m (or_intror Hm))).
  destruct (yield_from_all f l); simpl in *. apply Forall_app. now split.
Qed.
End YieldFromFacts.

Lemma trans_emit_transition (self : Table) (token : Key) (fuel : nat) :
  forall state_index emits,
  NFA.transition fuel self state_index token
  = (map snd (fst (NFA.trans_emit fuel self state_index token emits)),
     snd (NFA.trans_emit fuel self state_index token emits)).
Proof.
  induction fuel as [|fuel IH]; intros i emits; simpl; [reflexivity|].
  destruct (nth_error self i) as [state|]; [|reflexivity].
  destruct (eps state) as [nexts|].
  - apply yield_from_all_map. intros n _. apply IH.
  - simpl. rewrite map_map. simpl. now rewrite map_id.
Qed.

Lemma trans_expected_ending (self : Table) (token : Key) (fuel : nat) :
  forall state_index,
  snd (NFA.trans_expected fuel self state_index token)
  = snd (NFA.transition fuel self state_index token).
Proof.
  induction fuel as [|fuel IH]; intros i; simpl; [reflexivity|].
  destruct (nth_error self i) as [state|]; [|reflexivity].
  destruct (eps state) as [nexts|]; [|reflexivity].
  apply yield_from_all_ending. intros n _. apply IH.
Qed.

Lemma transition_kind (self : Table) (token : Key) (fuel : nat) :
  forall state_index, walk_exn (snd (NFA.transition fuel self state_index token)).
Proof.
  induction fuel as [|fuel IH]; intros i; simpl; [right; now right|].
  destruct (nth_error self i) as [state|]; [|right; now left].
  destruct (eps state) as [nexts|]; [|now left].
  apply yield_from_all_kind. intros n _. apply IH.
Qed.



Lemma walk_exn_not_ParseError (e : exn) (fs : list Fail) :
  walk_exn (Some e) -> e <> ParseError fs.
Proof. intros [H|[H|H]] ->; discriminate H. Qed.

(** ** What [annotate] returns and what it raises *)


Lemma reduce_stack_last (stack : list Entry) (rule : Grammar) (token : Key) :
  exists front, reduce_stack stack rule token = front ++ [Plain token].
Proof.
  unfold reduce_stack. destruct (pop_claimed (rev stack) []) as [below claimed].
  exists (rev below ++ [Parsed rule (rev claimed)]). now rewrite <- app_assoc.
Qed.

Lemma annotate_items_last (stack : list Entry) (token : Key)
    (items : list (list Grammar * nat)) :
  forall next next',
  NFA.annotate_items stack token items next = Ret next' ->
  Forall (fun p => exists front, snd p = front ++ [Plain token]) next ->
  Forall (fun p => exists front, snd p = front ++ [Plain token]) next'.
Proof.
  induction items as [|[emits q] items IH]; intros next next' H Hn; simpl in H.
  - now injection H as <-.
  - destruct emits as [|rule [|r2 emits]]; [| |discriminate].
    + apply IH in H; [assumption|]. apply Forall_app. split; [assumption|].
      repeat constructor. now exists stack.
    + apply IH in H; [assumption|]. apply Forall_app. split; [assumption|].
      repeat constructor. apply reduce_stack_last.
Qed.

Lemma annotate_paths_last (fuel : nat) (self : Table) (token : Key)
    (paths : list NFA.path) :
  forall next next',
  NFA.annotate_paths fuel self token paths next = Ret next' ->
  Forall (fun p => exists front, snd p = front ++ [Plain token]) next ->
  Forall (fun p => exists front, snd p = front ++ [Plain token]) next'.
Proof.
  induction paths as [|[state stack] paths IH]; intros next next' H Hn; simpl in H.
  - now injection H as <-.
  - destruct (NFA.trans_emit fuel self state token []) as [items ending].
    destruct (NFA.annotate_items stack token items next) as [next1|e] eqn:Ei;
      cbn [bind] in H; [|discriminate].
    destruct ending; [discriminate|].
    apply IH in H; [assumption|]. now apply annotate_items_last in Ei.
Qed.

Lemma annotate_step_Ret {order : SetOrder}
    (fuel : nat) (self : Table) (paths next : list NFA.path)
    (token : Key) :
  NFA.annotate_step fuel self paths token = Ret next ->
  NFA.annotate_paths fuel self token paths [] = Ret next /\ next <> [].
Proof.
  unfold NFA.annotate_step. intros H.
  destruct (NFA.annotate_paths fuel self token paths []) as [[|p n]|e];
    cbn [bind] in H.
  - destruct (NFA.collect_failures fuel self token paths); discriminate.
  - injection H as <-. split; [reflexivity | discriminate].
  - discriminate.
Qed.

(** The last iteration of [annotate]: the paths before the end marker and
    the step on the end marker. *)
Lemma annotate_loop_END {order : SetOrder}
    (fuel : nat) (self : Table) (tokens : list string)
    (paths : list NFA.path) :
  NFA.annotate_loop fuel self (NFA.stream tokens) [(0, [])] = Ret paths ->
  exists before,
    NFA.annotate_loop fuel self (map Word tokens) [(0, [])] = Ret before
    /\ NFA.annotate_step fuel self before (Tok END) = Ret paths.
Proof.
  unfold NFA.annotate_loop, NFA.stream. rewrite foldM_app. intros H.
  destruct (foldM (NFA.annotate_step fuel self) (map Word tokens) [(0, [])])
    as [before|e]; cbn [bind foldM] in H; [|discriminate].
  exists before. split; [reflexivity|].
  destruct (NFA.annotate_step fuel self before (Tok END)); [assumption|discriminate].
Qed.

(** C9.  Every interpretation a successful [annotate] returns has the
    end marker as its last entry, a marker that is no token of the
    sequence passed in. *)
Theorem annotate_stacks_end_with_END {order : SetOrder} (fuel : nat) (self : Table)
    (tokens : list string) (stacks : list (list Entry))
    (H : NFA.annotate fuel self tokens = Ret stacks) :
  Forall ends_with_END stacks.
Proof.
  unfold NFA.annotate in H.
  destruct (NFA.annotate_loop fuel self (NFA.stream tokens) [(0, [])])
    as [paths|e] eqn:El; cbn [bind] in H; [|discriminate].
  injection H as <-.
  apply annotate_loop_END in El as (before & _ & Hstep).
  apply annotate_step_Ret in Hstep as [Hpaths _].
  apply annotate_paths_last in Hpaths; [|constructor].
  apply Forall_map. exact Hpaths.
Qed.

Lemma annotate_stacks_end_with_END_witness :
  Forall ends_with_END
    [[Parsed (Keyword "take") ["take"]; Parsed (Variable_ ["ITEM"]) ["sword"];
      Plain (Tok END)]].
Proof.
  apply (annotate_stacks_end_with_END (order := insertion_order) 5
           [ mkState None None [(Word "take", 1)];
             mkState None (Some [2]) [];
             mkState (Some (Keyword "take")) (Some [3]) [];
             mkState None None [(Tok ANY, 4)];
             mkState None (Some [3; 5]) [];
             mkState None (Some [6]) [];
             mkState (Some (Variable_ ["ITEM"])) None [] ]
           ["take"; "sword"]).
  reflexivity.
Defined.




Lemma insertion_order_ok : set_order_ok insertion_order.
Proof.
  intros keys. unfold tuple_of_set, insertion_order. split.
  - apply dedup_NoDup; [apply Key_eqb_eq | constructor].
  - intros k. rewrite (dedup_In Key_eqb Key_eqb_eq). simpl. tauto.
Qed.








Lemma insert_key_In (k x : Key) (l : list Key) :
  In x (insert_key k l) <-> x = k \/ In x l.
Proof.
  induction l as [|y l IH]; simpl; [intuition congruence|].
  destruct (Key_leb k y); simpl; [intuition congruence|].
  rewrite IH. intuition congruence.
Qed.

Lemma insert_key_NoDup (k : Key) (l : list Key) :
  ~ In k l -> NoDup l -> NoDup (insert_key k l).
Proof.
  induction l as [|y l IH]; intros Hk Hl; simpl.
  - constructor; [intros [] | constructor].
  - destruct (Key_leb k y); [now constructor|].
    inversion Hl as [|? ? Hy Hl']; subst. constructor.
    + rewrite insert_key_In. intros [->|H]; [apply Hk; now left | contradiction].
    + apply IH; [|assumption]. intros H. apply Hk. now right.
Qed.

Lemma sorted_order_ok : set_order_ok sorted_order.
Proof.
  intros keys. unfold tuple_of_set, sorted_order.
  destruct (insertion_order_ok keys) as [Hnd Hin].
  unfold tuple_of_set, insertion_order in Hnd, Hin.
  assert (H : forall l, NoDup l ->
            NoDup (fold_right insert_key [] l)
            /\ forall k, In k (fold_right insert_key [] l) <-> In k l).
  { clear. induction l as [|x l IH]; intros Hl; simpl.
    - split; [constructor | tauto].
    - inversion Hl as [|? ? Hx Hl']; subst. destruct (IH Hl') as [IH1 IH2]. split.
      + apply insert_key_NoDup; [now rewrite IH2 | assumption].
      + intros k. rewrite insert_key_In, IH2. intuition congruence. }
  destruct (H _ Hnd) as [H1 H2]. split; [assumption|].
  intros k. now rewrite H2.
Qed.

(** The number of records depends on the order of the tuples, as it
    does in Python from one run to the next: two paths that expect the
    same categories, met in different orders, give two records when the
    tuples keep the order of insertion and one record when the order
    depends on the keys alone. *)
Example failure_records_depend_on_order :
  let g := Group []
             [[Keyword "x"; Group [] [[Keyword "a"]; [Keyword "b"]]];
              [Keyword "x"; Group [] [[Keyword "b"]; [Keyword "a"]]]] in
  from_string "x (a|b) | x (b|a)" = Ret g
  /\ Grammar_annotate (order := insertion_order) 100 g ["x"; "c"]
     = Raise (ParseError [mkFail [Word "a"; Word "b"] (Word "c");
                          mkFail [Word "b"; Word "a"] (Word "c")])
  /\ Grammar_annotate (order := sorted_order) 100 g ["x"; "c"]
     = Raise (ParseError [mkFail [Word "a"; Word "b"] (Word "c")]).
Proof. split; [|split]; vm_compute; reflexivity. Qed.

(** The keys of a state come in the order of their insertion: a state
    made by hand with its rule inserted after an edge expects the word
    of the edge first. *)
Example state_keys_insertion_order (rule : Grammar) :
  state_keys (mkStateAt (Some rule) None [(Word "a", 1)] 1) = [Word "a"; Tok EMIT]
  /\ state_keys (mkState (Some rule) None [(Word "a", 1)]) = [Tok EMIT; Word "a"].
Proof. split; reflexivity. Qed.

(** ** Lists updated in place and indexed properties *)

Lemma length_set_nth {A : Type} (x : A) (l : list A) : forall i,
  List.length (set_nth i x l) = List.length l.
Proof. induction l as [|y l IH]; intros [|i]; simpl; auto. Qed.

Lemma nth_error_set_nth {A : Type} (x : A) (l : list A) : forall i j,
  nth_error (set_nth i x l) j
  = if (i =? j) && (i <? List.length l) then Some x else nth_error l j.
Proof.
  induction l as [|y l IH]; intros [|i] [|j]; simpl; try reflexivity.
  - now rewrite andb_false_r.
  - rewrite IH. reflexivity.
Qed.

Lemma nth_error_set_nth_eq {A : Type} (x : A) (l : list A) (i : nat) :
  i < List.length l -> nth_error (set_nth i x l) i = Some x.
Proof.
  intros H. rewrite nth_error_set_nth, Nat.eqb_refl.
  apply Nat.ltb_lt in H. now rewrite H.
Qed.

Lemma nth_error_set_nth_neq {A : Type} (x : A) (l : list A) (i j : nat) :
  i <> j -> nth_error (set_nth i x l) j = nth_error l j.
Proof.
  intros H. rewrite nth_error_set_nth. apply Nat.eqb_neq in H. now rewrite H.
Qed.

Lemma all_states_app (P : nat -> State -> Prop) (off : nat) (t1 t2 : Table) :
  all_states P off t1 -> all_states P (off + List.length t1) t2 ->
  all_states P off (t1 ++ t2).
Proof.
  intros H1 H2 k s Hk. destruct (Nat.lt_ge_cases k (List.length t1)) as [Hlt|Hge].
  - rewrite nth_error_app1 in Hk by assumption. now apply H1.
  - rewrite nth_error_app2 in Hk by assumption. apply H2 in Hk.
    now replace (off + k) with (off + List.length t1 + (k - List.length t1)) by lia.
Qed.

Lemma all_states_one (P : nat -> State -> Prop) (off : nat) (s : State) :
  P off s -> all_states P off [s].
Proof.
  intros H [|[|k]] s' Hk; simpl in Hk; try discriminate.
  injection Hk as <-. now rewrite Nat.add_0_r.
Qed.

Lemma all_states_set_nth (P : nat -> State -> Prop) (off i : nat) (x : State)
    (t : Table) :
  all_states P off t -> P (off + i) x -> all_states P off (set_nth i x t).
Proof.
  intros H Hx k s Hk. rewrite nth_error_set_nth in Hk.
  destruct ((i =? k) && (i <? List.length t)) eqn:E.
  - apply andb_prop in E as [E _]. apply Nat.eqb_eq in E. subst k.
    now injection Hk as <-.
  - now apply H.
Qed.

Lemma all_states_map (P Q : nat -> State -> Prop) (f : State -> State)
    (off off' : nat) (t : Table) :
  (forall k s, nth_error t k = Some s -> P (off + k) s -> Q (off' + k) (f s)) ->
  all_states P off t -> all_states Q off' (map f t).
Proof.
  intros Hf H k s Hk. rewrite nth_error_map in Hk.
  destruct (nth_error t k) as [s0|] eqn:E; [|discriminate].
  injection Hk as <-. apply Hf; [assumption | now apply H].
Qed.

Lemma nth_error_lt {A : Type} (l : list A) (k : nat) (x : A) :
  nth_error l k = Some x -> k < List.length l.
Proof. intros H. apply nth_error_Some. congruence. Qed.

Lemma plain_last_nonempty (t : Table) : plain_last t -> 0 < List.length t.
Proof. intros (lst & H & _). apply nth_error_lt in H. lia. Qed.

Lemma plain_last_snoc (t : Table) (s : State) :
  eps s = None -> edges s = [] -> plain_last (t ++ [s]).
Proof.
  intros He Hd. exists s. split; [|auto].
  rewrite length_app. simpl.
  replace (List.length t + 1 - 1) with (List.length t) by lia.
  rewrite nth_error_app2 by lia. now rewrite Nat.sub_diag.
Qed.

Lemma plain_last_app (t1 t2 : Table) : plain_last t2 -> plain_last (t1 ++ t2).
Proof.
  intros (lst & H & He & Hd). exists lst. split; [|auto].
  pose proof (nth_error_lt _ _ _ H) as Hlt.
  rewrite length_app, nth_error_app2 by lia.
  now replace (List.length t1 + List.length t2 - 1 - List.length t1)
    with (List.length t2 - 1) by lia.
Qed.

Lemma shift_state_plain (k : nat) (s : State) :
  eps s = None -> edges s = [] ->
  eps (NFA.shift_state k s) = None /\ edges (NFA.shift_state k s) = [].
Proof. intros He Hd. unfold NFA.shift_state. rewrite He, Hd. auto. Qed.

Lemma shift_table_last (k : nat) (t : Table) (lst : State) :
  nth_error t (List.length t - 1) = Some lst ->
  nth_error (NFA._shift_table t k) (List.length (NFA._shift_table t k) - 1)
  = Some (NFA.shift_state k lst).
Proof.
  intros H. unfold NFA._shift_table. rewrite length_map, nth_error_map.
  now rewrite H.
Qed.

Lemma plain_last_shift (k : nat) (t : Table) :
  plain_last t -> plain_last (NFA._shift_table t k).
Proof.
  intros (lst & H & He & Hd). exists (NFA.shift_state k lst).
  split; [now apply shift_table_last | now apply shift_state_plain].
Qed.

Lemma add_epsilon_Ret (s : State) (j : nat) :
  edges s = [] -> _add_epsilon s j = Ret (add_eps s j).
Proof. intros H. unfold _add_epsilon. now rewrite H. Qed.

Lemma add_epsilon_at_Ret (t : Table) (i j : nat) (s : State) :
  nth_error t i = Some s -> edges s = [] ->
  add_epsilon_at t i j = Ret (set_nth i (add_eps s j) t).
Proof.
  intros H Hd. unfold add_epsilon_at. rewrite H, add_epsilon_Ret by assumption.
  reflexivity.
Qed.

Lemma add_epsilon_last_Ret (t : Table) (j : nat) (lst : State) :
  nth_error t (List.length t - 1) = Some lst -> edges lst = [] ->
  add_epsilon_last t j = Ret (set_nth (List.length t - 1) (add_eps lst j) t).
Proof.
  intros H Hd. unfold add_epsilon_last. destruct t as [|s t]; [discriminate|].
  now apply add_epsilon_at_Ret.
Qed.

(** ** The builders preserve the shape of a fragment *)

Section Builders.
Variable P : nat -> (nat -> bool) -> nat -> State -> Prop.

(** What the per-state property must tolerate: a longer table, a shift
    of the indices, a new epsilon edge to an unmarked index; and it must
    hold of a fresh start state and of a fresh empty state. *)
Hypothesis P_weaken : forall n n' d d' i s,
  P n d i s -> i < n -> n <= n' -> (forall x, x < n -> d' x = d x) -> P n' d' i s.
Hypothesis P_shift : forall n n' d d' k i s,
  P n d i s -> i < n -> n + k <= n' -> (forall x, x < n -> d' (x + k) = d x) ->
  P n' d' (i + k) (NFA.shift_state k s).
Hypothesis P_add : forall n d i s j,
  P n d i s -> edges s = [] -> j < n -> d j = false -> P n d i (add_eps s j).
Hypothesis P_start : forall n d l,
  (forall j, In j l -> j < n /\ d j = false) -> d 0 = false ->
  P n d 0 (mkState None (Some l) []).
Hypothesis P_empty : forall n d i, d i = false -> P n d i empty_state.

Lemma all_states_weaken (n n' : nat) (d d' : nat -> bool) (off : nat) (t : Table) :
  all_states (P n d) off t -> off + List.length t <= n -> n <= n' ->
  (forall x, x < n -> d' x = d x) ->
  all_states (P n' d') off t.
Proof.
  intros H Hlen Hn Hd k s Hk. apply P_weaken with (n := n) (d := d); auto.
  apply nth_error_lt in Hk. lia.
Qed.

Lemma all_states_shift (n n' : nat) (d d' : nat -> bool) (k : nat) (t : Table) :
  all_states (P n d) 0 t -> List.length t <= n -> n + k <= n' ->
  (forall x, x < n -> d' (x + k) = d x) ->
  all_states (P n' d') k (NFA._shift_table t k).
Proof.
  intros H Hlen Hn Hd. unfold NFA._shift_table.
  apply all_states_map with (P := P n d) (off := 0); [|assumption].
  intros i s Hi Hp. rewrite (Nat.add_comm k i). simpl in Hp.
  apply P_shift with (n := n) (d := d); auto.
  apply nth_error_lt in Hi. lia.
Qed.

Lemma frag_ok_new : frag_ok P NFA.new.
Proof.
  split.
  - exists empty_state. auto.
  - exists (fun _ => false). split; [reflexivity|].
    apply all_states_one. now apply P_empty.
Qed.

Lemma frag_ok_plus (t : Table) :
  frag_ok P t -> exists t', NFA.plus t = Ret t' /\ frag_ok P t'.
Proof.
  intros ((lst & Hlst & He & Hd) & d & Hd0 & Hall).
  pose proof (nth_error_lt _ _ _ Hlst) as Hlen.
  set (n := List.length t) in *.
  unfold NFA.plus. fold n in Hlst.
  rewrite (add_epsilon_last_Ret t 0 lst) by assumption. cbn [bind]. fold n.
  set (t1 := set_nth (n - 1) (add_eps lst 0) t).
  assert (Hl1 : List.length t1 = n) by apply length_set_nth.
  rewrite (add_epsilon_last_Ret t1 _ (add_eps lst 0));
    [|rewrite Hl1; apply nth_error_set_nth_eq; lia | reflexivity].
  cbn [bind]. rewrite Hl1.
  set (t2 := set_nth (n - 1) (add_eps (add_eps lst 0) n) t1).
  assert (Hl2 : List.length t2 = n) by (unfold t2; now rewrite length_set_nth).
  eexists. split; [reflexivity|]. split; [now apply plain_last_snoc|].
  set (d' := fun x => if x <? n then d x else false).
  assert (Hd' : forall x, x < n -> d' x = d x).
  { intros x Hx. unfold d'. apply Nat.ltb_lt in Hx. now rewrite Hx. }
  assert (Hdn : d' n = false).
  { unfold d'. now rewrite Nat.ltb_irrefl. }
  exists d'. split; [rewrite Hd' by lia; assumption|].
  rewrite length_app, Hl2. simpl.
  assert (Hall' : all_states (P (n + 1) d') 0 t).
  { apply all_states_weaken with (n := n) (d := d); auto; lia. }
  apply all_states_app; [|rewrite Hl2; apply all_states_one; now apply P_empty].
  apply all_states_set_nth; [apply all_states_set_nth; [assumption|]|].
  - apply P_add; [now apply Hall' | assumption | lia |].
    rewrite Hd' by lia. assumption.
  - apply P_add; [|reflexivity | lia | assumption].
    apply P_add; [now apply Hall' | assumption | lia |].
    rewrite Hd' by lia. assumption.
Qed.

Lemma frag_ok_star (t : Table) :
  frag_ok P t -> exists t', NFA.star t = Ret t' /\ frag_ok P t'.
Proof.
  intros ((lst & Hlst & He & Hd) & d & Hd0 & Hall).
  pose proof (nth_error_lt _ _ _ Hlst) as Hlen.
  set (n := List.length t) in *.
  destruct (shift_state_plain 1 lst He Hd) as [He1 Hd1].
  assert (Hls : List.length (NFA._shift_table t 1) = n) by apply length_map.
  unfold NFA.star.
  rewrite (add_epsilon_last_Ret _ 0 (NFA.shift_state 1 lst));
    [|now apply shift_table_last | assumption].
  cbn [bind]. rewrite Hls.
  set (t1 := set_nth (n - 1) (add_eps (NFA.shift_state 1 lst) 0) (NFA._shift_table t 1)).
  assert (Hl1 : List.length t1 = n) by (unfold t1; now rewrite length_set_nth).
  rewrite (add_epsilon_last_Ret t1 _ (add_eps (NFA.shift_state 1 lst) 0));
    [|rewrite Hl1; apply nth_error_set_nth_eq; lia | reflexivity].
  cbn [bind]. rewrite Hl1.
  set (t2 := set_nth (n - 1) (add_eps (add_eps (NFA.shift_state 1 lst) 0) (n + 1)) t1).
  assert (Hl2 : List.length t2 = n) by (unfold t2; now rewrite length_set_nth).
  rewrite Hl2.
  eexists. split; [reflexivity|]. split; [now apply plain_last_snoc|].
  set (d' := fun x => if x =? 0 then false else if x <=? n then d (x - 1) else false).
  assert (Hd' : forall x, x < n -> d' (x + 1) = d x).
  { intros x Hx. unfold d'. replace (x + 1 =? 0) with false
      by (symmetry; apply Nat.eqb_neq; lia).
    replace (x + 1 <=? n) with true by (symmetry; apply Nat.leb_le; lia).
    f_equal. lia. }
  assert (Hdn : d' (n + 1) = false).
  { unfold d'. replace (n + 1 =? 0) with false by (symmetry; apply Nat.eqb_neq; lia).
    replace (n + 1 <=? n) with false by (symmetry; apply Nat.leb_gt; lia).
    reflexivity. }
  exists d'. split; [reflexivity|].
  match goal with
  | |- all_states (P ?len d') 0 _ =>
      replace len with (S (n + 1)) by (rewrite !length_app, Hl2; simpl; lia)
  end.
  assert (Hsh : all_states (P (S (n + 1)) d') 1 (NFA._shift_table t 1)).
  { apply all_states_shift with (n := n) (d := d); auto; lia. }
  assert (Hp : P (S (n + 1)) d' (1 + (n - 1)) (NFA.shift_state 1 lst)).
  { apply Hsh. unfold NFA._shift_table. rewrite nth_error_map. fold n in Hlst.
    now rewrite Hlst. }
  apply all_states_app; [apply all_states_app|].
  - apply all_states_one. apply P_start; [|reflexivity].
    intros j [<-|[<-|[]]]; split; try lia; [|assumption].
    change 1 with (0 + 1). rewrite Hd' by lia. assumption.
  - simpl. apply all_states_set_nth; [apply all_states_set_nth; [assumption|]|].
    + apply P_add; [assumption | assumption | lia | reflexivity].
    + apply P_add; [|reflexivity | lia | assumption].
      apply P_add; [assumption | assumption | lia | reflexivity].
  - rewrite length_app, Hl2. apply all_states_one. apply P_empty.
    replace (0 + (List.length [mkState None (Some [1; n + 1]) []] + n))
      with (n + 1) by (simpl; lia).
    assumption.
Qed.

Lemma frag_ok_optional (t : Table) :
  frag_ok P t -> exists t', NFA.optional t = Ret t' /\ frag_ok P t'.
Proof.
  intros ((lst & Hlst & He & Hd) & d & Hd0 & Hall).
  pose proof (nth_error_lt _ _ _ Hlst) as Hlen.
  set (n := List.length t) in *.
  destruct (shift_state_plain 1 lst He Hd) as [He1 Hd1].
  assert (Hls : List.length (NFA._shift_table t 1) = n) by apply length_map.
  unfold NFA.optional.
  rewrite (add_epsilon_last_Ret _ _ (NFA.shift_state 1 lst));
    [|now apply shift_table_last | assumption].
  cbn [bind]. rewrite Hls.
  set (t2 := set_nth (n - 1) (add_eps (NFA.shift_state 1 lst) (n + 1))
                     (NFA._shift_table t 1)).
  assert (Hl2 : List.length t2 = n) by (unfold t2; now rewrite length_set_nth).
  rewrite Hl2.
  eexists. split; [reflexivity|]. split; [now apply plain_last_snoc|].
  set (d' := fun x => if x =? 0 then false else if x <=? n then d (x - 1) else false).
  assert (Hd' : forall x, x < n -> d' (x + 1) = d x).
  { intros x Hx. unfold d'. replace (x + 1 =? 0) with false
      by (symmetry; apply Nat.eqb_neq; lia).
    replace (x + 1 <=? n) with true by (symmetry; apply Nat.leb_le; lia).
    f_equal. lia. }
  assert (Hdn : d' (n + 1) = false).
  { unfold d'. replace (n + 1 =? 0) with false by (symmetry; apply Nat.eqb_neq; lia).
    replace (n + 1 <=? n) with false by (symmetry; apply Nat.leb_gt; lia).
    reflexivity. }
  exists d'. split; [reflexivity|].
  match goal with
  | |- all_states (P ?len d') 0 _ =>
      replace len with (S (n + 1)) by (rewrite !length_app, Hl2; simpl; lia)
  end.
  assert (Hsh : all_states (P (S (n + 1)) d') 1 (NFA._shift_table t 1)).
  { apply all_states_shift with (n := n) (d := d); auto; lia. }
  assert (Hp : P (S (n + 1)) d' (1 + (n - 1)) (NFA.shift_state 1 lst)).
  { apply Hsh. unfold NFA._shift_table. rewrite nth_error_map. fold n in Hlst.
    now rewrite Hlst. }
  apply all_states_app; [apply all_states_app|].
  - apply all_states_one. apply P_start; [|reflexivity].
    intros j [<-|[<-|[]]]; split; try lia; [|assumption].
    change 1 with (0 + 1). rewrite Hd' by lia. assumption.
  - simpl. apply all_states_set_nth; [assumption|].
    apply P_add; [assumption | assumption | lia | assumption].
  - rewrite length_app, Hl2. apply all_states_one. apply P_empty.
    replace (0 + (List.length [mkState None (Some [1; n + 1]) []] + n))
      with (n + 1) by (simpl; lia).
    assumption.
Qed.

(** One iteration of the loop of [concat]. *)
Lemma frag_ok_concat_step (x y : Table) :
  frag_ok P x -> frag_ok P y ->
  exists t', (table' <- add_epsilon_last x (List.length x) ;;
              Ret (table' ++ NFA._shift_table y (List.length x))) = Ret t'
             /\ frag_ok P t'.
Proof.
  intros ((lst & Hlst & He & Hd) & d & Hd0 & Hall) (Hly & dy & Hdy0 & Hally).
  pose proof (nth_error_lt _ _ _ Hlst) as Hlen.
  pose proof (plain_last_nonempty _ Hly) as Hleny.
  set (n := List.length x) in *. set (m := List.length y) in *.
  rewrite (add_epsilon_last_Ret x _ lst) by assumption. cbn [bind]. fold n.
  set (x1 := set_nth (n - 1) (add_eps lst n) x).
  assert (Hl1 : List.length x1 = n) by apply length_set_nth.
  eexists. split; [reflexivity|].
  split; [apply plain_last_app; now apply plain_last_shift|].
  set (d' := fun i => if i <? n then d i else dy (i - n)).
  assert (Hd' : forall i, i < n -> d' i = d i).
  { intros i Hi. unfold d'. apply Nat.ltb_lt in Hi. now rewrite Hi. }
  assert (Hdy' : forall i, i < m -> d' (i + n) = dy i).
  { intros i Hi. unfold d'.
    replace (i + n <? n) with false by (symmetry; apply Nat.ltb_ge; lia).
    f_equal. lia. }
  exists d'. split; [rewrite Hd' by lia; assumption|].
  rewrite length_app, Hl1. unfold NFA._shift_table at 1. rewrite length_map. fold m.
  assert (Hall' : all_states (P (n + m) d') 0 x).
  { apply all_states_weaken with (n := n) (d := d); auto; lia. }
  apply all_states_app.
  - apply all_states_set_nth; [assumption|].
    apply P_add; [now apply Hall' | assumption | lia |].
    change n with (0 + n) at 1. rewrite Hdy' by lia. assumption.
  - rewrite Hl1. simpl.
    apply all_states_shift with (n := m) (d := dy); auto; lia.
Qed.

Lemma frag_ok_concat_loop (rest : list Table) : forall first,
  frag_ok P first -> (forall nfa, In nfa rest -> frag_ok P nfa) ->
  exists t',
    foldM (fun table nxt_nfa =>
             let nxt_table := NFA._shift_table nxt_nfa (List.length table) in
             table' <- add_epsilon_last table (List.length table) ;;
             Ret (table' ++ nxt_table)) rest first = Ret t'
    /\ frag_ok P t'.
Proof.
  induction rest as [|y rest IH]; intros first Hf Hr.
  - exists first. auto.
  - cbn [foldM].
    destruct (frag_ok_concat_step first y Hf (Hr y (or_introl eq_refl)))
      as (t1 & -> & H1).
    cbn [bind]. apply IH; [assumption|]. intros nfa Hn. apply Hr. now right.
Qed.

Lemma frag_ok_concat (nfas : list Table) :
  (forall nfa, In nfa nfas -> frag_ok P nfa) ->
  exists t', NFA.concat nfas = Ret t' /\ frag_ok P t'.
Proof.
  intros H. destruct nfas as [|first rest].
  - exists NFA.new. split; [reflexivity | apply frag_ok_new].
  - apply frag_ok_concat_loop; [apply H; now left|].
    intros nfa Hn. apply H. now right.
Qed.

Lemma all_states_cons (Q : nat -> State -> Prop) (off : nat) (s : State) (t : Table) :
  Q off s -> all_states Q (S off) t -> all_states Q off (s :: t).
Proof.
  intros Hs Ht [|k] s' Hk; simpl in Hk.
  - injection Hk as <-. now rewrite Nat.add_0_r.
  - apply Ht in Hk. now replace (off + S k) with (S off + k) by lia.
Qed.

Lemma union_step_inv (acc : Table * list nat) (y : Table) :
  union_inv P acc -> frag_ok P y -> union_inv P (NFA.union_step acc y).
Proof.
  destruct acc as [table ends].
  intros (l & body & d & Ht & Hd0 & Hl & Hbody & Hends)
         ((lst & Hlst & He & Hd) & dy & Hdy0 & Hally).
  simpl in Ht, Hl, Hbody, Hends. subst table.
  pose proof (nth_error_lt _ _ _ Hlst) as Hleny.
  set (table := mkState None (Some l) [] :: body) in *.
  set (n := List.length table) in *. set (m := List.length y) in *.
  assert (Hn : n = S (List.length body)) by reflexivity.
  unfold NFA.union_step. fold n.
  change (NFA.append_start table n) with (mkState None (Some (l ++ [n])) [] :: body).
  change (List.length (mkState None (Some (l ++ [n])) [] :: body)) with n.
  set (d' := fun i => if i <? n then d i else dy (i - n)).
  assert (Hd' : forall i, i < n -> d' i = d i).
  { intros i Hi. unfold d'. apply Nat.ltb_lt in Hi. now rewrite Hi. }
  assert (Hdy' : forall i, i < m -> d' (i + n) = dy i).
  { intros i Hi. unfold d'.
    replace (i + n <? n) with false by (symmetry; apply Nat.ltb_ge; lia).
    f_equal. lia. }
  assert (Hlen2 : List.length ((mkState None (Some (l ++ [n])) [] :: body)
                               ++ NFA._shift_table y n) = n + m).
  { rewrite length_app. unfold NFA._shift_table. rewrite length_map. reflexivity. }
  exists (l ++ [n]), (body ++ NFA._shift_table y n), d'.
  cbn [fst snd]. rewrite Hlen2.
  split; [reflexivity|]. split; [rewrite Hd' by lia; assumption|].
  split; [|split].
  - intros j Hj. apply in_app_iff in Hj as [Hj|[<-|[]]].
    + destruct (Hl j Hj) as [Hjn Hdj]. split; [lia|]. now rewrite Hd'.
    + split; [lia|]. pose proof (Hdy' 0 ltac:(lia)) as H0. simpl in H0.
      rewrite H0. assumption.
  - apply all_states_app.
    + apply all_states_weaken with (n := n) (d := d); auto; lia.
    + replace (1 + List.length body) with n by lia.
      apply all_states_shift with (n := m) (d := dy); auto; lia.
  - intros e He'. apply in_app_iff in He' as [He'|[<-|[]]].
    + destruct (Hends e He') as (Hen & s & Hs & Hds). split; [lia|].
      destruct e as [|e].
      * exists (mkState None (Some (l ++ [n])) []). split; reflexivity.
      * exists s. split; [|assumption].
        rewrite nth_error_app1 by (simpl; lia). exact Hs.
    + split; [lia|]. exists (NFA.shift_state n lst).
      split; [|now apply shift_state_plain].
      rewrite nth_error_app2 by (change (List.length (_ :: body)) with n; lia).
      change (List.length (mkState None (Some (l ++ [n])) [] :: body)) with n.
      unfold NFA._shift_table. rewrite nth_error_map.
      replace (n + m - 1 - n) with (m - 1) by lia. fold m in Hlst. now rewrite Hlst.
Qed.

Lemma union_loop_inv (nfas : list Table) : forall acc,
  union_inv P acc -> (forall nfa, In nfa nfas -> frag_ok P nfa) ->
  union_inv P (fold_left NFA.union_step nfas acc).
Proof.
  induction nfas as [|y nfas IH]; intros acc Hacc H; [assumption|].
  simpl. apply IH.
  - apply union_step_inv; [assumption | apply H; now left].
  - intros nfa Hn. apply H. now right.
Qed.

(** The second loop of [union]: every old end gets its edge to the new
    end, which stays empty. *)
Lemma union_close (N : nat) (d : nat -> bool) (ends : list nat) : forall T,
  List.length T = S N -> nth_error T N = Some empty_state ->
  all_states (P (S N) d) 0 T -> d N = false ->
  (forall e, In e ends -> e < N /\ exists s, nth_error T e = Some s /\ edges s = []) ->
  exists T',
    foldM (fun table end_ => add_epsilon_at table end_ N) ends T = Ret T'
    /\ List.length T' = S N /\ nth_error T' N = Some empty_state
    /\ all_states (P (S N) d) 0 T'.
Proof.
  induction ends as [|e ends IH]; intros T Hlen HN Hall HdN Hends.
  - exists T. auto.
  - destruct (Hends e (or_introl eq_refl)) as (HeN & s & Hs & Hds).
    cbn [foldM]. rewrite (add_epsilon_at_Ret T e N s) by assumption. cbn [bind].
    apply IH; auto.
    + now rewrite length_set_nth.
    + rewrite nth_error_set_nth_neq by lia. assumption.
    + apply all_states_set_nth; [assumption|].
      apply P_add; [now apply Hall | assumption | lia | assumption].
    + intros e' He'. destruct (Hends e' (or_intror He')) as (He'N & s' & Hs' & Hds').
      split; [assumption|].
      destruct (Nat.eq_dec e e') as [<-|Hne].
      * exists (add_eps s N). split; [|reflexivity].
        apply nth_error_set_nth_eq. lia.
      * exists s'. split; [|assumption]. now rewrite nth_error_set_nth_neq.
Qed.

Lemma frag_ok_union (nfas : list Table) :
  (forall nfa, In nfa nfas -> frag_ok P nfa) ->
  exists t', NFA.union nfas = Ret t' /\ frag_ok P t'.
Proof.
  intros H. destruct nfas as [|x [|y rest]].
  - exists NFA.new. split; [reflexivity | apply frag_ok_new].
  - exists x. split; [reflexivity | apply H; now left].
  - unfold NFA.union.
    assert (Hinit : union_inv P ([mkState None (Some []) []], [])).
    { exists [], [], (fun _ => false). cbn [fst snd].
      split; [reflexivity|]. split; [reflexivity|].
      split; [intros j []|]. split; [intros k s Hk; destruct k; discriminate|].
      intros e []. }
    pose proof (union_loop_inv (x :: y :: rest) _ Hinit H) as Hloop.
    destruct (fold_left NFA.union_step (x :: y :: rest)
                        ([mkState None (Some []) []], [])) as [table ends].
    destruct Hloop as (l & body & d & Ht & Hd0 & Hl & Hbody & Hends).
    cbn [fst snd] in Ht, Hl, Hbody, Hends.
    set (N := List.length table) in *.
    set (d' := fun i => if i <? N then d i else false).
    assert (Hd' : forall i, i < N -> d' i = d i).
    { intros i Hi. unfold d'. apply Nat.ltb_lt in Hi. now rewrite Hi. }
    assert (HdN : d' N = false) by (unfold d'; now rewrite Nat.ltb_irrefl).
    assert (HN : N = S (List.length body)) by (unfold N; now rewrite Ht).
    destruct (union_close N d' ends (table ++ [empty_state])) as (T' & -> & HlT & HTN & HallT).
    + rewrite length_app. simpl. fold N. lia.
    + rewrite nth_error_app2 by (fold N; lia). fold N. now rewrite Nat.sub_diag.
    + apply all_states_app.
      * rewrite Ht. apply all_states_cons.
        -- apply P_start; [|rewrite Hd' by lia; assumption].
           intros j Hj. destruct (Hl j Hj) as [HjN Hdj]. split; [lia|].
           now rewrite Hd'.
        -- apply all_states_weaken with (n := N) (d := d); auto; lia.
      * fold N. apply all_states_one. now apply P_empty.
    + assumption.
    + intros e He. destruct (Hends e He) as (HeN & s & Hs & Hds).
      split; [assumption|]. exists s. split; [|assumption].
      rewrite nth_error_app1 by (fold N; lia). assumption.
    + exists T'. split; [reflexivity|]. split.
      * exists empty_state. rewrite HlT. simpl. rewrite Nat.sub_0_r. auto.
      * exists d'. split; [rewrite Hd' by lia; assumption|]. now rewrite HlT.
Qed.

End Builders.

(** ** Every built table keeps the shape *)

Lemma shift_state_exclusive (k : nat) (s : State) : exclusive (NFA.shift_state k s).
Proof. unfold NFA.shift_state, exclusive. destruct (eps s); simpl; auto. Qed.

Lemma frag_ok_exclusive_emitter (t t' : Table) (rule : Grammar) :
  frag_ok (fun _ _ _ s => exclusive s) t -> NFA.emitter t rule = Ret t' ->
  frag_ok (fun _ _ _ s => exclusive s) t'.
Proof.
  intros ((lst & Hlst & He & Hd) & d & Hd0 & Hall) H.
  unfold NFA.emitter in H.
  rewrite (add_epsilon_last_Ret t _ lst) in H by assumption. cbn [bind] in H.
  injection H as <-. split.
  - now apply plain_last_snoc.
  - exists d. split; [assumption|].
    apply all_states_app.
    + apply all_states_set_nth; [exact Hall | now right].
    + apply all_states_one. now left.
Qed.

Lemma Built_frag_ok (t : Table) :
  Built t -> frag_ok (fun _ _ _ s => exclusive s) t.
Proof.
  set (Q := fun (_ : nat) (_ : nat -> bool) (_ : nat) (s : State) => exclusive s).
  assert (Qw : forall n n' d d' i s,
             Q n d i s -> i < n -> n <= n' -> (forall x, x < n -> d' x = d x) ->
             Q n' d' i s) by (intros; assumption).
  assert (Qs : forall n n' d d' k i s,
             Q n d i s -> i < n -> n + k <= n' ->
             (forall x, x < n -> d' (x + k) = d x) ->
             Q n' d' (i + k) (NFA.shift_state k s))
    by (intros; apply shift_state_exclusive).
  assert (Qa : forall n d i s j,
             Q n d i s -> edges s = [] -> j < n -> d j = false ->
             Q n d i (add_eps s j)) by (intros; now right).
  assert (Qst : forall n d l,
             (forall j, In j l -> j < n /\ d j = false) -> d 0 = false ->
             Q n d 0 (mkState None (Some l) [])) by (intros; now right).
  assert (Qe : forall n d i, d i = false -> Q n d i empty_state) by (intros; now left).
  induction 1 as [value _ _ | nfa t _ IH Hr | nfa t _ IH Hr | nfa t _ IH Hr
                  | nfas t _ IH Hr | nfas t _ IH Hr | nfa t rule _ IH Hr].
  - split.
    + exists empty_state. auto.
    + exists (fun _ => false). split; [reflexivity|].
      apply all_states_cons; [now left|]. apply all_states_one. now left.
  - destruct (frag_ok_star Q Qs Qa Qst Qe nfa IH) as (t' & Ht & Hok). congruence.
  - destruct (frag_ok_plus Q Qw Qa Qe nfa IH) as (t' & Ht & Hok). congruence.
  - destruct (frag_ok_optional Q Qs Qa Qst Qe nfa IH) as (t' & Ht & Hok). congruence.
  - destruct (frag_ok_union Q Qw Qs Qa Qst Qe nfas IH) as (t' & Ht & Hok). congruence.
  - destruct (frag_ok_concat Q Qw Qs Qa Qe nfas IH) as (t' & Ht & Hok). congruence.
  - now apply frag_ok_exclusive_emitter with (t := nfa) (rule := rule).
Qed.

(** C5.  In every table produced by a build operation the state 0, where
    the executor starts, exists; the only index the executor accepts is
    the last one, whose state has neither consuming edge nor epsilon
    list; and no state carries both a consuming edge and an epsilon
    list. *)
Theorem built_table_shape (t : Table) (H : Built t) :
  nth_error t 0 <> None
  /\ (forall i, NFA.is_last t i = true <-> i = List.length t - 1)
  /\ plain_last t
  /\ Forall exclusive t.
Proof.
  apply Built_frag_ok in H as (Hlast & d & _ & Hall).
  pose proof (plain_last_nonempty t Hlast) as Hlen.
  split; [apply nth_error_Some; lia|].
  split; [|split; [assumption|]].
  - intros i. unfold NFA.is_last. rewrite Nat.eqb_eq. lia.
  - apply Forall_forall. intros s Hs.
    apply In_nth_error in Hs as [k Hk]. exact (Hall k s Hk).
Qed.

Lemma built_table_shape_witness :
  nth_error (NFA.match_on (Word "take")) 0 <> None
  /\ (forall i, NFA.is_last (NFA.match_on (Word "take")) i = true
                <-> i = List.length (NFA.match_on (Word "take")) - 1)
  /\ plain_last (NFA.match_on (Word "take"))
  /\ Forall exclusive (NFA.match_on (Word "take")).
Proof. apply built_table_shape. apply Built_match_on; discriminate. Defined.

(** ** Every compiled table obeys the discipline of emitting states *)

Lemma eps_list_shift (k : nat) (s : State) :
  eps_list (NFA.shift_state k s) = map (fun index => index + k) (eps_list s).
Proof. unfold NFA.shift_state, eps_list. destruct (eps s); reflexivity. Qed.

Lemma emit_shift (k : nat) (s : State) : emit (NFA.shift_state k s) = emit s.
Proof. unfold NFA.shift_state. destruct (eps s); reflexivity. Qed.

Lemma edges_shift (k : nat) (s : State) (key : Key) (q : nat) :
  In (key, q) (edges (NFA.shift_state k s)) -> exists q0, In (key, q0) (edges s).
Proof.
  unfold NFA.shift_state. destruct (eps s); simpl; [intros []|].
  intros H. apply in_map_iff in H as ([key0 q0] & E & Hin). simpl in E.
  inversion E; subst. now exists q0.
Qed.

Lemma state_ok_weaken (n n' : nat) (d d' : nat -> bool) (i : nat) (s : State) :
  state_ok n d i s -> i < n -> n <= n' -> (forall x, x < n -> d' x = d x) ->
  state_ok n' d' i s.
Proof.
  intros (He & Hm & Hend) Hi Hn Hd. repeat split.
  - destruct (He j H); lia.
  - destruct (He j H) as [Hj Hc]. rewrite !Hd by assumption. exact Hc.
  - rewrite Hd by assumption. exact Hm.
  - exact Hend.
Qed.

Lemma state_ok_shift (n n' : nat) (d d' : nat -> bool) (k i : nat) (s : State) :
  state_ok n d i s -> i < n -> n + k <= n' ->
  (forall x, x < n -> d' (x + k) = d x) ->
  state_ok n' d' (i + k) (NFA.shift_state k s).
Proof.
  intros (He & Hm & Hend) Hi Hn Hd. unfold state_ok.
  rewrite eps_list_shift, emit_shift. repeat split.
  - apply in_map_iff in H as (j0 & <- & Hj0). destruct (He j0 Hj0); lia.
  - apply in_map_iff in H as (j0 & <- & Hj0). destruct (He j0 Hj0) as [Hj Hc].
    rewrite !Hd by assumption. exact Hc.
  - rewrite Hd by assumption. exact Hm.
  - intros q Hq. apply edges_shift in Hq as [q0 Hq0]. exact (Hend q0 Hq0).
Qed.

Lemma state_ok_add (n : nat) (d : nat -> bool) (i : nat) (s : State) (j : nat) :
  state_ok n d i s -> edges s = [] -> j < n -> d j = false ->
  state_ok n d i (add_eps s j).
Proof.
  intros (He & Hm & Hend) _ Hj Hdj. unfold state_ok, add_eps, eps_list. simpl.
  fold (eps_list s). repeat split.
  - apply in_app_iff in H as [H|[<-|[]]]; [now destruct (He j0 H) | assumption].
  - apply in_app_iff in H as [H|[<-|[]]]; [now destruct (He j0 H) | now intros _].
  - exact Hm.
  - intros q [].
Qed.

Lemma state_ok_start (n : nat) (d : nat -> bool) (l : list nat) :
  (forall j, In j l -> j < n /\ d j = false) -> d 0 = false ->
  state_ok n d 0 (mkState None (Some l) []).
Proof.
  intros Hl Hd0. unfold state_ok, eps_list. simpl. repeat split.
  - now destruct (Hl j H).
  - intros _. now destruct (Hl j H).
  - intros H. now contradiction H.
  - intros q [].
Qed.

Lemma state_ok_empty (n : nat) (d : nat -> bool) (i : nat) :
  d i = false -> state_ok n d i empty_state.
Proof.
  intros _. unfold state_ok, eps_list. simpl. repeat split.
  - destruct H.
  - destruct H.
  - intros H. now contradiction H.
  - intros q [].
Qed.

Lemma state_ok_consume (n : nat) (d : nat -> bool) (i : nat) (key : Key) (q : nat) :
  key <> Tok END -> state_ok n d i (mkState None None [(key, q)]).
Proof.
  intros Hk. unfold state_ok, eps_list. simpl. repeat split.
  - destruct H.
  - destruct H.
  - intros H. now contradiction H.
  - intros q' [E|[]]. injection E as E _. contradiction.
Qed.

Lemma state_ok_eps (n : nat) (d : nat -> bool) (i : nat) (l : list nat) :
  (forall j, In j l -> j < n /\ (d i = false -> d j = false)) ->
  state_ok n d i (mkState None (Some l) []).
Proof.
  intros Hl. unfold state_ok, eps_list. simpl. repeat split.
  - now destruct (Hl j H).
  - intros [Hc|Hc]; [now contradiction Hc | now destruct (Hl j H) as [_ Hd]; apply Hd].
  - intros H. now contradiction H.
  - intros q [].
Qed.

Lemma state_ok_emit (n : nat) (d : nat -> bool) (i : nat) (rule : Grammar) :
  d i = true -> state_ok n d i (mkState (Some rule) None []).
Proof.
  intros Hd. unfold state_ok, eps_list. simpl. repeat split.
  - destruct H.
  - destruct H.
  - intros _. exact Hd.
  - intros q [].
Qed.

Lemma frag_ok_keyword (inner : string) :
  exists t, to_nfa (Keyword inner) = Ret t /\ frag_ok state_ok t.
Proof.
  exists [ mkState None None [(Word inner, 1)];
           mkState None (Some [2]) [];
           mkState (Some (Keyword inner)) None [] ].
  split; [reflexivity|]. split.
  - eexists. split; [reflexivity|]. auto.
  - exists (fun x => negb (x =? 0)). split; [reflexivity|].
    apply all_states_cons; [apply state_ok_consume; discriminate|].
    apply all_states_cons; [|apply all_states_one; now apply state_ok_emit].
    apply state_ok_eps. intros j [<-|[]]. simpl. split; [lia | discriminate].
Qed.

Lemma frag_ok_variable (inner : list string) :
  exists t, to_nfa (Variable_ inner) = Ret t /\ frag_ok state_ok t.
Proof.
  exists (variable_table (Variable_ inner)).
  split; [reflexivity|]. split.
  - eexists. split; [reflexivity|]. auto.
  - exists (fun x => negb (x =? 0)). split; [reflexivity|].
    apply all_states_cons; [apply state_ok_consume; discriminate|].
    apply all_states_cons;
      [|apply all_states_cons; [|apply all_states_one; now apply state_ok_emit]].
    + apply state_ok_eps. intros j [<-|[<-|[]]]; simpl; split;
        try lia; try discriminate; reflexivity.
    + apply state_ok_eps. intros j [<-|[]]. simpl. split; [lia | discriminate].
Qed.

Lemma mapM_Forall {A B : Type} (f : A -> result B) (R : B -> Prop) (l : list A) :
  Forall (fun x => exists y, f x = Ret y /\ R y) l ->
  exists ys, mapM f l = Ret ys /\ forall y, In y ys -> R y.
Proof.
  induction 1 as [|x l (y & Hy & Ry) _ (ys & Hys & Rys)]; simpl.
  - exists []. split; [reflexivity | intros ? []].
  - rewrite Hy, Hys. exists (y :: ys). split; [reflexivity|].
    intros z [<-|Hz]; auto.
Qed.

(** Every grammar compiles, and its table obeys the discipline. *)
Lemma to_nfa_ok (g : Grammar) : exists t, to_nfa g = Ret t /\ frag_ok state_ok t.
Proof.
  induction g as [inner | inner | inner IH | inner IH | inner IH | args alts IHargs IHalts]
    using Grammar_rect_nested.
  - apply frag_ok_keyword.
  - apply frag_ok_variable.
  - destruct IH as (t & Ht & Hok). cbn [to_nfa]. rewrite Ht. cbn [bind].
    now apply (frag_ok_star state_ok state_ok_shift state_ok_add state_ok_start
                 state_ok_empty).
  - destruct IH as (t & Ht & Hok). cbn [to_nfa]. rewrite Ht. cbn [bind].
    now apply (frag_ok_plus state_ok state_ok_weaken state_ok_add state_ok_empty).
  - destruct IH as (t & Ht & Hok). cbn [to_nfa]. rewrite Ht. cbn [bind].
    now apply (frag_ok_optional state_ok state_ok_shift state_ok_add state_ok_start
                 state_ok_empty).
  - assert (Hconcat : forall l, Forall (fun g => exists t, to_nfa g = Ret t
                                                          /\ frag_ok state_ok t) l ->
                      exists t, (ns <- mapM to_nfa l ;; NFA.concat ns) = Ret t
                                /\ frag_ok state_ok t).
    { intros l Hl. apply mapM_Forall in Hl as (ns & -> & Hns). cbn [bind].
      now apply (frag_ok_concat state_ok state_ok_weaken state_ok_shift state_ok_add
                   state_ok_empty). }
    cbn [to_nfa]. destruct args as [|a args].
    + assert (Halts : Forall (fun alt => exists t,
                          (ns <- mapM to_nfa alt ;; NFA.concat ns) = Ret t
                          /\ frag_ok state_ok t) alts).
      { eapply Forall_impl; [|exact IHalts]. intros alt Halt. now apply Hconcat. }
      apply mapM_Forall in Halts as (ns & -> & Hns). cbn [bind].
      now apply (frag_ok_union state_ok state_ok_weaken state_ok_shift state_ok_add
                   state_ok_start state_ok_empty).
    + apply (Hconcat (a :: args) IHargs).
Qed.

(** ** The walk on a compiled table *)

Lemma lookup_None (key : Key) (items : list (Key * nat)) :
  (forall q, ~ In (key, q) items) -> lookup key items = None.
Proof.
  induction items as [|[k v] items IH]; intros H; simpl; [reflexivity|].
  destruct (Key_eqb key k) eqn:E.
  - apply Key_eqb_eq in E. subst k. exfalso. apply (H v). now left.
  - apply IH. intros q Hq. apply (H q). now right.
Qed.

Lemma trans_emit_marks (self : Table) (d : nat -> bool) (token : Key) :
  all_states (state_ok (List.length self) d) 0 self ->
  forall fuel i emits,
  Forall (fun item => (fst item = emits \/ exists rule, fst item = emits ++ [rule])
                      /\ (d i = false -> fst item = emits))
         (fst (NFA.trans_emit fuel self i token emits)).
Proof.
  intros Hall. induction fuel as [|fuel IH]; intros i emits; simpl; [constructor|].
  destruct (nth_error self i) as [s|] eqn:Es; [|constructor].
  destruct (Hall i s Es) as (Heps & Hmark & _). simpl in Heps, Hmark.
  destruct (eps s) as [nexts|] eqn:Ee.
  - assert (Hl : eps_list s = nexts) by (unfold eps_list; now rewrite Ee).
    rewrite Hl in Heps.
    apply yield_from_all_Forall. intros j Hj. destruct (Heps j Hj) as [_ Hclean].
    destruct (emit s) as [rule|] eqn:Em.
    + assert (Hdj : d j = false) by (apply Hclean; left; discriminate).
      assert (Hdi : d i = true) by (apply Hmark; discriminate).
      eapply Forall_impl; [|apply IH]. simpl. intros item [_ Hitem]. split.
      * right. exists rule. now apply Hitem.
      * rewrite Hdi. discriminate.
    + eapply Forall_impl; [|apply IH]. simpl. intros item [Hitem Hitem']. split.
      * exact Hitem.
      * intros Hdi. apply Hitem'. apply Hclean. now right.
  - simpl. apply Forall_map. apply Forall_forall. intros q _. simpl.
    destruct (emit s) as [rule|] eqn:Em.
    + split; [right; now exists rule|].
      intros Hdi. rewrite Hmark in Hdi by discriminate. discriminate Hdi.
    + split; [now left | reflexivity].
Qed.

Lemma frag_ok_emits_ok (self : Table) : frag_ok state_ok self -> emits_ok self.
Proof.
  intros (_ & d & _ & Hall) fuel i token.
  eapply Forall_impl; [|apply (trans_emit_marks self d token Hall)].
  simpl. intros item [[->|[rule ->]] _]; simpl; lia.
Qed.

Lemma frag_ok_END_yields_last (self : Table) :
  frag_ok state_ok self -> END_yields_last self.
Proof.
  intros (_ & d & _ & Hall). intros fuel.
  induction fuel as [|fuel IH]; intros i; simpl; [constructor|].
  destruct (nth_error self i) as [s|] eqn:Es; [|constructor].
  destruct (Hall i s Es) as (_ & _ & Hend).
  destruct (eps s) as [nexts|].
  - apply yield_from_all_Forall. intros j _. apply IH.
  - simpl. unfold NFA.consume.
    destruct (NFA.is_last self i) eqn:El; simpl.
    + repeat constructor. assumption.
    + rewrite (lookup_None (Tok END) (edges s) Hend).
      destruct (lookup (Tok ANY) (edges s)); constructor.
Qed.

(** ** [matches] and [annotate] step by step *)

Lemma matches_states_spec (fuel : nat) (self : Table) (token : Key)
    (states : list nat) : forall acc,
  match NFA.matches_states fuel self token states acc with
  | Ret states' =>
      (forall s, In s states -> snd (NFA.transition fuel self s token) = None)
      /\ (forall x, In x states' <->
                    In x acc \/ exists s, In s states
                                          /\ In x (fst (NFA.transition fuel self s token)))
  | Raise e => exists s, In s states /\ snd (NFA.transition fuel self s token) = Some e
  end.
Proof.
  induction states as [|s states IH]; intros acc; simpl.
  - split; [intros ? []|]. intros x. split; [auto|]. intros [H|(s & [] & _)]. exact H.
  - destruct (NFA.transition fuel self s token) as [ys [e|]] eqn:Et.
    + exists s. rewrite Et. auto.
    + specialize (IH (NFA.set_update acc ys)).
      destruct (NFA.matches_states fuel self token states (NFA.set_update acc ys))
        as [states'|e].
      * destruct IH as [H1 H2]. split.
        -- intros s0 [<-|Hs0]; [now rewrite Et | now apply H1].
        -- intros x. rewrite H2. unfold NFA.set_update.
           rewrite (dedup_In Nat.eqb Nat.eqb_eq). split.
           ++ intros [[Ha|Hy]|(s0 & Hs0 & Hx)]; auto.
              ** right. exists s. rewrite Et. auto.
              ** right. exists s0. auto.
           ++ intros [Ha|(s0 & [<-|Hs0] & Hx)]; auto.
              ** rewrite Et in Hx. auto.
              ** right. exists s0. auto.
      * destruct IH as (s0 & Hs0 & He). exists s0. auto.
Qed.

Lemma annotate_items_Ret (stack : list Entry) (token : Key)
    (items : list (list Grammar * nat)) :
  Forall (fun item => List.length (fst item) <= 1) items ->
  forall acc, exists acc',
    NFA.annotate_items stack token items acc = Ret acc'
    /\ map fst acc' = map fst acc ++ map snd items.
Proof.
  induction 1 as [|[emits q] items Hone _ IH]; intros acc; simpl.
  - exists acc. now rewrite app_nil_r.
  - simpl in Hone. destruct emits as [|rule [|r2 emits]]; [| |simpl in Hone; lia].
    + destruct (IH (acc ++ [(q, stack ++ [Plain token])])) as (acc' & -> & Hm).
      exists acc'. split; [reflexivity|].
      rewrite Hm, map_app. simpl. now rewrite <- app_assoc.
    + destruct (IH (acc ++ [(q, reduce_stack stack rule token)])) as (acc' & -> & Hm).
      exists acc'. split; [reflexivity|].
      rewrite Hm, map_app. simpl. now rewrite <- app_assoc.
Qed.

Lemma annotate_paths_spec (fuel : nat) (self : Table) (token : Key)
    (Hok : emits_ok self) (paths : list NFA.path) : forall acc,
  match NFA.annotate_paths fuel self token paths acc with
  | Ret paths' =>
      (forall p, In p paths -> snd (NFA.transition fuel self (fst p) token) = None)
      /\ (forall x, In x (map fst paths') <->
                    In x (map fst acc)
                    \/ exists p, In p paths
                                 /\ In x (fst (NFA.transition fuel self (fst p) token)))
  | Raise e =>
      exists p, In p paths /\ snd (NFA.transition fuel self (fst p) token) = Some e
  end.
Proof.
  induction paths as [|[state stack] paths IH]; intros acc; simpl.
  - split; [intros ? []|]. intros x. split; [auto|]. intros [H|(s & [] & _)]. exact H.
  - pose proof (trans_emit_transition self token fuel state []) as Htr.
    pose proof (Hok fuel state token) as Hitems.
    destruct (NFA.trans_emit fuel self state token []) as [items ending].
    simpl in Htr, Hitems.
    destruct (annotate_items_Ret stack token items Hitems acc) as (acc1 & -> & Hm).
    cbn [bind]. destruct ending as [e|].
    + exists (state, stack). simpl. rewrite Htr. auto.
    + specialize (IH acc1).
      destruct (NFA.annotate_paths fuel self token paths acc1) as [paths'|e].
      * destruct IH as [H1 H2]. split.
        -- intros p [<-|Hp]; [simpl; now rewrite Htr | now apply H1].
        -- intros x. rewrite H2, Hm, in_app_iff. split.
           ++ intros [[Ha|Hy]|(p & Hp & Hx)]; auto.
              ** right. exists (state, stack). simpl. rewrite Htr. auto.
              ** right. exists p. auto.
           ++ intros [Ha|(p & [<-|Hp] & Hx)]; auto.
              ** simpl in Hx. rewrite Htr in Hx. auto.
              ** right. exists p. auto.
      * destruct IH as (p & Hp & He). exists p. auto.
Qed.

Lemma collect_failures_total {order : SetOrder}
    (fuel : nat) (self : Table) (token : Key)
    (paths : list NFA.path) :
  (forall p, In p paths -> snd (NFA.transition fuel self (fst p) token) = None) ->
  exists failures, NFA.collect_failures fuel self token paths = Ret failures.
Proof.
  induction paths as [|[state stack] paths IH]; intros H; simpl.
  - now exists [].
  - pose proof (H (state, stack) (or_introl eq_refl)) as Hs. simpl in Hs.
    rewrite <- trans_expected_ending in Hs.
    destruct (NFA.trans_expected fuel self state token) as [ys ending].
    simpl in Hs. subst ending.
    destruct IH as (rest & ->); [intros p Hp; apply H; now right|].
    cbn [bind]. eexists. reflexivity.
Qed.

Lemma agree_step {order : SetOrder}
    (fuel : nat) (self : Table) (token : Key) (Hok : emits_ok self)
    (states : list nat) (paths : list NFA.path) :
  same_states states paths ->
  agree (NFA.matches_states fuel self token states [])
        (NFA.annotate_step fuel self paths token).
Proof.
  intros Hsame.
  pose proof (matches_states_spec fuel self token states []) as Hm.
  pose proof (annotate_paths_spec fuel self token Hok paths []) as Ha.
  unfold NFA.annotate_step.
  destruct (NFA.matches_states fuel self token states []) as [states'|e].
  - destruct Hm as [Hm1 Hm2].
    destruct (NFA.annotate_paths fuel self token paths []) as [paths'|e'].
    + destruct Ha as [Ha1 Ha2]. cbn [bind].
      assert (Hsame' : same_states states' paths').
      { intros x. rewrite Hm2, Ha2. simpl. split.
        - intros [[]|(s & Hs & Hx)]. right.
          apply Hsame in Hs. apply in_map_iff in Hs as (p & <- & Hp). exists p. auto.
        - intros [[]|(p & Hp & Hx)]. right. exists (fst p). split; [|assumption].
          apply Hsame. now apply in_map. }
      destruct paths' as [|p paths']; [|exact Hsame'].
      destruct (collect_failures_total fuel self token paths Ha1) as (failures & ->).
      cbn [bind]. unfold ParseError_init. simpl.
      destruct states' as [|x states']; [reflexivity|].
      exfalso. apply (Hsame' x). now left.
    + destruct Ha as (p & Hp & He). exfalso.
      assert (Hin : In (fst p) states) by (apply Hsame; now apply in_map).
      rewrite (Hm1 _ Hin) in He. discriminate He.
  - destruct Hm as (s & Hs & He).
    apply Hsame in Hs. apply in_map_iff in Hs as (p & <- & Hp).
    destruct (NFA.annotate_paths fuel self token paths []) as [paths'|e'].
    + destruct Ha as [Ha1 _]. rewrite (Ha1 p Hp) in He. discriminate He.
    + destruct Ha as (p' & _ & He'). cbn [bind]. simpl. intros fs.
      apply walk_exn_not_ParseError. rewrite <- He'. apply transition_kind.
Qed.

Lemma matches_loop_nil (fuel : nat) (self : Table) (tokens : list Key) :
  NFA.matches_loop fuel self tokens [] = Ret [].
Proof.
  unfold NFA.matches_loop. induction tokens as [|token tokens IH]; simpl; auto.
Qed.

Lemma agree_loop {order : SetOrder} (fuel : nat) (self : Table) (Hok : emits_ok self)
    (tokens : list Key) : forall states paths,
  same_states states paths ->
  agree (NFA.matches_loop fuel self tokens states)
        (NFA.annotate_loop fuel self tokens paths).
Proof.
  unfold NFA.matches_loop, NFA.annotate_loop.
  induction tokens as [|token tokens IH]; intros states paths Hsame; [exact Hsame|].
  cbn [foldM].
  pose proof (agree_step fuel self token Hok states paths Hsame) as Hstep.
  destruct (NFA.matches_states fuel self token states []) as [states'|e],
           (NFA.annotate_step fuel self paths token) as [paths'|e']; cbn [bind];
    simpl in Hstep.
  - now apply IH.
  - destruct e'; try contradiction. subst states'.
    fold (NFA.matches_loop fuel self tokens []). now rewrite matches_loop_nil.
  - contradiction.
  - exact Hstep.
Qed.

Lemma matches_loop_END (fuel : nat) (self : Table) (tokens : list string)
    (states states' : list nat) :
  END_yields_last self ->
  NFA.matches_loop fuel self (NFA.stream tokens) states = Ret states' ->
  Forall (fun q => NFA.is_last self q = true) states'.
Proof.
  intros Hend. unfold NFA.matches_loop, NFA.stream. rewrite foldM_app. intros H.
  destruct (foldM (fun states token => NFA.matches_states fuel self token states [])
                  (map Word tokens) states) as [before|e]; cbn [bind foldM] in H;
    [|discriminate].
  pose proof (matches_states_spec fuel self (Tok END) before []) as Hm.
  destruct (NFA.matches_states fuel self (Tok END) before []) as [after|e];
    cbn [bind] in H; [|discriminate].
  injection H as <-. destruct Hm as [_ Hm].
  apply Forall_forall. intros x Hx. apply Hm in Hx as [[]|(s & _ & Hx)].
  pose proof (Hend fuel s) as Hl. rewrite Forall_forall in Hl. now apply Hl.
Qed.

(** The two executors agree on every table that obeys the discipline. *)
Lemma matches_iff_annotate_table {order : SetOrder}
    (fuel : nat) (self : Table) (tokens : list string) :
  emits_ok self -> END_yields_last self ->
  (NFA.matches fuel self tokens = Ret true <->
   exists stacks, NFA.annotate fuel self tokens = Ret stacks /\ stacks <> [])
  /\ (NFA.matches fuel self tokens = Ret false <->
      exists fs, NFA.annotate fuel self tokens = Raise (ParseError fs))
  /\ ((exists e, NFA.matches fuel self tokens = Raise e) <->
      exists e, NFA.annotate fuel self tokens = Raise e
                /\ forall fs, e <> ParseError fs).
Proof.
  intros Hok Hend.
  assert (Hinit : same_states [0] [(0, [])]) by (intros x; reflexivity).
  pose proof (agree_loop fuel self Hok (NFA.stream tokens) _ _ Hinit) as Hag.
  pose proof (matches_loop_END fuel self tokens [0]) as Hlast.
  pose proof (annotate_loop_END fuel self tokens) as Hnonempty.
  unfold NFA.matches, NFA.annotate.
  destruct (NFA.matches_loop fuel self (NFA.stream tokens) [0]) as [states|e],
           (NFA.annotate_loop fuel self (NFA.stream tokens) [(0, [])]) as [paths|e'];
    cbn [bind]; simpl in Hag; try contradiction.
  - specialize (Hlast states Hend eq_refl).
    destruct (Hnonempty paths eq_refl) as (before & _ & Hstep).
    apply annotate_step_Ret in Hstep as [_ Hne].
    destruct paths as [|p paths]; [contradiction|].
    assert (Hs : existsb (NFA.is_last self) states = true).
    { apply existsb_exists. exists (fst p). split; [apply Hag; now left|].
      rewrite Forall_forall in Hlast. apply Hlast. apply Hag. now left. }
    rewrite Hs. split; [|split]; split.
    + intros _. eexists. split; [reflexivity | discriminate].
    + reflexivity.
    + discriminate.
    + intros (fs & Hfs). discriminate Hfs.
    + intros (e & He). discriminate He.
    + intros (e & He & _). discriminate He.
  - destruct e'; try contradiction. subst states. simpl. split; [|split]; split.
    + discriminate.
    + intros (stacks & Hst & _). discriminate Hst.
    + intros _. now eexists.
    + reflexivity.
    + intros (e & He). discriminate He.
    + intros (e & He & Hne). injection He as <-. now contradiction (Hne args).
  - split; [|split]; split; try discriminate.
    + intros (stacks & Hst & _). discriminate Hst.
    + intros (fs & Hfs). injection Hfs as ->. now contradiction (Hag fs).
    + intros _. exists e'. auto.
    + intros _. now exists e.
Qed.

(** C1.  On every grammar, and so on every grammar a string compiles to,
    [matches] returns true exactly when [annotate] returns a list holding
    at least one interpretation, and [matches] returns false exactly when
    [annotate] raises [ParseError]; [matches] raises exactly when
    [annotate] raises another exception.  All three for the same tokens
    and the same recursion limit. *)
Theorem matches_iff_annotate {order : SetOrder}
    (fuel : nat) (self : Grammar) (tokens : list string) :
  (Grammar_matches fuel self tokens = Ret true <->
   exists stacks, Grammar_annotate fuel self tokens = Ret stacks /\ stacks <> [])
  /\ (Grammar_matches fuel self tokens = Ret false <->
      exists fs, Grammar_annotate fuel self tokens = Raise (ParseError fs))
  /\ ((exists e, Grammar_matches fuel self tokens = Raise e) <->
      exists e, Grammar_annotate fuel self tokens = Raise e
                /\ forall fs, e <> ParseError fs).
Proof.
  unfold Grammar_matches, Grammar_annotate.
  destruct (to_nfa_ok self) as (t & -> & Hok). cbn [bind].
  apply matches_iff_annotate_table;
    [now apply frag_ok_emits_ok | now apply frag_ok_END_yields_last].
Qed.

(** * Further properties *)

(** ** The tokenizer never fails and splits unquoted lines into words *)

Lemma append_last_nonempty (toks : list (list ascii)) (c : ascii) :
  toks <> [] -> exists r, append_last toks c = Ret r /\ r <> [].
Proof.
  induction toks as [|t toks IH]; intros H; [contradiction|].
  destruct toks as [|t' toks].
  - exists [t ++ [c]]. split; [reflexivity | discriminate].
  - destruct IH as (r & Hr & _); [discriminate|].
    exists (t :: r). split; [|discriminate].
    change (append_last (t :: t' :: toks) c)
      with (r0 <- append_last (t' :: toks) c ;; Ret (t :: r0)).
    now rewrite Hr.
Qed.

Lemma split_step_ok (st : scanner) (c : ascii) :
  scanner_ok st -> exists st', split_step st c = Ret st' /\ scanner_ok st'.
Proof.
  intros Hok. unfold split_step, scanner_ok in *.
  destruct st as [[q|] it toks]; simpl in *.
  - assert (Hne : toks <> []) by (apply Hok; left; discriminate).
    destruct (c =? q)%char.
    + eexists. split; [reflexivity|]. simpl. intros _. exact Hne.
    + destruct (append_last_nonempty toks c Hne) as (r & -> & Hr).
      eexists. split; [reflexivity|]. simpl. intros _. exact Hr.
  - destruct (is_quote c).
    + destruct it.
      * destruct (append_last_nonempty toks c) as (r & -> & Hr); [apply Hok; now right|].
        eexists. split; [reflexivity|]. simpl. intros _. exact Hr.
      * eexists. split; [reflexivity|]. simpl. intros _. now destruct toks.
    + destruct (is_space c).
      * eexists. split; [reflexivity|]. simpl. intros [H|H]; [now contradiction H|].
        discriminate H.
      * destruct it.
        -- destruct (append_last_nonempty toks c) as (r & -> & Hr);
             [apply Hok; now right|].
           eexists. split; [reflexivity|]. simpl. intros _. exact Hr.
        -- eexists. split; [reflexivity|]. simpl. intros _. now destruct toks.
Qed.

Lemma split_loop_ok (s : string) : forall st,
  scanner_ok st -> exists st', split_loop st s = Ret st' /\ scanner_ok st'.
Proof.
  induction s as [|c s IH]; intros st Hok; simpl.
  - now exists st.
  - destruct (split_step_ok st c Hok) as (st1 & -> & Hok1). cbn [bind].
    now apply IH.
Qed.

(** X1.  [split_args] returns a list of tokens for every string: none of
    its accesses to the last token is made on an empty list. *)
Theorem split_args_total (s : string) : exists toks, split_args s = Ret toks.
Proof.
  unfold split_args.
  destruct (split_loop_ok s (mkScanner None false [])) as (st & -> & _).
  - intros [H|H]; [now contradiction H | discriminate H].
  - cbn [bind]. eexists. reflexivity.
Qed.

Lemma split_loop_in_token (s : string) :
  forall toks w,
  string_forallb (fun c => negb (is_space c)) s = true ->
  split_loop (mkScanner None true (toks ++ [w])) s
  = Ret (mkScanner None true (toks ++ [w ++ list_ascii_of_string s])).
Proof.
  induction s as [|c s IH]; intros toks w H; simpl in *.
  - now rewrite app_nil_r.
  - apply andb_prop in H as [Hc Hs]. apply negb_true_iff in Hc.
    unfold split_step; simpl. rewrite Hc.
    destruct (is_quote c); rewrite append_last_snoc; simpl;
      rewrite IH by assumption; now rewrite <- app_assoc.
Qed.

(** X2.  A run of characters without whitespace that starts with a
    character other than a quote is one token, kept verbatim: a quote
    character inside an unquoted token is an ordinary character. *)
Theorem split_args_quote_inside_token (c : ascii) (s : string)
    (Hc : is_plain c = true)
    (Hs : string_forallb (fun x => negb (is_space x)) s = true) :
  split_args (String c s) = Ret [String c s].
Proof.
  unfold is_plain in Hc. apply andb_prop in Hc as [Hsp Hqu].
  apply negb_true_iff in Hsp, Hqu.
  unfold split_args. rewrite split_loop_cons. unfold split_step; simpl.
  rewrite Hqu, Hsp. cbn [bind].
  pose proof (split_loop_in_token s [] [c] Hs) as Hloop. simpl in Hloop.
  simpl. rewrite Hloop. simpl.
  now rewrite string_of_list_ascii_of_string.
Qed.

Lemma split_args_quote_inside_token_witness :
  split_args "don't" = Ret ["don't"].
Proof. apply (split_args_quote_inside_token "d"%char "on't"); reflexivity. Defined.

Lemma split_loop_blank (s : string) (toks : list (list ascii)) (it : bool) :
  string_forallb is_space s = true ->
  split_loop (mkScanner None it toks) s
  = Ret (mkScanner None (match s with EmptyString => it | _ => false end) toks).
Proof.
  revert it. induction s as [|c s IH]; intros it H; simpl in *; [reflexivity|].
  apply andb_prop in H as [Hc Hs].
  rewrite split_step_space by assumption. cbn [bind].
  rewrite IH by assumption. now destruct s.
Qed.

(** X3.  A line made of whitespace only, the empty line included, has no
    token. *)
Theorem split_args_blank (s : string) (Hs : string_forallb is_space s = true) :
  split_args s = Ret [].
Proof. unfold split_args. now rewrite split_loop_blank. Qed.

Lemma split_args_blank_witness : split_args "   " = Ret [].
Proof. apply (split_args_blank "   "). reflexivity. Defined.

Lemma split_loop_join (sep : ascii) (words : list string) :
  is_space sep = true -> Forall plain_word words ->
  forall toks,
  split_loop (mkScanner None false toks) (join_words sep words)
  = Ret (mkScanner None (match words with [] => false | _ => true end)
           (toks ++ map list_ascii_of_string words)).
Proof.
  intros Hsep. induction 1 as [|w words [Hne Hw] Hrest IH]; intros toks.
  - simpl. now rewrite app_nil_r.
  - destruct w as [|c w]; [contradiction|].
    destruct words as [|w2 words].
    + simpl join_words. now rewrite split_loop_new_word.
    + change (join_words sep (String c w :: w2 :: words))
        with (String c w ++ String sep (join_words sep (w2 :: words)))%string.
      rewrite split_loop_app, split_loop_new_word by assumption. cbn [bind].
      rewrite split_loop_cons, split_step_space by assumption. cbn [bind].
      rewrite IH. simpl. now rewrite <- app_assoc.
Qed.

(** X4.  Splitting undoes joining: words that hold neither whitespace
    nor quotes, joined by one whitespace character, are split back into
    the same words. *)
Theorem split_args_join (sep : ascii) (words : list string)
    (Hsep : is_space sep = true) (Hwords : Forall plain_word words) :
  split_args (join_words sep words) = Ret words.
Proof.
  unfold split_args. rewrite split_loop_join by assumption. cbn [bind tokens app].
  f_equal. rewrite map_map. clear Hwords.
  induction words as [|w words IH]; simpl; [reflexivity|].
  now rewrite string_of_list_ascii_of_string, IH.
Qed.

Lemma split_args_join_witness :
  split_args "give sword to guard" = Ret ["give"; "sword"; "to"; "guard"].
Proof.
  apply (split_args_join " "%char ["give"; "sword"; "to"; "guard"]); [reflexivity|].
  repeat constructor; discriminate.
Defined.

(** ** What [_string_index] computes *)

Lemma last_cons_default {A : Type} (l : list A) : forall a d d',
  last (a :: l) d = last (a :: l) d'.
Proof.
  induction l as [|b l IH]; intros a d d'; [reflexivity|].
  change (last (b :: l) d = last (b :: l) d'). apply IH.
Qed.

Lemma cumsum_loop_app (l1 l2 : list (option string)) : forall prev cumsum,
  cumsum_loop prev cumsum (l1 ++ l2)
  = cumsum_loop (last (map token_length l1) prev) (cumsum_loop prev cumsum l1) l2.
Proof.
  induction l1 as [|x l1 IH]; intros prev cumsum; [reflexivity|].
  cbn [app cumsum_loop]. rewrite IH. f_equal.
  destruct l1 as [|y l1]; [reflexivity|].
  change (last (map token_length (x :: y :: l1)) prev)
    with (last (map token_length (y :: l1)) prev).
  simpl map. apply last_cons_default.
Qed.

(** X5.  [_string_index] returns the sum of the lengths of the two tokens
    just before the position, whatever comes earlier: the length of the
    first token at position 1, and 0 at position 0. *)
Theorem string_index_last_two (before after : list (option string))
    (a b : option string) :
  _string_index (List.length before + 2) (before ++ a :: b :: after)
  = token_length b + token_length a
  /\ _string_index 1 (a :: after) = token_length a
  /\ _string_index 0 after = 0.
Proof.
  split; [|split].
  - unfold _string_index.
    replace (firstn (List.length before + 2) (before ++ a :: b :: after))
      with ((before ++ [a]) ++ [b]).
    + rewrite cumsum_loop_app. simpl. rewrite last_last.
      rewrite map_app. simpl. now rewrite last_last.
    + rewrite firstn_app.
      replace (List.length before + 2 - List.length before) with 2 by lia.
      rewrite firstn_all2 by lia. simpl. now rewrite <- app_assoc.
  - unfold _string_index. simpl. lia.
  - reflexivity.
Qed.

(** ** The reader raises nothing but [ValueError] and builds well-formed
       grammars *)

Lemma parse_token_safe (tokens : list (option string)) (i : nat) (tok : string)
    (stack : list GroupObj.t) :
  stack <> [] ->
  match parse_token tokens i tok stack with
  | Ret stack' => stack' <> []
  | Raise e => exists m, e = ValueError m
  end.
Proof.
  intros Hne. destruct stack as [|top below]; [contradiction|].
  unfold parse_token.
  destruct (islower tok); [simpl; discriminate|].
  destruct (isupper tok); [simpl; discriminate|].
  destruct (tok =? "(")%string; [discriminate|].
  destruct (tok =? ")")%string.
  { unfold GroupObj.cleanup.
    destruct (GroupObj.args top), (GroupObj.alts top), below; simpl;
      try discriminate; eexists; reflexivity. }
  destruct (tok =? "|")%string.
  { unfold GroupObj.add_alternative. destruct (GroupObj.args top); simpl;
      [eexists; reflexivity | discriminate]. }
  assert (Hq : forall Q,
             match (top' <- GroupObj.quantify_last top Q ;; Ret (top' :: below)) with
             | Ret stack' => stack' <> []
             | Raise e => exists m, e = ValueError m
             end).
  { intros Q. unfold GroupObj.quantify_last.
    destruct (rev (GroupObj.args top)) as [|lastg front]; simpl;
      [eexists; reflexivity|].
    destruct (is_quantified lastg); simpl; [eexists; reflexivity | discriminate]. }
  destruct (tok =? "*")%string; [apply Hq|].
  destruct (tok =? "+")%string; [apply Hq|].
  destruct (tok =? "?")%string; [apply Hq|].
  eexists. reflexivity.
Qed.

Lemma parse_loop_safe (tokens : list (option string)) (todo : list (option string)) :
  forall i stack, stack <> [] ->
  match parse_loop tokens i todo stack with
  | Ret stack' => stack' <> []
  | Raise e => exists m, e = ValueError m
  end.
Proof.
  induction todo as [|token todo IH]; intros i stack Hne; [exact Hne|].
  cbn [parse_loop]. destruct token as [[|c tok]|]; try (now apply IH).
  pose proof (parse_token_safe tokens i (String c tok) stack Hne) as Ht.
  destruct (parse_token tokens i (String c tok) stack) as [stack'|e]; cbn [bind].
  - now apply IH.
  - exact Ht.
Qed.

(** X6.  Whatever the grammar string, the reader returns a grammar or
    raises [ValueError]: its stack of open groups is never empty when it
    is read or popped. *)
Theorem parse_grammar_raises_ValueError (grammar : string) (e : exn)
    (H : _parse_grammar grammar = Raise e) :
  exists m, e = ValueError m.
Proof.
  unfold _parse_grammar in H.
  pose proof (parse_loop_safe (re_split [] grammar) (re_split [] grammar) 0
                [GroupObj.empty]) as Hl.
  destruct (parse_loop (re_split [] grammar) 0 (re_split [] grammar) [GroupObj.empty])
    as [stack|e'] eqn:El; cbn [bind] in H.
  - specialize (Hl ltac:(discriminate)).
    destruct stack as [|root [|g stack]]; [contradiction| |].
    + unfold GroupObj.cleanup in H.
      destruct (GroupObj.args root), (GroupObj.alts root); simpl in H;
        try discriminate; injection H as <-; eexists; reflexivity.
    + injection H as <-. eexists. reflexivity.
  - injection H as <-. apply Hl. discriminate.
Qed.

Lemma parse_grammar_raises_ValueError_witness :
  exists m, ValueError EmptyGroup = ValueError m.
Proof. apply (parse_grammar_raises_ValueError "()"). reflexivity. Defined.

Lemma open_group_add (g : GroupObj.t) (x : Grammar) :
  open_group_ok g -> wf_grammar x -> open_group_ok (GroupObj.add g x).
Proof.
  intros (Ha & Hl & Hn) Hx. unfold open_group_ok, GroupObj.add. simpl.
  split; [|auto]. apply Forall_app. auto.
Qed.

Lemma open_group_cleanup (g g' : GroupObj.t) :
  open_group_ok g -> GroupObj.cleanup g = Ret g' ->
  wf_grammar (GroupObj.to_grammar g').
Proof.
  intros (Ha & Hl & Hn) H. unfold GroupObj.cleanup in H.
  destruct (GroupObj.args g) as [|a args] eqn:Ea;
    destruct (GroupObj.alts g) as [|alt alts] eqn:El; try discriminate;
    injection H as <-; unfold GroupObj.to_grammar.
  - rewrite Ea, El. apply wf_group; [left; split; [discriminate | reflexivity]| |];
      assumption.
  - cbn [GroupObj.args GroupObj.alts].
    change (alt :: alts ++ [a :: args]) with ((alt :: alts) ++ [a :: args]).
    apply wf_group.
    + right. split; [reflexivity|]. split.
      * rewrite length_app. simpl. lia.
      * apply Forall_app. split; [assumption|]. repeat constructor. discriminate.
    + constructor.
    + apply Forall_app. split; [assumption|].
      apply Forall_cons; [assumption | constructor].
Qed.

Lemma open_group_add_alternative (g g' : GroupObj.t) :
  open_group_ok g -> GroupObj.add_alternative g = Ret g' -> open_group_ok g'.
Proof.
  intros (Ha & Hl & Hn) H. unfold GroupObj.add_alternative in H.
  destruct (GroupObj.args g) as [|a args] eqn:Ea; [discriminate|].
  injection H as <-. unfold open_group_ok. simpl.
  split; [constructor|]. split.
  - apply Forall_app. split; [assumption|].
    apply Forall_cons; [assumption | constructor].
  - apply Forall_app. split; [assumption|].
    apply Forall_cons; [discriminate | constructor].
Qed.

Lemma open_group_quantify_last (g g' : GroupObj.t) (Q : Grammar -> Grammar) :
  (forall x, is_quantified x = false -> wf_grammar x -> wf_grammar (Q x)) ->
  open_group_ok g -> GroupObj.quantify_last g Q = Ret g' -> open_group_ok g'.
Proof.
  intros HQ (Ha & Hl & Hn) H. unfold GroupObj.quantify_last in H.
  destruct (rev (GroupObj.args g)) as [|lastg front] eqn:Er; [discriminate|].
  destruct (is_quantified lastg) eqn:Eq; [discriminate|].
  injection H as <-. unfold open_group_ok. simpl.
  split; [|auto].
  assert (Hargs : GroupObj.args g = rev front ++ [lastg]).
  { rewrite <- (rev_involutive (GroupObj.args g)), Er. reflexivity. }
  rewrite Hargs in Ha. apply Forall_app in Ha as [Hf Hlast].
  apply Forall_app. split; [assumption|].
  inversion Hlast; subst. repeat constructor. now apply HQ.
Qed.

Lemma parse_token_ok (tokens : list (option string)) (i : nat) (tok : string)
    (stack stack' : list GroupObj.t) :
  Forall open_group_ok stack ->
  parse_token tokens i tok stack = Ret stack' ->
  Forall open_group_ok stack'.
Proof.
  intros Hs H. unfold parse_token in H.
  destruct (islower tok) eqn:Elow.
  { destruct stack as [|top below]; [discriminate|]. simpl in H. injection H as <-.
    inversion Hs; subst. constructor; [|assumption].
    apply open_group_add; [assumption | now constructor]. }
  destruct (isupper tok) eqn:Eup.
  { destruct stack as [|top below]; [discriminate|]. simpl in H. injection H as <-.
    inversion Hs; subst. constructor; [|assumption].
    apply open_group_add; [assumption | now constructor]. }
  destruct (tok =? "(")%string.
  { injection H as <-. constructor; [|assumption].
    unfold open_group_ok. simpl. auto. }
  destruct (tok =? ")")%string.
  { destruct stack as [|fin below]; [discriminate|]. inversion Hs; subst.
    destruct (GroupObj.cleanup fin) as [fin'|e] eqn:Ec; cbn [bind] in H;
      [|discriminate].
    destruct below as [|top below]; [discriminate|]. injection H as <-.
    match goal with Hb : Forall open_group_ok (top :: below) |- _ =>
      inversion Hb; subst end.
    constructor; [|assumption].
    apply open_group_add; [assumption | now apply open_group_cleanup with (g := fin)]. }
  assert (Hon : forall f,
             (forall g g', open_group_ok g -> f g = Ret g' -> open_group_ok g') ->
             match stack with
             | [] => Raise IndexError
             | top :: below => top' <- f top ;; Ret (top' :: below)
             end = Ret stack' -> Forall open_group_ok stack').
  { intros f Hf Hr. destruct stack as [|top below]; [discriminate|].
    inversion Hs; subst.
    destruct (f top) as [top'|e] eqn:Ef; cbn [bind] in Hr; [|discriminate].
    injection Hr as <-. constructor; [|assumption]. now apply Hf with (g := top). }
  destruct (tok =? "|")%string.
  { apply (Hon GroupObj.add_alternative); [apply open_group_add_alternative | exact H]. }
  destruct (tok =? "*")%string.
  { apply (Hon (fun top => GroupObj.quantify_last top Star)); [|exact H].
    intros g g'. apply open_group_quantify_last. intros x. apply wf_star. }
  destruct (tok =? "+")%string.
  { apply (Hon (fun top => GroupObj.quantify_last top Plus)); [|exact H].
    intros g g'. apply open_group_quantify_last. intros x. apply wf_plus. }
  destruct (tok =? "?")%string.
  { apply (Hon (fun top => GroupObj.quantify_last top Optional)); [|exact H].
    intros g g'. apply open_group_quantify_last. intros x. apply wf_optional. }
  discriminate.
Qed.

Lemma parse_loop_ok (tokens : list (option string)) (todo : list (option string)) :
  forall i stack stack',
  Forall open_group_ok stack ->
  parse_loop tokens i todo stack = Ret stack' ->
  Forall open_group_ok stack'.
Proof.
  induction todo as [|token todo IH]; intros i stack stack' Hs H.
  - now injection H as <-.
  - cbn [parse_loop] in H. destruct token as [[|c tok]|]; try (now apply IH in H).
    destruct (parse_token tokens i (String c tok) stack) as [stack1|e] eqn:Et;
      cbn [bind] in H; [|discriminate].
    apply IH in H; [assumption|]. now apply parse_token_ok in Et.
Qed.

(** X7.  A grammar the reader returns is well formed, at every depth:
    its keywords are lowercase words and its variables hold one
    uppercase name; no quantifier wraps another quantifier; every group
    is either a non-empty sequence or at least two alternatives, none of
    them empty. *)
Theorem parse_grammar_well_formed (grammar : string) (g : Grammar)
    (H : from_string grammar = Ret g) :
  wf_grammar g.
Proof.
  unfold from_string, _parse_grammar in H.
  destruct (parse_loop (re_split [] grammar) 0 (re_split [] grammar) [GroupObj.empty])
    as [stack|e] eqn:El; cbn [bind] in H; [|discriminate].
  apply parse_loop_ok in El.
  - destruct stack as [|root [|g2 stack]]; try discriminate.
    destruct (GroupObj.cleanup root) as [root'|e] eqn:Ec; cbn [bind] in H;
      [|discriminate].
    injection H as <-. inversion El; subst.
    now apply open_group_cleanup with (g := root).
  - repeat constructor.
Qed.

Lemma parse_grammar_well_formed_witness :
  wf_grammar (Group [Keyword "give"; Group [Variable_ ["ITEM"]] []; Keyword "to";
                     Group [] [[Variable_ ["CHARACTER"]]; [Variable_ ["ENTITY"]]]] []).
Proof.
  apply (parse_grammar_well_formed "give (ITEM) to (CHARACTER|ENTITY)"). reflexivity.
Defined.

(** ** The reader on blank strings and on single words *)

Lemma space_not_special (c : ascii) : is_space c = true -> is_special c = false.
Proof.
  unfold is_space. intros H.
  repeat (apply orb_prop in H as [H|H]); apply Ascii.eqb_eq in H; subst c; reflexivity.
Qed.

Lemma parse_loop_blank (s : string) :
  string_forallb is_space s = true ->
  forall tokens i stack, parse_loop tokens i (re_split [] s) stack = Ret stack.
Proof.
  induction s as [|c s IH]; intros H tokens i stack; [reflexivity|].
  simpl in H. apply andb_prop in H as [Hc Hs].
  cbn [re_split]. rewrite (space_not_special c Hc), Hc.
  cbn [string_of_list_ascii parse_loop]. now apply IH.
Qed.

(** X8.  A grammar string made of whitespace only, the empty string
    included, is rejected as an empty group. *)
Theorem parse_grammar_blank (grammar : string)
    (H : string_forallb is_space grammar = true) :
  from_string grammar = Raise (ValueError EmptyGroup).
Proof.
  unfold from_string, _parse_grammar. now rewrite parse_loop_blank.
Qed.

Lemma parse_grammar_blank_witness :
  from_string "  " = Raise (ValueError EmptyGroup).
Proof. apply (parse_grammar_blank "  "). reflexivity. Defined.

Lemma re_split_word (w : string) : forall piece,
  string_forallb is_word_char w = true ->
  re_split piece w = [Some (string_of_list_ascii (piece ++ list_ascii_of_string w))].
Proof.
  induction w as [|c w IH]; intros piece H; simpl in *.
  - now rewrite app_nil_r.
  - apply andb_prop in H as [Hc Hw]. unfold is_word_char in Hc.
    apply andb_prop in Hc as [Hsp Hws]. apply negb_true_iff in Hsp, Hws.
    rewrite Hsp, Hws, IH by assumption. now rewrite <- app_assoc.
Qed.

Lemma word_is_no_special_token (c : ascii) (w : string) :
  is_special c = false ->
  (String c w =? "(")%string = false /\ (String c w =? ")")%string = false
  /\ (String c w =? "|")%string = false /\ (String c w =? "*")%string = false
  /\ (String c w =? "+")%string = false /\ (String c w =? "?")%string = false.
Proof.
  unfold is_special. intros H.
  repeat (apply orb_false_elim in H as [H ?]).
  repeat split; simpl;
    match goal with
    | E : (c =? ?x)%char = false |- (if (c =? ?x)%char then _ else _) = false =>
        now rewrite E
    end.
Qed.

Lemma in_codes_above (lo hi : nat) (c : ascii) :
  is_ascii c = true -> 128 <= lo -> in_codes lo hi c = false.
Proof.
  unfold is_ascii, in_codes. intros H Hlo. apply Nat.ltb_lt in H.
  destruct (Nat.leb_spec lo (nat_of_ascii c)); [lia | reflexivity].
Qed.

(** On the characters below 128 the cased letters are the 26 letters. *)
Lemma case_of_ascii (c : ascii) :
  is_ascii c = true ->
  is_lower_char c = in_codes 97 122 c /\ is_upper_char c = in_codes 65 90 c.
Proof.
  intros H. unfold is_lower_char, is_upper_char.
  rewrite (in_codes_above 170 170 c H), (in_codes_above 181 181 c H),
    (in_codes_above 186 186 c H), (in_codes_above 223 246 c H),
    (in_codes_above 248 255 c H), (in_codes_above 192 214 c H),
    (in_codes_above 216 222 c H) by lia.
  now rewrite !orb_false_r.
Qed.

Lemma case_of_ascii_string (w : string) :
  string_forallb is_ascii w = true ->
  islower w = has_small_letter w && negb (has_capital_letter w)
  /\ isupper w = has_capital_letter w && negb (has_small_letter w).
Proof.
  intros H. unfold islower, isupper, has_small_letter, has_capital_letter.
  assert (E : string_existsb is_lower_char w = string_existsb (in_codes 97 122) w
              /\ string_existsb is_upper_char w = string_existsb (in_codes 65 90) w).
  { induction w as [|c w IH]; [split; reflexivity|]. simpl in H.
    apply andb_prop in H as [Hc Hw]. destruct (IH Hw) as [IH1 IH2].
    destruct (case_of_ascii c Hc) as [E1 E2]. simpl.
    now rewrite E1, E2, IH1, IH2. }
  destruct E as [-> ->]. split; reflexivity.
Qed.

(** X9.  A grammar made of a single word of characters below 128,
    without special character or whitespace, is a group holding one
    keyword when the word has a letter a to z and no letter A to Z, and
    one variable when it has a letter A to Z and no letter a to z; a
    word of mixed case, or without any letter, is rejected as an
    unrecognized token at index 0. *)
Theorem parse_grammar_single_word (w : string)
    (Hne : w <> EmptyString) (Hw : string_forallb is_word_char w = true)
    (Hascii : string_forallb is_ascii w = true) :
  from_string w
  = if has_small_letter w && negb (has_capital_letter w)
    then Ret (Group [Keyword w] [])
    else if has_capital_letter w && negb (has_small_letter w)
    then Ret (Group [Variable_ [w]] [])
    else Raise (ValueError (UnrecognizedToken w 0)).
Proof.
  destruct (case_of_ascii_string w Hascii) as [<- <-].
  unfold from_string, _parse_grammar.
  rewrite (re_split_word w []) by assumption. simpl app.
  rewrite string_of_list_ascii_of_string.
  destruct w as [|c w]; [contradiction|].
  cbn [parse_loop]. unfold parse_token.
  destruct (islower (String c w)); [reflexivity|].
  destruct (isupper (String c w)); [reflexivity|].
  simpl in Hw. apply andb_prop in Hw as [Hc _]. unfold is_word_char in Hc.
  apply andb_prop in Hc as [Hsp _]. apply negb_true_iff in Hsp.
  destruct (word_is_no_special_token c w Hsp) as (E1 & E2 & E3 & E4 & E5 & E6).
  rewrite E1, E2, E3, E4, E5, E6. reflexivity.
Qed.

Lemma parse_grammar_single_word_witness :
  from_string "look" = Ret (Group [Keyword "look"] [])
  /\ from_string "ITEM" = Ret (Group [Variable_ ["ITEM"]] [])
  /\ from_string "Look" = Raise (ValueError (UnrecognizedToken "Look" 0)).
Proof.
  split; [|split].
  - apply (parse_grammar_single_word "look"); [discriminate | reflexivity | reflexivity].
  - apply (parse_grammar_single_word "ITEM"); [discriminate | reflexivity | reflexivity].
  - apply (parse_grammar_single_word "Look"); [discriminate | reflexivity | reflexivity].
Defined.

(** ** The sizes of the fragments *)

Lemma add_epsilon_at_length (t t' : Table) (i j : nat) :
  add_epsilon_at t i j = Ret t' -> List.length t' = List.length t.
Proof.
  unfold add_epsilon_at. destruct (nth_error t i) as [s|]; [|discriminate].
  destruct (_add_epsilon s j); cbn [bind]; [|discriminate].
  intros H. injection H as <-. apply length_set_nth.
Qed.

Lemma add_epsilon_last_length (t t' : Table) (j : nat) :
  add_epsilon_last t j = Ret t' -> List.length t' = List.length t.
Proof.
  unfold add_epsilon_last. destruct t; [discriminate|]. apply add_epsilon_at_length.
Qed.

Lemma shift_table_length (t : Table) (k : nat) :
  List.length (NFA._shift_table t k) = List.length t.
Proof. apply length_map. Qed.

(** X10.  A quantifier or the emitter, when it returns, adds a fixed
    number of states to its argument: two for [star] and [optional], one
    for [plus] and for [emitter]. *)
Theorem quantifier_sizes (nfa t : Table) (rule : Grammar) :
  (NFA.star nfa = Ret t -> List.length t = List.length nfa + 2)
  /\ (NFA.optional nfa = Ret t -> List.length t = List.length nfa + 2)
  /\ (NFA.plus nfa = Ret t -> List.length t = List.length nfa + 1)
  /\ (NFA.emitter nfa rule = Ret t -> List.length t = List.length nfa + 1).
Proof.
  split; [|split; [|split]].
  - unfold NFA.star. intros H.
    destruct (add_epsilon_last (NFA._shift_table nfa 1) 0) as [t1|] eqn:E1;
      cbn [bind] in H; [|discriminate].
    destruct (add_epsilon_last t1 (List.length t1 + 1)) as [t2|] eqn:E2;
      cbn [bind] in H; [|discriminate].
    injection H as <-. apply add_epsilon_last_length in E1, E2.
    cbn [List.length]. rewrite length_app, E2, E1, shift_table_length. simpl. lia.
  - unfold NFA.optional. intros H.
    destruct (add_epsilon_last (NFA._shift_table nfa 1) _) as [t1|] eqn:E1;
      cbn [bind] in H; [|discriminate].
    injection H as <-. apply add_epsilon_last_length in E1.
    cbn [List.length]. rewrite length_app, E1, shift_table_length. simpl. lia.
  - unfold NFA.plus. intros H.
    destruct (add_epsilon_last nfa 0) as [t1|] eqn:E1; cbn [bind] in H; [|discriminate].
    destruct (add_epsilon_last t1 (List.length t1)) as [t2|] eqn:E2;
      cbn [bind] in H; [|discriminate].
    injection H as <-. apply add_epsilon_last_length in E1, E2.
    rewrite length_app, E2, E1. reflexivity.
  - unfold NFA.emitter. intros H.
    destruct (add_epsilon_last nfa (List.length nfa)) as [t1|] eqn:E1;
      cbn [bind] in H; [|discriminate].
    injection H as <-. apply add_epsilon_last_length in E1.
    rewrite length_app, E1. reflexivity.
Qed.

Lemma quantifier_sizes_witness :
  List.length (variable_table (Variable_ ["ITEM"]))
  = List.length [mkState None None [(Tok ANY, 1)];
                 mkState None (Some [0; 2]) []; empty_state] + 1.
Proof.
  apply (quantifier_sizes
           [mkState None None [(Tok ANY, 1)]; mkState None (Some [0; 2]) []; empty_state]
           (variable_table (Variable_ ["ITEM"])) (Variable_ ["ITEM"])).
  reflexivity.
Defined.

Lemma concat_loop_length (rest : list Table) : forall first t,
  foldM (fun table nxt_nfa =>
           let nxt_table := NFA._shift_table nxt_nfa (List.length table) in
           table' <- add_epsilon_last table (List.length table) ;;
           Ret (table' ++ nxt_table)) rest first = Ret t ->
  List.length t = List.length first + list_sum (map (@List.length State) rest).
Proof.
  induction rest as [|y rest IH]; intros first t H.
  - injection H as <-. simpl. lia.
  - cbn [foldM] in H.
    destruct (add_epsilon_last first (List.length first)) as [t1|] eqn:E1;
      cbn [bind] in H; [|discriminate].
    apply IH in H. apply add_epsilon_last_length in E1.
    rewrite H, length_app, E1, shift_table_length. simpl. lia.
Qed.

Lemma union_loop_length (nfas : list Table) : forall table ends,
  0 < List.length table ->
  List.length (fst (fold_left NFA.union_step nfas (table, ends)))
  = List.length table + list_sum (map (@List.length State) nfas).
Proof.
  induction nfas as [|y nfas IH]; intros table ends Hlen; [simpl; lia|].
  assert (Hs : List.length (NFA.append_start table (List.length table))
               = List.length table) by (destruct table; reflexivity).
  change (fold_left NFA.union_step (y :: nfas) (table, ends))
    with (fold_left NFA.union_step nfas (NFA.union_step (table, ends) y)).
  unfold NFA.union_step at 2.
  rewrite IH by (rewrite length_app, Hs; lia).
  rewrite length_app, Hs, shift_table_length. simpl. lia.
Qed.

Lemma union_close_length (N : nat) (ends : list nat) : forall t t',
  foldM (fun table end_ => add_epsilon_at table end_ N) ends t = Ret t' ->
  List.length t' = List.length t.
Proof.
  induction ends as [|e ends IH]; intros t t' H.
  - now injection H as <-.
  - cbn [foldM] in H. destruct (add_epsilon_at t e N) as [t1|] eqn:E1;
      cbn [bind] in H; [|discriminate].
    apply IH in H. apply add_epsilon_at_length in E1. congruence.
Qed.

(** X11.  The table [concat] returns for a non-empty list has as many
    states as its arguments together, and the table [union] returns for
    two arguments or more has two states more than that: the new start
    and the new end.  For no argument both return the one-state table,
    and [union] returns a single argument as it is. *)
Theorem concat_union_sizes (first second : Table) (rest : list Table) (t : Table) :
  (NFA.concat (first :: rest) = Ret t ->
   List.length t = list_sum (map (@List.length State) (first :: rest)))
  /\ (NFA.union (first :: second :: rest) = Ret t ->
      List.length t
      = 2 + list_sum (map (@List.length State) (first :: second :: rest)))
  /\ NFA.concat [] = Ret [empty_state]
  /\ NFA.union [] = Ret [empty_state]
  /\ NFA.union [first] = Ret first.
Proof.
  split; [|split; [|repeat split]].
  - unfold NFA.concat. intros H. apply concat_loop_length in H. simpl. lia.
  - unfold NFA.union. intros H.
    pose proof (union_loop_length (first :: second :: rest)
                  [mkState None (Some []) []] [] ltac:(simpl; lia)) as Hl.
    destruct (fold_left NFA.union_step (first :: second :: rest)
                        ([mkState None (Some []) []], [])) as [table ends].
    apply union_close_length in H. simpl fst in Hl.
    rewrite H, length_app, Hl. simpl. lia.
Qed.

Lemma concat_union_sizes_witness :
  List.length [mkState None None [(Word "a", 1)]; mkState None (Some [2]) [];
               mkState None None [(Word "b", 3)]; empty_state] = 2 + (2 + 0).
Proof.
  apply (concat_union_sizes (NFA.match_on (Word "a")) [] [NFA.match_on (Word "b")]).
  reflexivity.
Defined.

Lemma mapM_measure {A B : Type} (f : A -> result B) (m : B -> nat) (s : A -> nat)
    (l : list A) :
  Forall (fun x => forall y, f x = Ret y -> m y = s x) l ->
  forall ys, mapM f l = Ret ys -> map m ys = map s l.
Proof.
  induction 1 as [|x l Hx _ IH]; intros ys H; simpl in H.
  - now injection H as <-.
  - destruct (f x) as [y|] eqn:Ey; cbn [bind] in H; [|discriminate].
    destruct (mapM f l) as [ys'|]; cbn [bind] in H; [|discriminate].
    injection H as <-. simpl. now rewrite (Hx y eq_refl), (IH ys' eq_refl).
Qed.

Lemma sequence_size (l : list Grammar) (t : Table) :
  Forall (fun g => forall t, to_nfa g = Ret t -> List.length t = states g) l ->
  (ns <- mapM to_nfa l ;; NFA.concat ns) = Ret t ->
  List.length t = match l with
                  | [] => 1
                  | _ :: _ => list_sum (map states l)
                  end.
Proof.
  intros Hl H.
  destruct (mapM to_nfa l) as [ns|] eqn:Em; cbn [bind] in H; [|discriminate].
  pose proof (mapM_measure to_nfa (@List.length State) states l Hl ns Em) as Hm.
  destruct l as [|g l].
  - simpl in Em. injection Em as <-. now injection H as <-.
  - destruct ns as [|n ns]; [discriminate Hm|].
    rewrite <- Hm. now apply (concat_union_sizes n n ns t).
Qed.

Lemma to_nfa_states (g : Grammar) :
  forall t, to_nfa g = Ret t -> List.length t = states g.
Proof.
  induction g as [inner | inner | inner IH | inner IH | inner IH | args alts IHargs IHalts]
    using Grammar_rect_nested; intros t H.
  - now injection H as <-.
  - now injection H as <-.
  - cbn [to_nfa] in H. destruct (to_nfa inner) as [n|] eqn:En; cbn [bind] in H;
      [|discriminate].
    apply (quantifier_sizes n t inner) in H. cbn [states]. now rewrite H, (IH n).
  - cbn [to_nfa] in H. destruct (to_nfa inner) as [n|] eqn:En; cbn [bind] in H;
      [|discriminate].
    apply (quantifier_sizes n t inner) in H. cbn [states]. now rewrite H, (IH n).
  - cbn [to_nfa] in H. destruct (to_nfa inner) as [n|] eqn:En; cbn [bind] in H;
      [|discriminate].
    apply (quantifier_sizes n t inner) in H. cbn [states]. now rewrite H, (IH n).
  - cbn [to_nfa states] in *. destruct args as [|a args].
    + destruct (mapM (fun alt => ns <- mapM to_nfa alt ;; NFA.concat ns) alts)
        as [ts|] eqn:Em; cbn [bind] in H; [|discriminate].
      assert (Hm : map (@List.length State) ts
                   = map (fun l => match l with
                                   | [] => 1
                                   | _ :: _ => list_sum (map states l)
                                   end) alts).
      { apply (mapM_measure (fun alt => ns <- mapM to_nfa alt ;; NFA.concat ns)
                 (@List.length State) _ alts); [|exact Em].
        eapply Forall_impl; [|exact IHalts]. intros alt Halt y Hy.
        now apply sequence_size. }
      destruct alts as [|alt1 [|alt2 alts]]; destruct ts as [|t1 [|t2 ts]];
        try discriminate Hm.
      * now injection H as <-.
      * injection H as <-. now injection Hm.
      * rewrite <- Hm. now apply (concat_union_sizes t1 t2 ts t).
    + now apply sequence_size in H.
Qed.

(** X12.  Every grammar compiles, to a table whose number of states is
    the sum over its nodes of three for a keyword, four for a variable,
    two for a star or an optional, one for a plus and two for a group of
    two alternatives or more. *)
Theorem to_nfa_size (g : Grammar) :
  exists t, to_nfa g = Ret t /\ List.length t = states g.
Proof.
  destruct (to_nfa_ok g) as (t & Ht & _). exists t. split; [assumption|].
  now apply to_nfa_states.
Qed.

(** ** How the shifts and the concatenations compose *)

Lemma shift_state_compose (a b : nat) (s : State) :
  NFA.shift_state b (NFA.shift_state a s) = NFA.shift_state (a + b) s.
Proof.
  unfold NFA.shift_state. destruct (eps s) as [l|]; simpl.
  - f_equal. f_equal. rewrite map_map. apply map_ext. intros i. lia.
  - f_equal. rewrite map_map. apply map_ext. intros [key q]. simpl. f_equal. lia.
Qed.

(** X13.  Shifting a table twice is shifting it once by the sum, and a
    shift keeps the number of states. *)
Theorem shift_table_compose (t : Table) (a b : nat) :
  NFA._shift_table (NFA._shift_table t a) b = NFA._shift_table t (a + b)
  /\ List.length (NFA._shift_table t a) = List.length t.
Proof.
  split; [|apply shift_table_length].
  unfold NFA._shift_table. rewrite map_map. apply map_ext. intros s.
  apply shift_state_compose.
Qed.

(** X14.  Concatenating a list of fragments and one more is concatenating
    the list first and then joining the result to the last one with
    [_concat_with]; for two fragments [concat] is [_concat_with]. *)
Theorem concat_snoc (first : Table) (rest : list Table) (nxt : Table) :
  NFA.concat ((first :: rest) ++ [nxt])
  = (t <- NFA.concat (first :: rest) ;; _concat_with t nxt)
  /\ NFA.concat [first; nxt] = _concat_with first nxt.
Proof.
  split.
  - unfold NFA.concat. cbn [app]. rewrite foldM_app. 
    match goal with
    | |- context [foldM ?f rest first] =>
        destruct (foldM f rest first) as [t|e]; cbn [bind foldM]; [|reflexivity]
    end.
    unfold _concat_with.
    destruct (add_epsilon_last t (List.length t)); reflexivity.
  - unfold NFA.concat, _concat_with. cbn [foldM].
    destruct (add_epsilon_last first (List.length first)); reflexivity.
Qed.

(** ** An interpretation is a segmentation of the tokens *)

Lemma flatten_app (s1 s2 : list Entry) : flatten (s1 ++ s2) = flatten s1 ++ flatten s2.
Proof.
  induction s1 as [|[token|rule claimed] s1 IH]; simpl; [reflexivity| |];
    rewrite IH; [reflexivity | now rewrite app_assoc].
Qed.

Lemma pop_claimed_spec (rev_stack : list Entry) : forall claimed below out,
  pop_claimed rev_stack claimed = (below, out) ->
  exists popped,
    rev_stack = map (fun s => Plain (Word s)) popped ++ below
    /\ out = claimed ++ popped.
Proof.
  induction rev_stack as [|entry rev_stack IH]; intros claimed below out H.
  - simpl in H. injection H as <- <-. exists [].
    split; [reflexivity | now rewrite app_nil_r].
  - destruct entry as [[s|tk]|rule toks]; simpl in H;
      try (injection H as <- <-; exists [];
           split; [reflexivity | now rewrite app_nil_r]).
    apply IH in H as (popped & -> & ->). exists (s :: popped).
    now rewrite <- app_assoc.
Qed.

Lemma flatten_plain_words (ws : list string) :
  flatten (map (fun s => Plain (Word s)) ws) = map Word ws.
Proof. induction ws as [|w ws IH]; simpl; [reflexivity | now rewrite IH]. Qed.

Lemma flatten_reduce_stack (stack : list Entry) (rule : Grammar) (token : Key) :
  flatten (reduce_stack stack rule token) = flatten stack ++ [token].
Proof.
  unfold reduce_stack.
  destruct (pop_claimed (rev stack) []) as [below claimed] eqn:Ep.
  apply pop_claimed_spec in Ep as (popped & Hrev & ->). simpl app.
  assert (Hs : stack = rev below ++ map (fun s => Plain (Word s)) (rev popped)).
  { rewrite <- (rev_involutive stack), Hrev, rev_app_distr, map_rev. reflexivity. }
  rewrite Hs. rewrite !flatten_app, flatten_plain_words. simpl.
  now rewrite <- app_assoc.
Qed.

Lemma annotate_items_flatten (seen : list Key) (stack : list Entry) (token : Key)
    (items : list (list Grammar * nat)) :
  flatten stack = seen ->
  forall next next',
  NFA.annotate_items stack token items next = Ret next' ->
  Forall (fun p => flatten (snd p) = seen ++ [token]) next ->
  Forall (fun p => flatten (snd p) = seen ++ [token]) next'.
Proof.
  intros Hs. induction items as [|[emits q] items IH]; intros next next' H Hn;
    simpl in H.
  - now injection H as <-.
  - destruct emits as [|rule [|r2 emits]]; [| |discriminate].
    + apply IH in H; [assumption|]. apply Forall_app. split; [assumption|].
      repeat constructor. simpl. rewrite flatten_app, Hs. reflexivity.
    + apply IH in H; [assumption|]. apply Forall_app. split; [assumption|].
      repeat constructor. simpl. now rewrite flatten_reduce_stack, Hs.
Qed.

Lemma annotate_paths_flatten (fuel : nat) (self : Table) (seen : list Key)
    (token : Key) (paths : list NFA.path) :
  Forall (fun p => flatten (snd p) = seen) paths ->
  forall next next',
  NFA.annotate_paths fuel self token paths next = Ret next' ->
  Forall (fun p => flatten (snd p) = seen ++ [token]) next ->
  Forall (fun p => flatten (snd p) = seen ++ [token]) next'.
Proof.
  induction 1 as [|[state stack] paths Hp _ IH]; intros next next' H Hn; simpl in H.
  - now injection H as <-.
  - destruct (NFA.trans_emit fuel self state token []) as [items ending].
    destruct (NFA.annotate_items stack token items next) as [next1|e] eqn:Ei;
      cbn [bind] in H; [|discriminate].
    destruct ending; [discriminate|].
    apply IH in H; [assumption|].
    now apply (annotate_items_flatten seen stack token items Hp next next1).
Qed.

Lemma annotate_loop_flatten {order : SetOrder}
    (fuel : nat) (self : Table) (tokens : list Key) :
  forall seen paths paths',
  Forall (fun p => flatten (snd p) = seen) paths ->
  NFA.annotate_loop fuel self tokens paths = Ret paths' ->
  Forall (fun p => flatten (snd p) = seen ++ tokens) paths'.
Proof.
  unfold NFA.annotate_loop.
  induction tokens as [|token tokens IH]; intros seen paths paths' Hp H.
  - injection H as <-. now rewrite app_nil_r.
  - cbn [foldM] in H.
    destruct (NFA.annotate_step fuel self paths token) as [next|e] eqn:Es;
      cbn [bind] in H; [|discriminate].
    apply annotate_step_Ret in Es as [Es _].
    apply (annotate_paths_flatten fuel self seen token paths Hp [] next) in Es;
      [|constructor].
    apply (IH (seen ++ [token])) in H; [|assumption].
    now rewrite <- app_assoc in H.
Qed.

(** X15.  Every interpretation [annotate] returns, on any table, holds
    the tokens passed in, in their order and followed by the end marker,
    once each record is replaced by the tokens it has claimed: no token
    is lost, repeated or moved. *)
Theorem annotate_keeps_tokens {order : SetOrder}
    (fuel : nat) (self : Table) (tokens : list string)
    (stacks : list (list Entry))
    (H : NFA.annotate fuel self tokens = Ret stacks) :
  Forall (fun stack => flatten stack = map Word tokens ++ [Tok END]) stacks.
Proof.
  unfold NFA.annotate in H.
  destruct (NFA.annotate_loop fuel self (NFA.stream tokens) [(0, [])])
    as [paths|e] eqn:El; cbn [bind] in H; [|discriminate].
  injection H as <-.
  apply (annotate_loop_flatten fuel self (NFA.stream tokens) []) in El.
  - apply Forall_map. exact El.
  - repeat constructor.
Qed.

Lemma annotate_keeps_tokens_witness :
  Forall (fun stack => flatten stack = map Word ["take"; "sword"] ++ [Tok END])
    [[Parsed (Keyword "take") ["take"]; Parsed (Variable_ ["ITEM"]) ["sword"];
      Plain (Tok END)]].
Proof.
  apply (annotate_keeps_tokens (order := insertion_order) 5
           [ mkState None None [(Word "take", 1)];
             mkState None (Some [2]) [];
             mkState (Some (Keyword "take")) (Some [3]) [];
             mkState None None [(Tok ANY, 4)];
             mkState None (Some [3; 5]) [];
             mkState None (Some [6]) [];
             mkState (Some (Variable_ ["ITEM"])) None [] ]
           ["take"; "sword"]).
  reflexivity.
Defined.

(** ** A compiled table never sends the executors out of range *)

Section CompiledInvariant.
Variable P : nat -> (nat -> bool) -> nat -> State -> Prop.
Hypothesis P_weaken : forall n n' d d' i s,
  P n d i s -> i < n -> n <= n' -> (forall x, x < n -> d' x = d x) -> P n' d' i s.
Hypothesis P_shift : forall n n' d d' k i s,
  P n d i s -> i < n -> n + k <= n' -> (forall x, x < n -> d' (x + k) = d x) ->
  P n' d' (i + k) (NFA.shift_state k s).
Hypothesis P_add : forall n d i s j,
  P n d i s -> edges s = [] -> j < n -> d j = false -> P n d i (add_eps s j).
Hypothesis P_start : forall n d l,
  (forall j, In j l -> j < n /\ d j = false) -> d 0 = false ->
  P n d 0 (mkState None (Some l) []).
Hypothesis P_empty : forall n d i, d i = false -> P n d i empty_state.
Hypothesis P_keyword : forall inner,
  exists t, to_nfa (Keyword inner) = Ret t /\ frag_ok P t.
Hypothesis P_variable : forall inner,
  exists t, to_nfa (Variable_ inner) = Ret t /\ frag_ok P t.

(** A property the leaves have and the builders keep holds of every
    compiled table. *)
Lemma to_nfa_frag_ok (g : Grammar) : exists t, to_nfa g = Ret t /\ frag_ok P t.
Proof.
  induction g as [inner | inner | inner IH | inner IH | inner IH | args alts IHargs IHalts]
    using Grammar_rect_nested.
  - apply P_keyword.
  - apply P_variable.
  - destruct IH as (t & Ht & Hok). cbn [to_nfa]. rewrite Ht. cbn [bind].
    now apply (frag_ok_star P P_shift P_add P_start P_empty).
  - destruct IH as (t & Ht & Hok). cbn [to_nfa]. rewrite Ht. cbn [bind].
    now apply (frag_ok_plus P P_weaken P_add P_empty).
  - destruct IH as (t & Ht & Hok). cbn [to_nfa]. rewrite Ht. cbn [bind].
    now apply (frag_ok_optional P P_shift P_add P_start P_empty).
  - assert (Hconcat : forall l, Forall (fun g => exists t, to_nfa g = Ret t
                                                          /\ frag_ok P t) l ->
                      exists t, (ns <- mapM to_nfa l ;; NFA.concat ns) = Ret t
                                /\ frag_ok P t).
    { intros l Hl. apply mapM_Forall in Hl as (ns & -> & Hns). cbn [bind].
      now apply (frag_ok_concat P P_weaken P_shift P_add P_empty). }
    cbn [to_nfa]. destruct args as [|a args].
    + assert (Halts : Forall (fun alt => exists t,
                          (ns <- mapM to_nfa alt ;; NFA.concat ns) = Ret t
                          /\ frag_ok P t) alts).
      { eapply Forall_impl; [|exact IHalts]. intros alt Halt. now apply Hconcat. }
      apply mapM_Forall in Halts as (ns & -> & Hns). cbn [bind].
      now apply (frag_ok_union P P_weaken P_shift P_add P_start P_empty).
    + apply (Hconcat (a :: args) IHargs).
Qed.
End CompiledInvariant.

Lemma lookup_In (key : Key) (items : list (Key * nat)) (q : nat) :
  lookup key items = Some q -> In (key, q) items.
Proof.
  induction items as [|[k v] items IH]; simpl; [discriminate|].
  destruct (Key_eqb key k) eqn:E.
  - apply Key_eqb_eq in E. subst k. intros H. injection H as <-. now left.
  - intros H. right. now apply IH.
Qed.

Lemma in_range_consume (n : nat) (d : nat -> bool) (i : nat) (key : Key) (q : nat) :
  q < n -> in_range n d i (mkState None None [(key, q)]).
Proof.
  intros Hq. split.
  - intros j Hj. destruct Hj.
  - intros key' q' [E|[]]. now injection E as _ <-.
Qed.

Lemma in_range_eps (n : nat) (d : nat -> bool) (i : nat) (l : list nat) :
  (forall j, In j l -> j < n) -> in_range n d i (mkState None (Some l) []).
Proof.
  intros Hl. split.
  - exact Hl.
  - intros key q Hq. destruct Hq.
Qed.

Lemma in_range_emit (n : nat) (d : nat -> bool) (i : nat) (rule : Grammar) :
  in_range n d i (mkState (Some rule) None []).
Proof.
  split.
  - intros j Hj. destruct Hj.
  - intros key q Hq. destruct Hq.
Qed.

Lemma to_nfa_in_range (g : Grammar) :
  exists t, to_nfa g = Ret t /\ frag_ok in_range t.
Proof.
  apply to_nfa_frag_ok.
  - intros n n' d d' i s [He Hd] _ Hn _. split.
    + intros j Hj. specialize (He j Hj). lia.
    + intros key q Hq. specialize (Hd key q Hq). lia.
  - intros n n' d d' k i s [He Hd] _ Hn _. split.
    + intros j Hj. rewrite eps_list_shift in Hj.
      apply in_map_iff in Hj as (j0 & <- & Hj0). specialize (He j0 Hj0). lia.
    + intros key q Hq. unfold NFA.shift_state in Hq.
      destruct (eps s); simpl in Hq; [contradiction|].
      apply in_map_iff in Hq as ([key0 q0] & E & Hin). simpl in E.
      inversion E; subst. specialize (Hd key q0 Hin). lia.
  - intros n d i s j [He Hd] _ Hj _. split.
    + intros j' Hj'. unfold add_eps, eps_list in Hj'. simpl in Hj'.
      fold (eps_list s) in Hj'. apply in_app_iff in Hj' as [Hj'|[<-|[]]]; auto.
    + intros key q [].
  - intros n d l Hl _. split.
    + intros j Hj. now destruct (Hl j Hj).
    + intros key q [].
  - intros n d i _. split; [intros j [] | intros key q []].
  - intros inner.
    exists [ mkState None None [(Word inner, 1)];
             mkState None (Some [2]) [];
             mkState (Some (Keyword inner)) None [] ].
    split; [reflexivity|]. split.
    + eexists. split; [reflexivity|]. auto.
    + exists (fun _ => false). split; [reflexivity|].
      apply all_states_cons; [apply in_range_consume; simpl; lia|].
      apply all_states_cons; [|apply all_states_one; apply in_range_emit].
      apply in_range_eps. intros j [<-|[]]. simpl. lia.
  - intros inner. exists (variable_table (Variable_ inner)).
    split; [reflexivity|]. split.
    + eexists. split; [reflexivity|]. auto.
    + exists (fun _ => false). split; [reflexivity|].
      apply all_states_cons; [apply in_range_consume; simpl; lia|].
      apply all_states_cons;
        [|apply all_states_cons; [|apply all_states_one; apply in_range_emit]].
      * apply in_range_eps. intros j [<-|[<-|[]]]; simpl; lia.
      * apply in_range_eps. intros j [<-|[]]. simpl. lia.
Qed.

Lemma yield_from_all_ending_in (A : Type) (K : option exn -> Prop)
    (f : nat -> gen A) (l : list nat) :
  K None -> (forall n, In n l -> K (snd (f n))) -> K (snd (yield_from_all f l)).
Proof.
  intros HK. induction l as [|n l IH]; intros H; simpl; [assumption|].
  pose proof (H n (or_introl eq_refl)) as Hn.
  destruct (f n) as [ys [e|]]; simpl in *; [assumption|].
  specialize (IH (fun m Hm => H m (or_intror Hm))).
  destruct (yield_from_all f l); simpl in *. assumption.
Qed.

Lemma transition_in_range (self : Table) (d : nat -> bool) (token : Key) :
  all_states (in_range (List.length self) d) 0 self ->
  forall fuel i, i < List.length self ->
  Forall (fun q => q < List.length self) (fst (NFA.transition fuel self i token))
  /\ snd (NFA.transition fuel self i token) <> Some IndexError.
Proof.
  intros Hall. induction fuel as [|fuel IH]; intros i Hi; simpl.
  - split; [constructor | discriminate].
  - destruct (nth_error self i) as [s|] eqn:Es;
      [|apply nth_error_None in Es; lia].
    destruct (Hall i s Es) as [He Hd]. simpl in He, Hd.
    destruct (eps s) as [nexts|] eqn:Ee.
    + assert (Hl : eps_list s = nexts) by (unfold eps_list; now rewrite Ee).
      rewrite Hl in He. split.
      * apply yield_from_all_Forall. intros j Hj. now apply IH, He.
      * apply yield_from_all_ending_in; [discriminate|].
        intros j Hj. now apply IH, He.
    + simpl. split; [|discriminate]. unfold NFA.consume.
      destruct (NFA.is_last self i).
      * destruct (is_END token); repeat constructor. assumption.
      * destruct (lookup (Tok ANY) (edges s)) as [target|] eqn:Ea.
        -- apply lookup_In in Ea. destruct (negb (is_END token)).
           ++ repeat constructor. now apply (Hd (Tok ANY)).
           ++ destruct (lookup token (edges s)) as [target'|] eqn:Et;
                [|constructor].
              apply lookup_In in Et. repeat constructor. now apply (Hd token).
        -- destruct (lookup token (edges s)) as [target'|] eqn:Et; [|constructor].
           apply lookup_In in Et. repeat constructor. now apply (Hd token).
Qed.

Lemma walk_exn_RecursionError (e : exn) :
  walk_exn (Some e) -> Some e <> Some IndexError -> e = RecursionError.
Proof. intros [H|[H|H]] Hne; [discriminate H | contradiction | now injection H]. Qed.

Lemma matches_loop_in_range (fuel : nat) (self : Table) (d : nat -> bool)
    (Hall : all_states (in_range (List.length self) d) 0 self)
    (tokens : list Key) : forall states,
  Forall (fun q => q < List.length self) states ->
  match NFA.matches_loop fuel self tokens states with
  | Ret states' => Forall (fun q => q < List.length self) states'
  | Raise e => e = RecursionError
  end.
Proof.
  unfold NFA.matches_loop.
  induction tokens as [|token tokens IH]; intros states Hs; [exact Hs|].
  cbn [foldM].
  pose proof (matches_states_spec fuel self token states []) as Hm.
  destruct (NFA.matches_states fuel self token states []) as [states'|e]; cbn [bind].
  - apply IH. destruct Hm as [_ Hm]. apply Forall_forall. intros x Hx.
    apply Hm in Hx as [[]|(s & Hin & Hx)].
    rewrite Forall_forall in Hs.
    destruct (transition_in_range self d token Hall fuel s (Hs s Hin)) as [Hr _].
    rewrite Forall_forall in Hr. now apply Hr.
  - destruct Hm as (s & Hin & He). rewrite Forall_forall in Hs.
    destruct (transition_in_range self d token Hall fuel s (Hs s Hin)) as [_ Hne].
    apply walk_exn_RecursionError; [|now rewrite <- He].
    rewrite <- He. apply transition_kind.
Qed.

Lemma collect_failures_raise_at {order : SetOrder}
    (fuel : nat) (self : Table) (token : Key)
    (paths : list NFA.path) (e : exn) :
  NFA.collect_failures fuel self token paths = Raise e ->
  exists p, In p paths /\ snd (NFA.transition fuel self (fst p) token) = Some e.
Proof.
  induction paths as [|[state stack] paths IH]; intros H; simpl in H; [discriminate|].
  pose proof (trans_expected_ending self token fuel state) as Hk.
  destruct (NFA.trans_expected fuel self state token) as [ys [e1|]]; simpl in Hk.
  - injection H as <-. exists (state, stack). split; [now left|].
    simpl. symmetry. exact Hk.
  - destruct (NFA.collect_failures fuel self token paths); cbn [bind] in H;
      [discriminate|].
    destruct (IH H) as (p & Hp & He). exists p. split; [now right | assumption].
Qed.

Lemma annotate_loop_in_range {order : SetOrder}
    (fuel : nat) (self : Table) (d : nat -> bool)
    (Hall : all_states (in_range (List.length self) d) 0 self)
    (Hok : emits_ok self) (tokens : list Key) : forall paths,
  Forall (fun p => fst p < List.length self) paths ->
  match NFA.annotate_loop fuel self tokens paths with
  | Ret _ => True
  | Raise e => e = RecursionError \/ exists fs, e = ParseError fs
  end.
Proof.
  unfold NFA.annotate_loop.
  induction tokens as [|token tokens IH]; intros paths Hs; [exact I|].
  cbn [foldM]. unfold NFA.annotate_step.
  pose proof (annotate_paths_spec fuel self token Hok paths []) as Ha.
  assert (Hraise : forall p e, In p paths ->
                     snd (NFA.transition fuel self (fst p) token) = Some e ->
                     e = RecursionError).
  { intros p e Hin He. rewrite Forall_forall in Hs.
    destruct (transition_in_range self d token Hall fuel (fst p) (Hs p Hin))
      as [_ Hne].
    apply walk_exn_RecursionError; [|now rewrite <- He].
    rewrite <- He. apply transition_kind. }
  destruct (NFA.annotate_paths fuel self token paths []) as [next|e]; cbn [bind].
  - destruct next as [|p next].
    + destruct (NFA.collect_failures fuel self token paths) as [failures|e] eqn:Ec;
        cbn [bind].
      * right. eexists. reflexivity.
      * left. apply collect_failures_raise_at in Ec as (p & Hp & He).
        now apply (Hraise p).
    + apply IH. destruct Ha as [_ Ha]. apply Forall_forall. intros x Hx.
      assert (Hin : In (fst x) (map fst (p :: next))) by now apply in_map.
      apply Ha in Hin as [[]|(p0 & Hp0 & Hx0)].
      rewrite Forall_forall in Hs.
      destruct (transition_in_range self d token Hall fuel (fst p0) (Hs p0 Hp0))
        as [Hr _].
      rewrite Forall_forall in Hr. now apply Hr.
  - left. destruct Ha as (p & Hp & He). now apply (Hraise p).
Qed.

(** X16.  On a compiled grammar the executors never leave the table and
    [annotate] never finds two rules to unpack: [matches] returns a
    boolean or raises [RecursionError], and [annotate] returns, raises
    [ParseError] or raises [RecursionError]; [IndexError] and
    [ValueError] are excluded. *)
Theorem compiled_executors_outcomes {order : SetOrder}
    (fuel : nat) (g : Grammar) (tokens : list string) :
  ((exists b, Grammar_matches fuel g tokens = Ret b)
   \/ Grammar_matches fuel g tokens = Raise RecursionError)
  /\ ((exists stacks, Grammar_annotate fuel g tokens = Ret stacks)
      \/ (exists fs, Grammar_annotate fuel g tokens = Raise (ParseError fs))
      \/ Grammar_annotate fuel g tokens = Raise RecursionError).
Proof.
  unfold Grammar_matches, Grammar_annotate.
  destruct (to_nfa_in_range g) as (t & Ht & Hlast & d & _ & Hall).
  destruct (to_nfa_ok g) as (t' & Ht' & Hok).
  assert (t' = t) by congruence. subst t'. rewrite Ht. cbn [bind].
  pose proof (plain_last_nonempty t Hlast) as Hlen.
  split.
  - unfold NFA.matches.
    pose proof (matches_loop_in_range fuel t d Hall (NFA.stream tokens) [0]) as Hm.
    destruct (NFA.matches_loop fuel t (NFA.stream tokens) [0]) as [states|e];
      cbn [bind].
    + left. eexists. reflexivity.
    + right. rewrite Hm; [reflexivity|]. repeat constructor. assumption.
  - unfold NFA.annotate.
    pose proof (annotate_loop_in_range fuel t d Hall (frag_ok_emits_ok t Hok)
                  (NFA.stream tokens) [(0, [])]) as Ha.
    destruct (NFA.annotate_loop fuel t (NFA.stream tokens) [(0, [])]) as [paths|e];
      cbn [bind].
    + left. eexists. reflexivity.
    + right. destruct Ha as [->|[fs ->]]; [repeat constructor; assumption | |].
      * now right.
      * left. now exists fs.
Qed.

(** ** A larger recursion limit does not change an outcome *)

Lemma yield_from_all_mono {A : Type} (F G : nat -> gen A) (l : list nat) :
  (forall n, In n l -> snd (F n) <> Some RecursionError -> G n = F n) ->
  snd (yield_from_all F l) <> Some RecursionError ->
  yield_from_all G l = yield_from_all F l.
Proof.
  induction l as [|n l IH]; intros H Hne; simpl in *; [reflexivity|].
  pose proof (H n (or_introl eq_refl)) as Hn.
  destruct (F n) as [ys [e|]] eqn:En; simpl in *.
  - now rewrite Hn.
  - rewrite Hn by discriminate.
    rewrite IH; [reflexivity | intros m Hm; apply H; now right |].
    destruct (yield_from_all F l). exact Hne.
Qed.

Lemma transition_mono (self : Table) (token : Key) (fuel : nat) :
  forall i fuel', fuel <= fuel' ->
  snd (NFA.transition fuel self i token) <> Some RecursionError ->
  NFA.transition fuel' self i token = NFA.transition fuel self i token.
Proof.
  induction fuel as [|fuel IH]; intros i fuel' Hle Hne; [now contradiction Hne|].
  destruct fuel' as [|fuel']; [lia|]. simpl in *.
  destruct (nth_error self i) as [s|]; [|reflexivity].
  destruct (eps s) as [nexts|]; [|reflexivity].
  apply yield_from_all_mono; [|assumption].
  intros n _ Hn. apply IH; [lia | assumption].
Qed.

Lemma trans_emit_mono (self : Table) (token : Key) (fuel : nat) :
  forall i emits fuel', fuel <= fuel' ->
  snd (NFA.trans_emit fuel self i token emits) <> Some RecursionError ->
  NFA.trans_emit fuel' self i token emits = NFA.trans_emit fuel self i token emits.
Proof.
  induction fuel as [|fuel IH]; intros i emits fuel' Hle Hne; [now contradiction Hne|].
  destruct fuel' as [|fuel']; [lia|]. simpl in *.
  destruct (nth_error self i) as [s|]; [|reflexivity].
  destruct (eps s) as [nexts|]; [|reflexivity].
  apply yield_from_all_mono; [|assumption].
  intros n _ Hn. apply IH; [lia | assumption].
Qed.

Lemma trans_expected_mono (self : Table) (token : Key) (fuel : nat) :
  forall i fuel', fuel <= fuel' ->
  snd (NFA.trans_expected fuel self i token) <> Some RecursionError ->
  NFA.trans_expected fuel' self i token = NFA.trans_expected fuel self i token.
Proof.
  induction fuel as [|fuel IH]; intros i fuel' Hle Hne; [now contradiction Hne|].
  destruct fuel' as [|fuel']; [lia|]. simpl in *.
  destruct (nth_error self i) as [s|]; [|reflexivity].
  destruct (eps s) as [nexts|]; [|reflexivity].
  apply yield_from_all_mono; [|assumption].
  intros n _ Hn. apply IH; [lia | assumption].
Qed.

Lemma foldM_mono {A B : Type} (F G : A -> B -> result A) (l : list B) :
  (forall a x, F a x <> Raise RecursionError -> G a x = F a x) ->
  forall a, foldM F l a <> Raise RecursionError -> foldM G l a = foldM F l a.
Proof.
  intros H. induction l as [|x l IH]; intros a Hne; [reflexivity|].
  cbn [foldM] in *. destruct (F a x) as [a'|e] eqn:E; cbn [bind] in Hne.
  - rewrite H by (rewrite E; discriminate). rewrite E. cbn [bind]. now apply IH.
  - rewrite H by (rewrite E; exact Hne). now rewrite E.
Qed.

Lemma matches_states_mono (fuel fuel' : nat) (self : Table) (token : Key)
    (states : list nat) : fuel <= fuel' -> forall acc,
  NFA.matches_states fuel self token states acc <> Raise RecursionError ->
  NFA.matches_states fuel' self token states acc
  = NFA.matches_states fuel self token states acc.
Proof.
  intros Hle. induction states as [|s states IH]; intros acc Hne; [reflexivity|].
  simpl in *.
  pose proof (transition_mono self token fuel s fuel' Hle) as Ht.
  destruct (NFA.transition fuel self s token) as [ys [e|]]; simpl in Ht.
  - rewrite Ht; [reflexivity|]. intros E. apply Hne. now injection E as ->.
  - rewrite Ht by discriminate. now apply IH.
Qed.

Lemma annotate_paths_mono (fuel fuel' : nat) (self : Table) (token : Key)
    (Hok : emits_ok self) (paths : list NFA.path) : fuel <= fuel' -> forall next,
  NFA.annotate_paths fuel self token paths next <> Raise RecursionError ->
  NFA.annotate_paths fuel' self token paths next
  = NFA.annotate_paths fuel self token paths next.
Proof.
  intros Hle. induction paths as [|[state stack] paths IH]; intros next Hne;
    [reflexivity|].
  simpl in *.
  pose proof (trans_emit_mono self token fuel state [] fuel' Hle) as Ht.
  pose proof (Hok fuel state token) as Hitems.
  destruct (NFA.trans_emit fuel self state token []) as [items ending].
  simpl in Ht, Hitems.
  destruct (annotate_items_Ret stack token items Hitems next) as (next1 & Hi & _).
  rewrite Hi in Hne. cbn [bind] in Hne. destruct ending as [e|].
  - rewrite Ht; [reflexivity|]. intros E. apply Hne. now injection E as ->.
  - rewrite Ht by discriminate. rewrite Hi. cbn [bind]. now apply IH.
Qed.

Lemma collect_failures_mono {order : SetOrder}
    (fuel fuel' : nat) (self : Table) (token : Key)
    (paths : list NFA.path) : fuel <= fuel' ->
  NFA.collect_failures fuel self token paths <> Raise RecursionError ->
  NFA.collect_failures fuel' self token paths
  = NFA.collect_failures fuel self token paths.
Proof.
  intros Hle. induction paths as [|[state stack] paths IH]; intros Hne;
    [reflexivity|].
  simpl in *.
  pose proof (trans_expected_mono self token fuel state fuel' Hle) as Ht.
  destruct (NFA.trans_expected fuel self state token) as [ys [e|]]; simpl in Ht.
  - rewrite Ht; [reflexivity|]. intros E. apply Hne. now injection E as ->.
  - rewrite Ht by discriminate. rewrite IH; [reflexivity|].
    intros E. apply Hne. now rewrite E.
Qed.

Lemma annotate_step_mono {order : SetOrder}
    (fuel fuel' : nat) (self : Table) (Hok : emits_ok self)
    (paths : list NFA.path) (token : Key) : fuel <= fuel' ->
  NFA.annotate_step fuel self paths token <> Raise RecursionError ->
  NFA.annotate_step fuel' self paths token = NFA.annotate_step fuel self paths token.
Proof.
  intros Hle Hne. unfold NFA.annotate_step in *.
  rewrite (annotate_paths_mono fuel fuel' self token Hok paths Hle []).
  - destruct (NFA.annotate_paths fuel self token paths []) as [[|p next]|e];
      cbn [bind] in *; try reflexivity.
    rewrite (collect_failures_mono fuel fuel' self token paths Hle); [reflexivity|].
    intros E. apply Hne. now rewrite E.
  - intros E. apply Hne. now rewrite E.
Qed.

(** X17.  Raising the recursion limit does not change what the executors
    do on a compiled grammar: an outcome of [matches] or of [annotate]
    other than [RecursionError] is the outcome for every larger limit. *)
Theorem executors_fuel_monotone {order : SetOrder} (fuel fuel' : nat) (g : Grammar)
    (tokens : list string) (Hle : fuel <= fuel') :
  (Grammar_matches fuel g tokens <> Raise RecursionError ->
   Grammar_matches fuel' g tokens = Grammar_matches fuel g tokens)
  /\ (Grammar_annotate fuel g tokens <> Raise RecursionError ->
      Grammar_annotate fuel' g tokens = Grammar_annotate fuel g tokens).
Proof.
  unfold Grammar_matches, Grammar_annotate.
  destruct (to_nfa_ok g) as (t & -> & Hok). cbn [bind].
  apply frag_ok_emits_ok in Hok. split; intros Hne.
  - unfold NFA.matches, NFA.matches_loop in *.
    rewrite (foldM_mono
               (fun states token => NFA.matches_states fuel t token states [])
               (fun states token => NFA.matches_states fuel' t token states []));
      [reflexivity | |].
    + intros a x Hax. now apply matches_states_mono.
    + intros E. apply Hne. now rewrite E.
  - unfold NFA.annotate, NFA.annotate_loop in *.
    rewrite (foldM_mono (NFA.annotate_step fuel t) (NFA.annotate_step fuel' t));
      [reflexivity | |].
    + intros a x Hax. now apply annotate_step_mono.
    + intros E. apply Hne. now rewrite E.
Qed.

Lemma executors_fuel_monotone_witness :
  Grammar_matches 1000 take_item ["take"; "sword"]
  = Grammar_matches 3 take_item ["take"; "sword"].
Proof.
  apply (executors_fuel_monotone (order := insertion_order) 3 1000 take_item
           ["take"; "sword"]).
  - lia.
  - discriminate.
Defined.

(** ** What a keyword and its quantified forms accept *)

Lemma matches_cons (fuel : nat) (self : Table) (w : string) (ws : list string)
    (states : list nat) :
  NFA.matches_loop fuel self (NFA.stream (w :: ws)) states
  = (states' <- NFA.matches_states fuel self (Word w) states [] ;;
     NFA.matches_loop fuel self (NFA.stream ws) states').
Proof. reflexivity. Qed.

Lemma keyword_tables (k : string) :
  to_nfa (Keyword k) = Ret (keyword_table k)
  /\ to_nfa (Star (Keyword k)) = Ret (star_keyword_table k)
  /\ to_nfa (Plus (Keyword k)) = Ret (plus_keyword_table k)
  /\ to_nfa (Optional (Keyword k)) = Ret (optional_keyword_table k).
Proof. repeat split. Qed.

(** X18.  A keyword accepts the one-token sequence made of its word and
    nothing else, and the table of no fragment, which [concat] and
    [union] return for no argument, accepts the empty sequence and
    nothing else. *)
Theorem keyword_accepts (fuel : nat) (k : string) (tokens : list string)
    (Hfuel : 2 <= fuel) :
  Grammar_matches fuel (Keyword k) tokens
  = Ret (match tokens with
         | [w] => (w =? k)%string
         | _ => false
         end)
  /\ NFA.matches fuel NFA.new tokens
     = Ret (match tokens with [] => true | _ :: _ => false end).
Proof.
  destruct fuel as [|[|fuel]]; try lia. split.
  - unfold Grammar_matches.
    change (to_nfa (Keyword k)) with (Ret (keyword_table k)). cbn [bind].
    unfold NFA.matches. destruct tokens as [|w [|w2 ws]].
    + reflexivity.
    + rewrite matches_cons.
      assert (Hs : NFA.matches_states (S (S fuel)) (keyword_table k) (Word w) [0] []
                   = Ret (if (w =? k)%string then [1] else [])).
      { simpl. unfold NFA.consume. simpl. now destruct (w =? k)%string. }
      rewrite Hs. cbn [bind]. now destruct (w =? k)%string.
    + rewrite matches_cons.
      assert (Hs : (states' <- NFA.matches_states (S (S fuel)) (keyword_table k)
                                 (Word w) [0] [] ;;
                    NFA.matches_states (S (S fuel)) (keyword_table k)
                                 (Word w2) states' []) = Ret []).
      { simpl. unfold NFA.consume. simpl. now destruct (w =? k)%string. }
      destruct (NFA.matches_states (S (S fuel)) (keyword_table k) (Word w) [0] [])
        as [s1|]; cbn [bind] in *; [|discriminate].
      rewrite matches_cons, Hs. cbn [bind]. now rewrite matches_loop_nil.
  - unfold NFA.matches. destruct tokens as [|w ws]; [reflexivity|].
    rewrite matches_cons.
    change (NFA.matches_states (S (S fuel)) NFA.new (Word w) [0] [])
      with (Ret (A := list nat) []).
    cbn [bind]. now rewrite matches_loop_nil.
Qed.

Lemma keyword_accepts_witness :
  Grammar_matches 1000 (Keyword "look") ["look"] = Ret true.
Proof.
  refine (proj1 (keyword_accepts 1000 "look" ["look"] _)). lia.
Defined.

Lemma star_keyword_loop (fuel : nat) (k : string) (ws : list string) :
  forall s, s = 0 \/ s = 2 ->
  NFA.matches_loop (S (S (S (S fuel)))) (star_keyword_table k) (NFA.stream ws) [s]
  = Ret (if all_equal k ws then [4] else []).
Proof.
  induction ws as [|w ws IH]; intros s Hs.
  - destruct Hs as [-> | ->]; reflexivity.
  - rewrite matches_cons.
    assert (Hstep : NFA.matches_states (S (S (S (S fuel)))) (star_keyword_table k)
                      (Word w) [s] []
                    = Ret (if (w =? k)%string then [2] else [])).
    { destruct Hs as [-> | ->]; simpl; unfold NFA.consume; simpl;
        now destruct (w =? k)%string. }
    rewrite Hstep. cbn [bind]. unfold all_equal. cbn [forallb].
    destruct (w =? k)%string; cbn [andb].
    + apply IH. now right.
    + apply matches_loop_nil.
Qed.

Lemma plus_keyword_loop (fuel : nat) (k : string) (ws : list string) :
  NFA.matches_loop (S (S (S fuel))) (plus_keyword_table k) (NFA.stream ws) [1]
  = Ret (if all_equal k ws then [3] else []).
Proof.
  induction ws as [|w ws IH]; [reflexivity|].
  rewrite matches_cons.
  assert (Hstep : NFA.matches_states (S (S (S fuel))) (plus_keyword_table k)
                    (Word w) [1] []
                  = Ret (if (w =? k)%string then [1] else [])).
  { simpl. unfold NFA.consume. simpl. now destruct (w =? k)%string. }
  rewrite Hstep. cbn [bind]. unfold all_equal. cbn [forallb].
  destruct (w =? k)%string; cbn [andb]; [apply IH | apply matches_loop_nil].
Qed.

(** X19.  The star of a keyword accepts the sequences made of that word
    only, the empty one included; its plus accepts the same sequences
    but the empty one; its optional form accepts the empty sequence and
    the single word. *)
Theorem quantified_keyword_accepts (fuel : nat) (k : string) (tokens : list string)
    (Hfuel : 4 <= fuel) :
  Grammar_matches fuel (Star (Keyword k)) tokens = Ret (all_equal k tokens)
  /\ Grammar_matches fuel (Plus (Keyword k)) tokens
     = Ret (match tokens with [] => false | _ :: _ => all_equal k tokens end)
  /\ Grammar_matches fuel (Optional (Keyword k)) tokens
     = Ret (match tokens with
            | [] => true
            | [w] => (w =? k)%string
            | _ => false
            end).
Proof.
  destruct fuel as [|[|[|[|fuel]]]]; try lia. split; [|split].
  - unfold Grammar_matches.
    change (to_nfa (Star (Keyword k))) with (Ret (star_keyword_table k)).
    cbn [bind]. unfold NFA.matches.
    rewrite star_keyword_loop by now left. cbn [bind].
    now destruct (all_equal k tokens).
  - unfold Grammar_matches.
    change (to_nfa (Plus (Keyword k))) with (Ret (plus_keyword_table k)).
    cbn [bind]. unfold NFA.matches. destruct tokens as [|w ws]; [reflexivity|].
    rewrite matches_cons.
    assert (Hstep : NFA.matches_states (S (S (S (S fuel)))) (plus_keyword_table k)
                      (Word w) [0] []
                    = Ret (if (w =? k)%string then [1] else [])).
    { simpl. unfold NFA.consume. simpl. now destruct (w =? k)%string. }
    rewrite Hstep. cbn [bind]. unfold all_equal. cbn [forallb].
    destruct (w =? k)%string; cbn [andb].
    + fold (all_equal k ws). rewrite (plus_keyword_loop (S fuel)). cbn [bind].
      now destruct (all_equal k ws).
    + now rewrite matches_loop_nil.
  - unfold Grammar_matches.
    change (to_nfa (Optional (Keyword k))) with (Ret (optional_keyword_table k)).
    cbn [bind]. unfold NFA.matches. destruct tokens as [|w [|w2 ws]].
    + reflexivity.
    + rewrite matches_cons.
      assert (Hs : NFA.matches_states (S (S (S (S fuel)))) (optional_keyword_table k)
                     (Word w) [0] []
                   = Ret (if (w =? k)%string then [2] else [])).
      { simpl. unfold NFA.consume. simpl. now destruct (w =? k)%string. }
      rewrite Hs. cbn [bind]. now destruct (w =? k)%string.
    + rewrite matches_cons.
      assert (Hs : (states' <- NFA.matches_states (S (S (S (S fuel))))
                                 (optional_keyword_table k) (Word w) [0] [] ;;
                    NFA.matches_states (S (S (S (S fuel))))
                                 (optional_keyword_table k) (Word w2) states' [])
                   = Ret []).
      { simpl. unfold NFA.consume. simpl. now destruct (w =? k)%string. }
      destruct (NFA.matches_states (S (S (S (S fuel)))) (optional_keyword_table k)
                  (Word w) [0] []) as [s1|]; cbn [bind] in *; [|discriminate].
      rewrite matches_cons, Hs. cbn [bind]. now rewrite matches_loop_nil.
Qed.

Lemma quantified_keyword_accepts_witness :
  Grammar_matches 1000 (Star (Keyword "go")) ["go"; "go"] = Ret true.
Proof.
  refine (proj1 (quantified_keyword_accepts 1000 "go" ["go"; "go"] _)). lia.
Defined.
